(** * SalesWorkflow: the workflow dependency-graph execution and validation engine

    A shallow embedding of
      - [src/server/utils/parallel-executor.ts] (class [ParallelWorkflowExecutor]),
      - the workflow inspector (class [WorkflowInspector], [validateWorkflow],
        [buildDependencyGraph], [validateDataFlow], [checkMissingDependencies],
        [generateSuggestedConnections], [suggestOptimalOrder],
        [suggestHumanInterventionModules], [autoFixWorkflowWithHumanModules]),
      - the storage of workflows ([WorkflowStorage]), the workflow routes of
        [src/server/routes/workflows.ts] that store, run and analyze them, and
        the data-flow route of [src/server/routes/inspector.ts],
    together with the properties of the engine proved about them.

    Conventions.
      - A JavaScript [Map] whose iteration order is observed is a [gmap] paired
        with the list of its keys in insertion order; a [Set] whose order is
        never observed is a [gset]; a [Set] that is iterated is a duplicate-free
        list in insertion order.
      - The values produced by step executors are JSON-like ([Js.value]).
      - [await] points are the only places where control can interleave; the
        executor oracle is a function, so a batch settles to the same graph in
        every interleaving and is modelled by one of them. *)

From Stdlib Require Import ZArith QArith Sorted.
From stdpp Require Import base option list gmap sets strings pretty relations.

#[local] Set Warnings "-register-all,-clear-no-such-hyp".

(** ** JavaScript values *)

Module Js.

(** JSON-like values.  Numbers are the integral doubles; an object is the
  list of its own enumerable properties in enumeration order. *)
Inductive value : Type :=
| Undefined
| Null
| Bool (b : bool)
| Num (z : Z)
| Str (s : string)
| Arr (items : list value)
| Obj (props : list (string * value)).

(** [ToBoolean]: what [if (v)], [!v] and [v || w] test. *)
Definition truthy (v : value) : bool :=
match v with
| Undefined | Null => false
| Bool b => b
| Num z => negb (z =? 0)%Z
| Str s => negb (String.eqb s EmptyString)
| Arr _ | Obj _ => true
end.

(** [a || b] *)
Definition or_else (a b : value) : value := if truthy a then a else b.

(** [o[k]] on the own properties of a plain object ([undefined] when missing). *)
Fixpoint get (props : list (string * value)) (k : string) : value :=
match props with
| [] => Undefined
| (k', v) :: rest => if decide (k' = k) then v else get rest k
end.

(** [o[k] = v]: overwrite in place, or append a new own property. *)
Fixpoint set (props : list (string * value)) (k : string) (v : value)
: list (string * value) :=
match props with
| [] => [(k, v)]
| (k', v') :: rest =>
    if decide (k' = k) then (k, v) :: rest else (k', v') :: set rest k v
end.

(** The own keys of a property list, each once, in first-occurrence order. *)
Definition keys_of (props : list (string * value)) : list string :=
foldl (λ acc k, if decide (k ∈ acc) then acc else acc ++ [k]) [] (props.*1).

(** [Object.assign(target, source)] on plain objects. *)
Definition assign (target source : list (string * value))
: list (string * value) :=
foldl (λ t k, set t k (get source k)) target (keys_of source).

Definition indexed (items : list value) : list (string * value) :=
imap (λ i v, (pretty i, v)) items.

Definition chars (s : string) : list value :=
(λ c, Str (String c EmptyString)) <$> String.list_ascii_of_string s.

(** [Object.keys(v).map(k => [k, v[k]])] for a value [v] that is not
  [null] or [undefined]. *)
Definition own_entries (v : value) : list (string * value) :=
match v with
| Obj props => (λ k, (k, get props k)) <$> keys_of props
| Arr items => indexed items
| Str s => indexed (chars s)
| _ => []
end.

(** The names every object literal inherits from [Object.prototype]:
  reading [o[k]] for one of them never yields [undefined]. *)
Definition inherited_names : list string :=
[ "__proto__"; "constructor"; "hasOwnProperty"; "isPrototypeOf";
  "propertyIsEnumerable"; "toLocaleString"; "toString"; "valueOf";
  "__defineGetter__"; "__defineSetter__"; "__lookupGetter__";
  "__lookupSetter__" ].

(** [String.prototype.includes] *)
Fixpoint includes (hay needle : string) : bool :=
String.prefix needle hay
|| match hay with
   | EmptyString => false
   | String _ hay' => includes hay' needle
   end.

(** How an evaluation ends: with a value, with a thrown [Error] carrying a
  message, or outside the value universe above (an array or a string
  wrapper that received named properties, a write through an inherited
  name). *)
Inductive completion (A : Type) : Type :=
| Normal (a : A)
| Throw (message : string)
| Unmodelled.
Arguments Normal {A} a.
Arguments Throw {A} message.
Arguments Unmodelled {A}.

End Js.

(** ** Shared types ([src/server/types.ts]) *)

Record DataType := {
  type : string;
  required : option bool;
}.

Inductive Category :=
| data_collection | processing | communication | analysis | decision | integration.

Global Instance Category_eq_dec : EqDecision Category.
Proof. solve_decision. Defined.

Record ModuleIO := {
  inputs : list DataType;
  outputs : list DataType;
}.

(** [interface Module] *)
Record ModuleDef := {
  id : string;
  name : string;
  io : ModuleIO;
  category : Category;
}.

Record WorkflowStep := {
  instanceId : string;
  moduleId : string;
  config : Js.value;
  llm : option string;
  dependsOn : option (list string);
}.

(** [step.dependsOn || []] *)
Definition deps (s : WorkflowStep) : list string := default [] (dependsOn s).

(** ** The parallel executor ([src/server/utils/parallel-executor.ts]) *)

Inductive Status := Pending | Running | Completed | Failed.

Global Instance Status_eq_dec : EqDecision Status.
Proof. solve_decision. Defined.

(** [interface ExecutionNode]; [result] is [Js.Undefined] until assigned. *)
Record ExecutionNode := {
  step : WorkflowStep;
  status : Status;
  result : Js.value;
  error : option string;
}.

(** [interface ExecutionGraph]; [nodes_order] is the insertion order of the
    [nodes] map, which [forEach] follows. *)
Record ExecutionGraph := {
  nodes : gmap string ExecutionNode;
  nodes_order : list string;
  completed : gset string;
  running : gset string;
}.

Definition set_status (st : Status) (n : ExecutionNode) : ExecutionNode :=
  {| step := step n; status := st; result := result n; error := error n |}.
Definition set_result (r : Js.value) (n : ExecutionNode) : ExecutionNode :=
  {| step := step n; status := status n; result := r; error := error n |}.
Definition set_error (e : string) (n : ExecutionNode) : ExecutionNode :=
  {| step := step n; status := status n; result := result n; error := Some e |}.

(** [graph.nodes.set(k, n)] *)
Definition nodes_set (k : string) (n : ExecutionNode) (g : ExecutionGraph)
  : ExecutionGraph :=
  {| nodes := <[k := n]> (nodes g);
     nodes_order :=
       if decide (k ∈ nodes_order g) then nodes_order g else nodes_order g ++ [k];
     completed := completed g;
     running := running g |}.

(** A mutation of the node object stored under [k]. *)
Definition update_node (k : string) (f : ExecutionNode → ExecutionNode)
    (g : ExecutionGraph) : ExecutionGraph :=
  {| nodes := alter f k (nodes g);
     nodes_order := nodes_order g;
     completed := completed g;
     running := running g |}.

Definition running_add (k : string) (g : ExecutionGraph) : ExecutionGraph :=
  {| nodes := nodes g; nodes_order := nodes_order g;
     completed := completed g; running := {[k]} ∪ running g |}.

(** [running.delete(k); completed.add(k)] *)
Definition mark_done (k : string) (g : ExecutionGraph) : ExecutionGraph :=
  {| nodes := nodes g; nodes_order := nodes_order g;
     completed := {[k]} ∪ completed g; running := running g ∖ {[k]} |}.

Definition empty_graph : ExecutionGraph :=
  {| nodes := ∅; nodes_order := []; completed := ∅; running := ∅ |}.

Definition pending_node (s : WorkflowStep) : ExecutionNode :=
  {| step := s; status := Pending; result := Js.Undefined; error := None |}.

(** [constructor(steps)] *)
Definition new_graph (steps : list WorkflowStep) : ExecutionGraph :=
  foldl (λ g s, nodes_set (instanceId s) (pending_node s) g) empty_graph steps.

(** The node objects in [forEach] order. *)
Definition node_list (g : ExecutionGraph) : list ExecutionNode :=
  omap (λ k, nodes g !! k) (nodes_order g).

Definition dependencies_satisfied (g : ExecutionGraph) (n : ExecutionNode) : bool :=
  forallb (λ depId, bool_decide (depId ∈ completed g)) (deps (step n)).

Definition is_ready (g : ExecutionGraph) (n : ExecutionNode) : bool :=
  bool_decide (status n = Pending) && dependencies_satisfied g n.

(** [getReadySteps()] *)
Definition getReadySteps (g : ExecutionGraph) : list ExecutionNode :=
  filter (λ n, is_ready g n = true) (node_list g).

(** *** [gatherInputs] *)

Import Js.

Definition bind {A B} (c : completion A) (k : A → completion B) : completion B :=
  match c with
  | Normal a => k a
  | Throw m => Throw m
  | Unmodelled => Unmodelled
  end.

(** [xs.forEach(x => acc = f(acc, x))] where [f] may throw. *)
Fixpoint for_each {A B} (f : B → A → completion B) (xs : list A) (acc : B)
  : completion B :=
  match xs with
  | [] => Normal acc
  | x :: xs' => bind (f acc x) (for_each f xs')
  end.

(** The message of the [TypeError] raised by calling [.push] on a value that
    has none. *)
Definition push_not_a_function : string :=
  "mergedInput[key].push is not a function".

Definition is_empty_props (props : list (string * value)) : bool :=
  match props with [] => true | _ => false end.

(** The body of [Object.keys(depNode.result).forEach(key => ...)]:
    one field [key] with value [v = depNode.result[key]] is folded into
    [mergedInput]. *)
Definition merge_field (mergedInput : list (string * value))
    (kv : string * value) : completion (list (string * value)) :=
  let '(key, v) := kv in
  let inherited := bool_decide (key ∈ inherited_names) in
  let cur := get mergedInput key in
  match v with
  | Arr items =>
      (* Array.isArray(depNode.result[key]) *)
      if inherited then Throw push_not_a_function
      else match (if truthy cur then cur else Arr []) with
           | Arr xs => Normal (set mergedInput key (Arr (xs ++ items)))
           | _ => Throw push_not_a_function
           end
  | Obj props =>
      (* typeof depNode.result[key] === 'object' && ... !== null *)
      if inherited
      then (if is_empty_props props then Normal mergedInput else Unmodelled)
      else match (if truthy cur then cur else Obj []) with
           | Obj o =>
               if bool_decide ("__proto__" ∈ keys_of props) then Unmodelled
               else Normal (set mergedInput key (Obj (assign o props)))
           | Num _ | Bool _ => Normal mergedInput
           | _ => if is_empty_props props then Normal mergedInput else Unmodelled
           end
  | _ =>
      (* Take first non-null value *)
      if inherited then Normal mergedInput
      else match cur with
           | Undefined => Normal (set mergedInput key v)
           | _ => Normal mergedInput
           end
  end.

(** [depNode?.result] for [depNode = graph.nodes.get(depId)] *)
Definition dep_result (g : ExecutionGraph) (depId : string) : value :=
  match nodes g !! depId with
  | Some depNode => result depNode
  | None => Undefined
  end.

(** The body of [dependencies.forEach(depId => ...)] *)
Definition merge_dependency (g : ExecutionGraph)
    (acc : list (string * value) * list value) (depId : string)
  : completion (list (string * value) * list value) :=
  let '(mergedInput, allResults) := acc in
  let r := dep_result g depId in
  if truthy r
  then bind (for_each merge_field (own_entries r) mergedInput)
            (λ m, Normal (m, allResults ++ [r]))
  else Normal acc.

(** [gatherInputs(step)] *)
Definition gatherInputs (g : ExecutionGraph) (s : WorkflowStep) : completion value :=
  let dependencies := deps s in
  match dependencies with
  | [] => Normal Null
  | [d] => Normal (or_else (dep_result g d) Null)
  | _ =>
      bind (for_each (merge_dependency g) dependencies ([], []))
           (λ '(mergedInput, allResults),
              Normal (Obj (set (set mergedInput "_sources" (Arr (Str <$> dependencies)))
                               "_allResults" (Arr allResults))))
  end.

(** *** [executeStep] and [execute] *)

(** How an [async] call settles. *)
Inductive outcome :=
| Resolved (v : value)
| Rejected (message : string).

(** [{ status: 'error', error: error.message }] *)
Definition error_record (message : string) : value :=
  Obj [("status", Str "error"); ("error", Str message)].

Definition deadlock_message : string :=
  "Workflow deadlock detected - no steps can execute".

(** How [execute()] ends: it returns the [results] map (with the graph it
    leaves behind), or it throws. *)
Inductive execution :=
| Returns (results : list (string * value)) (final : ExecutionGraph)
| Throws (message : string)
| OutOfFuel.

Section Execution.

(** The module store read by [ModuleStorage.getById]. *)
Variable modules : list ModuleDef.

(** The table [moduleExecutors] of [src/server/executors/index.ts]: the
    executor bound to a module id, as a function of
    [(config, previousResults, llm)]; thrown values are [Error]s. *)
Variable moduleExecutors :
  string → option (value → value → option string → outcome).

(** The clock read by [simulateExecution], as an ISO string. *)
Variable executedAt : WorkflowStep → string.

(** How a step settles when its merged input leaves [Js.value]. *)
Variable beyond_model : WorkflowStep → outcome.

(** [ModuleStorage.getById(id)] *)
Definition getById (i : string) : option ModuleDef :=
  List.find (λ m, bool_decide (id m = i)) modules.

Definition hasRealImplementation (i : string) : bool :=
  match moduleExecutors i with Some _ => true | None => false end.

Definition executeModule (i : string) (cfg previousResults : value)
    (l : option string) : outcome :=
  match moduleExecutors i with
  | None => Rejected ("No executor found for module: " +:+ i)
  | Some executor => executor cfg previousResults l
  end.

Definition simulateExecution (m : ModuleDef) (s : WorkflowStep) : value :=
  Obj [ ("moduleId", Str (id m));
        ("moduleName", Str (name m));
        ("status", Str "completed");
        ("config", config s);
        ("output", Str ("Simulated output from " +:+ name m));
        ("executedAt", Str (executedAt s)) ].

(** The synchronous prefix of [executeStep], up to its first [await]. *)
Definition executeStep_start (g : ExecutionGraph) (node : ExecutionNode)
  : ExecutionGraph :=
  let k := instanceId (step node) in
  running_add k (update_node k (set_status Running) g).

(** What the [try] block of [executeStep] yields for step [s]. *)
Definition step_outcome (g : ExecutionGraph) (s : WorkflowStep) : outcome :=
  match getById (moduleId s) with
  | None => Rejected ("Module not found: " +:+ moduleId s)
  | Some module =>
      match gatherInputs g s with
      | Normal inputData =>
          if hasRealImplementation (id module)
          then executeModule (id module) (config s) inputData (llm s)
          else Resolved (simulateExecution module s)
      | Throw m => Rejected m
      | Unmodelled => beyond_model s
      end
  end.

Definition store_result (r : value) (n : ExecutionNode) : ExecutionNode :=
  set_status Completed (set_result r n).

Definition store_failure (m : string) (n : ExecutionNode) : ExecutionNode :=
  set_result (error_record m) (set_error m (set_status Failed n)).

(** The rest of [executeStep]: the result is stored, or the [catch]
    block runs; both end with [running.delete] and [completed.add]. *)
Definition executeStep_settle (g : ExecutionGraph) (node : ExecutionNode)
  : ExecutionGraph :=
  let k := instanceId (step node) in
  match step_outcome g (step node) with
  | Resolved r => mark_done k (update_node k (store_result r) g)
  | Rejected m => mark_done k (update_node k (store_failure m) g)
  end.

Definition executeStep (g : ExecutionGraph) (node : ExecutionNode)
  : ExecutionGraph :=
  executeStep_settle (executeStep_start g node) node.

(** [await Promise.all(readySteps.map(node => this.executeStep(node)))]:
    every ready node is started, then every one settles. *)
Definition run_batch (g : ExecutionGraph) (readySteps : list ExecutionNode)
  : ExecutionGraph :=
  foldl executeStep_settle (foldl executeStep_start g readySteps) readySteps.

Inductive loop_exit :=
| Finished (g : ExecutionGraph)
| Deadlock (g : ExecutionGraph)
| Exhausted.

(** The [while] loop of [execute]; [total] is [this.steps.length]. *)
Fixpoint execute_loop (fuel : nat) (total : nat) (g : ExecutionGraph)
  : loop_exit :=
  match fuel with
  | 0 => Exhausted
  | S fuel' =>
      if decide (size (completed g) < total) then
        match getReadySteps g with
        | [] =>
            if decide (size (running g) = 0) then Deadlock g
            else (* setTimeout(resolve, 100); continue *)
              execute_loop fuel' total g
        | readySteps => execute_loop fuel' total (run_batch g readySteps)
        end
      else Finished g
  end.

(** [this.graph.nodes.forEach((node, instanceId) => { if (node.result) ... })] *)
Definition collect_results (g : ExecutionGraph) : list (string * value) :=
  omap (λ k, n ← nodes g !! k;
             if truthy (result n) then Some (k, result n) else None)
       (nodes_order g).

(** [new ParallelWorkflowExecutor(steps).execute()] *)
Definition execute (steps : list WorkflowStep) : execution :=
  match execute_loop (S (length steps)) (length steps) (new_graph steps) with
  | Finished g => Returns (collect_results g) g
  | Deadlock _ => Throws deadlock_message
  | Exhausted => OutOfFuel
  end.

(** [getStats()] *)
Definition getStats (steps : list WorkflowStep) (g : ExecutionGraph)
  : Z * Z * Z * Z :=
  (Z.of_nat (length steps),
   Z.of_nat (size (completed g)),
   Z.of_nat (size (running g)),
   Z.of_nat (length steps) - Z.of_nat (size (completed g))
     - Z.of_nat (size (running g)))%Z.

End Execution.

(** *** [analyzeParallelism] *)

(** The value of [Math.max(...xs)]: [-Infinity] for no argument. *)
Inductive max_result :=
| NegInfinity
| Finite (n : nat).

Definition math_max (xs : list nat) : max_result :=
  match xs with
  | [] => NegInfinity
  | x :: xs' => Finite (foldl Nat.max x xs')
  end.

Record Parallelism := {
  maxParallelism : max_result;
  levels : list (list string);
  independentPaths : nat;
}.

(** [new Set(xs)]: each element once, in first-occurrence order. *)
Definition ordered_set (xs : list string) : list string :=
  foldl (λ acc k, if decide (k ∈ acc) then acc else acc ++ [k]) [] xs.

(** [inDegree.set(k, (inDegree.get(k) || 1) - 1)] *)
Definition decrement (k : string) (inDegree : gmap string nat) : gmap string nat :=
  <[k := match inDegree !! k with Some (S n) => n | _ => 0 end]> inDegree.

(** The body of [level.forEach(stepId => ...)]. *)
Definition remove_step (steps : list WorkflowStep)
    (st : list string * gmap string nat) (stepId : string)
  : list string * gmap string nat :=
  let remaining := filter (λ k, k ≠ stepId) st.1 in
  (remaining,
   foldl (λ inDegree s,
            if bool_decide (stepId ∈ deps s)
               && bool_decide (instanceId s ∈ remaining)
            then decrement (instanceId s) inDegree
            else inDegree)
         st.2 steps).

(** The [while (remaining.size > 0)] loop; [None] when the fuel runs out. *)
Fixpoint levels_loop (fuel : nat) (steps : list WorkflowStep)
    (remaining : list string) (inDegree : gmap string nat)
    (acc : list (list string)) : option (list (list string)) :=
  match fuel with
  | 0 => None
  | S fuel' =>
      match remaining with
      | [] => Some acc
      | _ =>
          match filter (λ k, inDegree !! k = Some 0) remaining with
          | [] => Some acc (* break: circular dependency *)
          | level =>
              let st := foldl (remove_step steps) (remaining, inDegree) level in
              levels_loop fuel' steps st.1 st.2 (acc ++ [level])
          end
      end
  end.

Definition initial_inDegree (steps : list WorkflowStep) : gmap string nat :=
  foldl (λ m s, <[instanceId s := length (deps s)]> m) ∅ steps.

(** [levels[0]?.length || 1] *)
Definition first_level_size (lvls : list (list string)) : nat :=
  match lvls with
  | [] => 1
  | l :: _ => if decide (length l = 0) then 1 else length l
  end.

Definition analyzeParallelism (steps : list WorkflowStep) : option Parallelism :=
  lvls ← levels_loop (S (length steps)) steps
           (ordered_set (instanceId <$> steps)) (initial_inDegree steps) [];
  Some {| maxParallelism := math_max (length <$> lvls);
          levels := lvls;
          independentPaths := first_level_size lvls |}.

(** ** The workflow inspector ([WorkflowInspector]) *)

(** [xs.forEach((x, index) => st = f(st, x, index))] *)
Fixpoint forEach_from {A St : Type} (f : St → A → nat → St) (index : nat)
    (xs : list A) (st : St) : St :=
  match xs with
  | [] => st
  | x :: xs' => forEach_from f (S index) xs' (f st x index)
  end.

Definition forEach {A St : Type} (f : St → A → nat → St) (xs : list A)
    (st : St) : St :=
  forEach_from f 0 xs st.

(** [input.required] tested as a condition. *)
Definition is_required (d : DataType) : bool := default false (required d).

(** [new Map(); modules.forEach(module => moduleMap.set(module.id, module))] *)
Definition build_moduleMap (modules : list ModuleDef) : gmap string ModuleDef :=
  foldl (λ m x, <[id x := x]> m) ∅ modules.

(** The messages a validation pushes, before they are rendered. *)
Inductive Diagnostic :=
| ModuleNotFound (index : nat) (moduleId : string)
| MissingRequiredInput (index : nat) (ty moduleName : string)
| OptionalInputUnavailable (index : nat) (ty moduleName : string)
| NoPreviousProvider (index : nat) (ty moduleName : string).

(** The template literals of the source; [index] is zero-based. *)
Definition render (d : Diagnostic) : string :=
  match d with
  | ModuleNotFound index m =>
      "Step " +:+ pretty (index + 1) +:+ ": Module '" +:+ m +:+ "' not found"
  | MissingRequiredInput index ty n =>
      "Step " +:+ pretty (index + 1) +:+ ": Missing required input '" +:+ ty
        +:+ "' for module '" +:+ n +:+ "'"
  | OptionalInputUnavailable index ty n =>
      "Step " +:+ pretty (index + 1) +:+ ": Optional input '" +:+ ty
        +:+ "' not available for module '" +:+ n +:+ "'"
  | NoPreviousProvider index ty n =>
      "Step " +:+ pretty (index + 1) +:+ ": No previous step provides required '"
        +:+ ty +:+ "' for '" +:+ n +:+ "'"
  end.

Record DependencyNode := {
  dn_moduleId : string;
  dn_level : nat;
  dn_dependencies : list string;
  dn_outputs : list DataType;
}.

(** The body of [module.io.inputs.forEach] in [buildDependencyGraph]. *)
Definition dependency_entry (availableData : gmap string nat)
    (dependencies : list string) (input : DataType) : list string :=
  match availableData !! type input with
  | None =>
      if is_required input
      then dependencies ++ ["Missing required input: " +:+ type input]
      else dependencies
  | Some provider =>
      dependencies ++ [type input +:+ " from step " +:+ pretty provider]
  end.

Definition buildDependencyGraph_step (moduleMap : gmap string ModuleDef)
    (st : list DependencyNode * gmap string nat) (s : WorkflowStep) (index : nat)
  : list DependencyNode * gmap string nat :=
  match moduleMap !! moduleId s with
  | None => st
  | Some module =>
      let dependencies := foldl (dependency_entry st.2) [] (inputs (io module)) in
      let availableData :=
        foldl (λ a output, <[type output := index]> a) st.2 (outputs (io module)) in
      (st.1 ++ [ {| dn_moduleId := moduleId s; dn_level := index;
                    dn_dependencies := dependencies;
                    dn_outputs := outputs (io module) |} ],
       availableData)
  end.

Definition buildDependencyGraph (steps : list WorkflowStep)
    (moduleMap : gmap string ModuleDef) : list DependencyNode :=
  (forEach (buildDependencyGraph_step moduleMap) steps ([], ∅)).1.

(** [module.io.outputs.forEach(output => availableData.add(output.type))] *)
Definition add_outputs (module : ModuleDef) (availableData : gset string)
  : gset string :=
  foldl (λ a output, {[type output]} ∪ a) availableData (outputs (io module)).

(** The body of [module.io.inputs.forEach] in [validateDataFlow]. *)
Definition check_input (availableData : gset string) (index : nat)
    (module : ModuleDef) (st : list Diagnostic * list Diagnostic)
    (input : DataType) : list Diagnostic * list Diagnostic :=
  if is_required input && bool_decide (type input ∉ availableData)
  then (st.1 ++ [MissingRequiredInput index (type input) (name module)], st.2)
  else if negb (is_required input) && bool_decide (type input ∉ availableData)
  then (st.1, st.2 ++ [OptionalInputUnavailable index (type input) (name module)])
  else st.

Definition validateDataFlow_step (moduleMap : gmap string ModuleDef)
    (st : list Diagnostic * list Diagnostic * gset string)
    (s : WorkflowStep) (index : nat)
  : list Diagnostic * list Diagnostic * gset string :=
  match moduleMap !! moduleId s with
  | None => (st.1.1 ++ [ModuleNotFound index (moduleId s)], st.1.2, st.2)
  | Some module =>
      (foldl (check_input st.2 index module) st.1 (inputs (io module)),
       add_outputs module st.2)
  end.

(** [validateDataFlow] before rendering: [(errors, warnings)]. *)
Definition validateDataFlow_log (steps : list WorkflowStep)
    (moduleMap : gmap string ModuleDef) : list Diagnostic * list Diagnostic :=
  (forEach (validateDataFlow_step moduleMap) steps ([], [], ∅)).1.

Definition validateDataFlow (steps : list WorkflowStep)
    (moduleMap : gmap string ModuleDef) : list string * list string :=
  let log := validateDataFlow_log steps moduleMap in
  (render <$> log.1, render <$> log.2).

(** [prevModule?.io.outputs.some(output => output.type === ty)] for
    [prevModule = moduleMap.get(prev.moduleId)] *)
Definition provides (moduleMap : gmap string ModuleDef) (ty : string)
    (prev : WorkflowStep) : bool :=
  match moduleMap !! moduleId prev with
  | None => false
  | Some prevModule =>
      existsb (λ output, bool_decide (type output = ty)) (outputs (io prevModule))
  end.

Definition checkMissingDependencies_step (steps : list WorkflowStep)
    (moduleMap : gmap string ModuleDef) (errors : list Diagnostic)
    (s : WorkflowStep) (index : nat) : list Diagnostic :=
  match moduleMap !! moduleId s with
  | None => errors
  | Some module =>
      foldl (λ errs input,
               if is_required input then
                 (* for (let i = 0; i < index; i++) *)
                 let dataAvailable :=
                   existsb (provides moduleMap (type input)) (take index steps) in
                 if dataAvailable then errs
                 else errs ++ [NoPreviousProvider index (type input) (name module)]
               else errs)
            errors (inputs (io module))
  end.

(** [checkMissingDependencies] before rendering.  The first pass of the
    source fills a set [providedData] that is never read. *)
Definition checkMissingDependencies_log (steps : list WorkflowStep)
    (moduleMap : gmap string ModuleDef) : list Diagnostic :=
  forEach (checkMissingDependencies_step steps moduleMap) steps [].

Definition checkMissingDependencies (steps : list WorkflowStep)
    (moduleMap : gmap string ModuleDef) : list string :=
  render <$> checkMissingDependencies_log steps moduleMap.

Record ModuleConnection := {
  fromModule : string;
  toModule : string;
  dataType : string;
  confidence : Q;
}.

Definition generateSuggestedConnections_step (moduleMap : gmap string ModuleDef)
    (st : list ModuleConnection * gmap string string) (s : WorkflowStep)
    (index : nat) : list ModuleConnection * gmap string string :=
  match moduleMap !! moduleId s with
  | None => st
  | Some module =>
      (foldl (λ suggestions input,
                match st.2 !! type input with
                | Some sourceModule =>
                    suggestions ++
                      [ {| fromModule := sourceModule; toModule := id module;
                           dataType := type input;
                           confidence :=
                             if is_required input then 9 # 10 else 6 # 10 |} ]
                | None => suggestions
                end)
             st.1 (inputs (io module)),
       foldl (λ a output, <[type output := id module]> a) st.2
             (outputs (io module)))
  end.

Definition generateSuggestedConnections (steps : list WorkflowStep)
    (moduleMap : gmap string ModuleDef) : list ModuleConnection :=
  (forEach (generateSuggestedConnections_step moduleMap) steps ([], ∅)).1.

Definition highRiskModules : list string :=
  ["quotation"; "discount-pricing"; "email-interact"].

Definition has_module (m : string) (steps : list WorkflowStep) : bool :=
  existsb (λ s, bool_decide (moduleId s = m)) steps.

(** Adjacent pairs [(categories[i], categories[i + 1])]. *)
Fixpoint adjacent {A : Type} (xs : list A) : list (A * A) :=
  match xs with
  | x :: ((y :: _) as rest) => (x, y) :: adjacent rest
  | _ => []
  end.

(** The double-quote character of the messages below. *)
Definition dq : string := String (Ascii.ascii_of_nat 34) EmptyString.

Definition quoted (s : string) : string := dq +:+ s +:+ dq.

Definition when (c : bool) (message : string) : list string :=
  if c then [message] else [].

Definition nonempty {A : Type} (xs : list A) : bool :=
  match xs with [] => false | _ => true end.

Definition suggestHumanInterventionModules (steps : list WorkflowStep)
    (moduleMap : gmap string ModuleDef) (errors : list string) : list string :=
  let hasHumanDecision := has_module "human-decision" steps in
  let hasManualInput := has_module "human-manual-input" steps in
  let missingDataErrors :=
    filter (λ e, includes e "Missing required input" = true) errors in
  let noDataSourceErrors :=
    filter (λ e, includes e "No previous step provides" = true) errors in
  let hasHighRiskModules :=
    existsb (λ s, bool_decide (moduleId s ∈ highRiskModules)) steps in
  (* module?.category || 'unknown' *)
  let categories := (λ s, category <$> moduleMap !! moduleId s) <$> steps in
  when (nonempty missingDataErrors && negb hasManualInput)
    ("💡 Missing data detected. Add " +:+ quoted "Human Manual Input"
       +:+ " for data entry by team members")
  ++ when (nonempty noDataSourceErrors && negb hasManualInput)
    ("💡 Add " +:+ quoted "Human Manual Input"
       +:+ " to manually enter missing information")
  ++ when (hasHighRiskModules && negb hasHumanDecision)
    ("💡 Financial/communication modules detected. Add "
       +:+ quoted "Human Decision" +:+ " for approval checkpoints")
  ++ when (bool_decide (5 < length steps) && negb hasHumanDecision)
    ("💡 Complex workflow detected. Add " +:+ quoted "Human Decision"
       +:+ " for review and approval gates")
  ++ flat_map
       (λ p, when (bool_decide (p.1 = Some data_collection)
                   && bool_decide (p.2 = Some communication)
                   && negb hasManualInput)
          ("💡 Data gap detected: Add " +:+ quoted "Human Manual Input"
             +:+ " to enrich data between collection and communication"))
       (adjacent categories)
  ++ when (bool_decide (mjoin (last categories) = Some analysis)
           && negb hasHumanDecision)
    ("💡 Analysis endpoint detected. Add " +:+ quoted "Human Decision"
       +:+ " to review insights and approve next actions").

Record WorkflowValidationResult := {
  isValid : bool;
  errors : list string;
  warnings : list string;
  suggestedConnections : list ModuleConnection;
  dependencyGraph : list DependencyNode;
}.

Definition validateWorkflow (steps : list WorkflowStep) (modules : list ModuleDef)
  : WorkflowValidationResult :=
  let moduleMap := build_moduleMap modules in
  let dataFlowValidation := validateDataFlow steps moduleMap in
  let missingDeps := checkMissingDependencies steps moduleMap in
  let all_errors := dataFlowValidation.1 ++ missingDeps in
  let humanInterventionSuggestions :=
    suggestHumanInterventionModules steps moduleMap all_errors in
  {| isValid := bool_decide (length all_errors = 0);
     errors := all_errors;
     warnings := dataFlowValidation.2 ++ humanInterventionSuggestions;
     suggestedConnections := generateSuggestedConnections steps moduleMap;
     dependencyGraph := buildDependencyGraph steps moduleMap |}.

(** *** [autoFixWorkflowWithHumanModules]

    [now k] is the value of the [k]-th call of [Date.now()]. *)

Definition manualInputStep (t : N) : WorkflowStep :=
  {| instanceId := "human-manual-input-" +:+ pretty t;
     moduleId := "human-manual-input";
     config := Obj [ ("inputType", Str "Workflow data entry");
                     ("instruction",
                      Str "Please enter the required data for subsequent workflow steps");
                     ("requiredFields", Str "Data as needed by workflow modules");
                     ("assignee", Str "data-entry@company.com") ];
     llm := None;
     dependsOn := None |}.

Definition decisionStep (t : N) (i : nat) (moduleName : string) : WorkflowStep :=
  {| instanceId := "human-decision-" +:+ pretty t +:+ "-" +:+ pretty i;
     moduleId := "human-decision";
     config := Obj [ ("approver", Str "manager@company.com");
                     ("instruction",
                      Str ("Please review and approve " +:+ moduleName
                             +:+ " before execution"));
                     ("decisionType", Str "Approval") ];
     llm := None;
     dependsOn := None |}.

Definition finalDecisionStep (t : N) : WorkflowStep :=
  {| instanceId := "human-decision-final-" +:+ pretty t;
     moduleId := "human-decision";
     config := Obj [ ("approver", Str "manager@company.com");
                     ("instruction",
                      Str "Please review analysis results and decide on next actions");
                     ("decisionType", Str "Strategic Decision") ];
     llm := None;
     dependsOn := None |}.

(** [moduleMap.get(m)?.name || 'this operation'] *)
Definition name_or_this_operation (moduleMap : gmap string ModuleDef)
    (m : string) : string :=
  match moduleMap !! m with
  | Some module =>
      if String.eqb (name module) EmptyString then "this operation"
      else name module
  | None => "this operation"
  end.

(** The [for (let i = 0; i < fixedSteps.length; i++)] loop with its cursor
    made explicit: [fixedSteps = done ++ todo] and [i = length done]. *)
Fixpoint approval_loop (now : nat → N) (moduleMap : gmap string ModuleDef)
    (done todo : list WorkflowStep) (changes : list string) (ticks : nat)
  : list WorkflowStep * list string * nat :=
  match todo with
  | [] => (done, changes, ticks)
  | cur :: rest =>
      if bool_decide (moduleId cur ∈ highRiskModules) then
        (* i > 0 && fixedSteps[i - 1].moduleId === 'human-decision' *)
        let hasDecisionBefore :=
          match last done with
          | Some prev => bool_decide (moduleId prev = "human-decision")
          | None => false
          end in
        if hasDecisionBefore
        then approval_loop now moduleMap (done ++ [cur]) rest changes ticks
        else
          let moduleName := name_or_this_operation moduleMap (moduleId cur) in
          (* fixedSteps.splice(i, 0, decisionStep); i++ *)
          approval_loop now moduleMap
            (done ++ [decisionStep (now ticks) (length done) moduleName; cur])
            rest
            (changes ++ ["Added " +:+ quoted "Human Decision"
                           +:+ " approval checkpoint before " +:+ moduleName])
            (S ticks)
      else approval_loop now moduleMap (done ++ [cur]) rest changes ticks
  end.

Definition matches_missing_data (e : string) : bool :=
  includes e "Missing required input" || includes e "No previous step provides".

Definition autoFixWorkflowWithHumanModules (now : nat → N)
    (steps : list WorkflowStep) (modules : list ModuleDef)
  : completion (list WorkflowStep * list string) :=
  let moduleMap := build_moduleMap modules in
  let validation := validateWorkflow steps modules in
  if isValid validation then Normal (steps, [])
  else
    let missingDataErrors :=
      filter (λ e, matches_missing_data e = true) (errors validation) in
    let st1 :=
      if nonempty missingDataErrors
      then (manualInputStep (now 0) :: steps,
            ["Added " +:+ quoted "Human Manual Input"
               +:+ " for data entry by team members"], 1)
      else (steps, [], 0) in
    let st2 := approval_loop now moduleMap [] st1.1.1 st1.1.2 st1.2 in
    match last st2.1.1 with
    | None => Throw "Cannot read properties of undefined (reading 'moduleId')"
    | Some lastStep =>
        if bool_decide (category <$> moduleMap !! moduleId lastStep = Some analysis)
           && negb (bool_decide (moduleId lastStep = "human-decision"))
        then Normal (st2.1.1 ++ [finalDecisionStep (now st2.2)],
                     st2.1.2 ++ ["Added final " +:+ quoted "Human Decision"
                                   +:+ " to review analysis and approve next actions"])
        else Normal (st2.1.1, st2.1.2)
    end.

(** ** Vocabulary of the statements *)

Definition node_id (n : ExecutionNode) : string := instanceId (step n).

Definition ids (l : list ExecutionNode) : list string := node_id <$> l.

(** [a] depends on [b]: a step named [a] lists [b] in its [dependsOn]. *)
Definition depends_on (steps : list WorkflowStep) (a b : string) : Prop :=
  ∃ s, s ∈ steps ∧ instanceId s = a ∧ b ∈ deps s.

(** The [dependsOn] relation of a step list contains a cycle. *)
Definition has_cycle (steps : list WorkflowStep) : Prop :=
  ∃ a, tc (depends_on steps) a a.

(** Instance ids are unique (the data model's invariant on steps). *)
Definition unique_ids (steps : list WorkflowStep) : Prop :=
  NoDup (instanceId <$> steps).

(** Every [dependsOn] entry names a step of the list. *)
Definition closed_deps (steps : list WorkflowStep) : Prop :=
  ∀ s d, s ∈ steps → d ∈ deps s → d ∈ instanceId <$> steps.

(** The same relation read off the node map (the last step of each id). *)
Definition node_depends_on (steps : list WorkflowStep) (a b : string) : Prop :=
  ∃ n, nodes (new_graph steps) !! a = Some n ∧ b ∈ deps (step n).

(** What [executeStep] leaves in a node for a given outcome of its step. *)
Definition holds_outcome (o : outcome) (n : ExecutionNode) : Prop :=
  match o with
  | Resolved r => status n = Completed ∧ result n = r
  | Rejected m =>
      status n = Failed ∧ result n = error_record m ∧ error n = Some m
  end.

Definition apply_outcome (o : outcome) (n : ExecutionNode) : ExecutionNode :=
  match o with
  | Resolved r => store_result r n
  | Rejected m => store_failure m n
  end.

Section Invariant.

Variable modules : list ModuleDef.
Variable moduleExecutors :
  string → option (value → value → option string → outcome).
Variable executedAt : WorkflowStep → string.
Variable beyond_model : WorkflowStep → outcome.

(** The state of the graph at the head of the [while] loop of [execute]. *)
Record graph_inv (steps : list WorkflowStep) (g : ExecutionGraph) : Prop := {
  inv_order : nodes_order g = nodes_order (new_graph steps);
  inv_steps : ∀ k,
    step <$> nodes g !! k = step <$> nodes (new_graph steps) !! k;
  inv_running : running g = ∅;
  inv_pending : ∀ k n,
    nodes g !! k = Some n → k ∉ completed g → n = pending_node (step n);
  inv_settled : ∀ k n,
    nodes g !! k = Some n → k ∈ completed g →
    holds_outcome
      (step_outcome modules moduleExecutors executedAt beyond_model g (step n)) n;
  inv_completed : ∀ k, k ∈ completed g → is_Some (nodes g !! k);
  inv_deps : ∀ k n d,
    nodes g !! k = Some n → k ∈ completed g → d ∈ deps (step n) →
    d ∈ completed g;
  inv_acyclic : ∀ k, k ∈ completed g → ¬ tc (node_depends_on steps) k k;
}.

End Invariant.

(** *** Data flow, stated on the step list *)

(** Some step of [pre] has a known module with an output of type [ty]. *)
Definition available (moduleMap : gmap string ModuleDef)
    (pre : list WorkflowStep) (ty : string) : bool :=
  existsb (provides moduleMap ty) pre.

(** The errors of the step at [index], given the steps [pre] before it. *)
Definition step_errors (moduleMap : gmap string ModuleDef)
    (pre : list WorkflowStep) (index : nat) (s : WorkflowStep)
  : list Diagnostic :=
  match moduleMap !! moduleId s with
  | None => [ModuleNotFound index (moduleId s)]
  | Some module =>
      flat_map (λ input,
                  if is_required input
                     && negb (available moduleMap pre (type input))
                  then [MissingRequiredInput index (type input) (name module)]
                  else [])
               (inputs (io module))
  end.

(** The warnings of the step at [index], given the steps [pre] before it. *)
Definition step_warnings (moduleMap : gmap string ModuleDef)
    (pre : list WorkflowStep) (index : nat) (s : WorkflowStep)
  : list Diagnostic :=
  match moduleMap !! moduleId s with
  | None => []
  | Some module =>
      flat_map (λ input,
                  if negb (is_required input)
                     && negb (available moduleMap pre (type input))
                  then [OptionalInputUnavailable index (type input) (name module)]
                  else [])
               (inputs (io module))
  end.

(** What [checkMissingDependencies] reports for the step at [index]. *)
Definition step_missing (moduleMap : gmap string ModuleDef)
    (pre : list WorkflowStep) (index : nat) (s : WorkflowStep)
  : list Diagnostic :=
  match moduleMap !! moduleId s with
  | None => []
  | Some module =>
      flat_map (λ input,
                  if is_required input
                     && negb (available moduleMap pre (type input))
                  then [NoPreviousProvider index (type input) (name module)]
                  else [])
               (inputs (io module))
  end.

(** [concat (imap f steps)] with [f] told the steps before the index. *)
Definition per_step {B : Type}
    (f : list WorkflowStep → nat → WorkflowStep → list B)
    (steps : list WorkflowStep) : list B :=
  concat (imap (λ i s, f (take i steps) i s) steps).

(** The (step index, required input dataType) pairs a diagnostic list
    flags. *)
Definition flagged (ds : list Diagnostic) : list (nat * string) :=
  omap (λ d, match d with
             | MissingRequiredInput i ty _ | NoPreviousProvider i ty _ =>
                 Some (i, ty)
             | _ => None
             end) ds.

(** The indices of the steps of [pre] that provide [ty], ascending. *)
Definition providers (moduleMap : gmap string ModuleDef)
    (pre : list WorkflowStep) (ty : string) : list nat :=
  filter (λ j, from_option (provides moduleMap ty) false (pre !! j) = true)
         (seq 0 (length pre)).

Definition latest_provider (moduleMap : gmap string ModuleDef)
    (pre : list WorkflowStep) (ty : string) : option nat :=
  last (providers moduleMap pre ty).

Definition earliest_provider (moduleMap : gmap string ModuleDef)
    (pre : list WorkflowStep) (ty : string) : option nat :=
  head (providers moduleMap pre ty).

(** One line of a dependency entry, for an input, given which earlier step
    is named as its provider. *)
Definition dependency_line (provider : option nat) (input : DataType)
  : list string :=
  match provider with
  | Some j => [type input +:+ " from step " +:+ pretty j]
  | None =>
      if is_required input then ["Missing required input: " +:+ type input]
      else []
  end.

(** The entry of the step at [index], naming for each input the provider
    chosen by [choose] among the steps [pre] before it. *)
Definition dependency_node
    (choose : list WorkflowStep → string → option nat)
    (moduleMap : gmap string ModuleDef)
    (pre : list WorkflowStep) (index : nat) (s : WorkflowStep)
  : list DependencyNode :=
  match moduleMap !! moduleId s with
  | None => []
  | Some module =>
      [ {| dn_moduleId := moduleId s; dn_level := index;
           dn_dependencies :=
             flat_map (λ input, dependency_line (choose pre (type input)) input)
                      (inputs (io module));
           dn_outputs := outputs (io module) |} ]
  end.

(** The dependency graph in the spec's words: the provider of an input is
    the earliest prior step whose outputs include its type. *)
Definition dependencyGraph_earliest (steps : list WorkflowStep)
    (moduleMap : gmap string ModuleDef) : list DependencyNode :=
  per_step (dependency_node (earliest_provider moduleMap) moduleMap) steps.

Definition is_manual_input (s : WorkflowStep) : bool :=
  bool_decide (moduleId s = "human-manual-input").

(** How many steps of a list are manual-input steps. *)
Definition manual_inputs (steps : list WorkflowStep) : nat :=
  length (filter (λ s, is_manual_input s = true) steps).

(** *** Layered topological sort, stated on the step list *)

(** The [dependsOn] of the step named [k]. *)
Definition deps_of (steps : list WorkflowStep) (k : string) : list string :=
  from_option deps [] (List.find (λ s, bool_decide (instanceId s = k)) steps).

(** The dependencies of [k] that are not placed yet. *)
Definition unplaced_deps (steps : list WorkflowStep) (placed : list string)
    (k : string) : list string :=
  filter (λ d, d ∉ placed) (deps_of steps k).

(** The remaining ids all of whose dependencies are already placed. *)
Definition level_of (steps : list WorkflowStep) (placed remaining : list string)
  : list string :=
  filter (λ k, forallb (λ d, bool_decide (d ∈ placed)) (deps_of steps k) = true)
         remaining.

(** Levels are peeled off until none is left or none can be formed; [n]
    bounds the number of levels. *)
Fixpoint layered (n : nat) (steps : list WorkflowStep)
    (placed remaining : list string) : list (list string) :=
  match n with
  | 0 => []
  | S n' =>
      match level_of steps placed remaining with
      | [] => []
      | level =>
          level :: layered n' steps (placed ++ level)
                     (filter (λ k, k ∉ level) remaining)
      end
  end.

Definition layered_levels (steps : list WorkflowStep) : list (list string) :=
  layered (length steps) steps [] (instanceId <$> steps).

(** A pure chain: the first step depends on [prev] (on nothing when there
    is none), every other step on the one before it. *)
Fixpoint is_chain (prev : option string) (steps : list WorkflowStep) : Prop :=
  match steps with
  | [] => True
  | s :: rest =>
      deps s = from_option (λ p, [p]) [] prev
      ∧ is_chain (Some (instanceId s)) rest
  end.

(** ** Concrete workflows used by the witnesses *)

Module Examples.

Definition plain (i m : string) (d : option (list string)) : WorkflowStep :=
  {| instanceId := i; moduleId := m; config := Obj [];
     llm := None; dependsOn := d |}.

Definition store : list ModuleDef :=
  (λ i, {| id := i; name := i; io := {| inputs := []; outputs := [] |};
           category := processing |})
    <$> ["echo"; "nothing"; "boom"; "simulated"].

(** [echo] returns its input wrapped in a record, [nothing] resolves to
    [null], [boom] throws. *)
Definition executors (i : string)
  : option (value → value → option string → outcome) :=
  if decide (i = "echo") then Some (λ _ prev _, Resolved (Obj [("input", prev)]))
  else if decide (i = "nothing") then Some (λ _ _ _, Resolved Null)
  else if decide (i = "boom") then Some (λ _ _ _, Rejected "boom failed")
  else None.

Definition clock (_ : WorkflowStep) : string := "2024-01-01T00:00:00.000Z".

Definition no_exotic (_ : WorkflowStep) : outcome :=
  Rejected "outside the model".

Definition run : list WorkflowStep → execution :=
  execute store executors clock no_exotic.

(** [X] and [Y] wait for each other. *)
Definition mutual : list WorkflowStep :=
  [plain "X" "echo" (Some ["Y"]); plain "Y" "echo" (Some ["X"])].

(** [A] waits for a step that is not in the list. *)
Definition dangling : list WorkflowStep :=
  [plain "A" "echo" (Some ["ghost"])].

(** Two sources and a join. *)
Definition diamond : list WorkflowStep :=
  [plain "A" "echo" None; plain "B" "echo" None;
   plain "C" "echo" (Some ["A"; "B"])].

(** [A] resolves to [null]; [B] waits for it. *)
Definition silent : list WorkflowStep :=
  [plain "A" "nothing" None; plain "B" "echo" (Some ["A"])].

(** The module of [A] is not in the store; [B] waits for [A]. *)
Definition failing : list WorkflowStep :=
  [plain "A" "missing" None; plain "B" "echo" (Some ["A"])].

Definition dt (ty : string) (req : option bool) : DataType :=
  {| type := ty; required := req |}.

(** A module catalog: the scraper as the source declares it, and three
    consumers. *)
Definition catalog : list ModuleDef :=
  [ {| id := "ecommerce-scraper"; name := "E-commerce Scrapper";
       io := {| inputs := []; outputs := [dt "products" (Some true)] |};
       category := data_collection |};
    {| id := "product-info"; name := "Product Information";
       io := {| inputs := [dt "products" (Some true)];
                outputs := [dt "products" None] |};
       category := processing |};
    {| id := "quotation"; name := "New and Revised Quotation";
       io := {| inputs := [dt "products" (Some true); dt "customers" None];
                outputs := [dt "quotes" None] |};
       category := communication |};
    {| id := "sales-analysis"; name := "Sales Analysis";
       io := {| inputs := [dt "quotes" (Some true)];
                outputs := [dt "analytics" None] |};
       category := analysis |} ].

(** A quotation with nothing before it. *)
Definition quote_only : list WorkflowStep := [plain "q" "quotation" None].

(** Two producers of [products] before a consumer. *)
Definition shadowed : list WorkflowStep :=
  [plain "s" "ecommerce-scraper" None; plain "p" "product-info" None;
   plain "q" "quotation" None].

(** A step whose module is not in the catalog. *)
Definition unknown : list WorkflowStep := [plain "u" "no-such-module" None].

(** A graph in which the steps named in [rs] have completed with the
    given results. *)
Definition settled (rs : list (string * value)) : ExecutionGraph :=
  foldl (λ g kr,
           mark_done kr.1
             (nodes_set kr.1
                (store_result kr.2 (pending_node (plain kr.1 "echo" None))) g))
        empty_graph rs.

(** A step that merges the results of [A] and [B]. *)
Definition join : WorkflowStep := plain "C" "echo" (Some ["A"; "B"]).

(** A chain of three steps. *)
Definition chain3 : list WorkflowStep :=
  [plain "A" "echo" None; plain "B" "echo" (Some ["A"]);
   plain "C" "echo" (Some ["B"])].

(** Three independent steps. *)
Definition independent3 : list WorkflowStep :=
  [plain "A" "echo" None; plain "B" "echo" None; plain "C" "echo" None].

(** Every [Date.now()] reads the same millisecond. *)
Definition frozen (_ : nat) : N := 1700000000000%N.

End Examples.


(** ** Further functions of the engine *)

(** *** The batches of [execute] *)

Section ExecutionLog.

Variable modules : list ModuleDef.
Variable moduleExecutors :
  string → option (value → value → option string → outcome).
Variable executedAt : WorkflowStep → string.
Variable beyond_model : WorkflowStep → outcome.

(** The id lists that the [while] loop of [execute] passes to
    [console.log(`Executing ... steps in parallel:`, ...)], one per
    iteration that finds ready steps. *)
Fixpoint execute_batches (fuel : nat) (total : nat) (g : ExecutionGraph)
  : list (list string) :=
  match fuel with
  | 0 => []
  | S fuel' =>
      if decide (size (completed g) < total) then
        match getReadySteps g with
        | [] =>
            if decide (size (running g) = 0) then []
            else execute_batches fuel' total g
        | readySteps =>
            ids readySteps
            :: execute_batches fuel' total
                 (run_batch modules moduleExecutors executedAt beyond_model
                    g readySteps)
        end
      else []
  end.

Definition logged_batches (steps : list WorkflowStep) : list (list string) :=
  execute_batches (S (length steps)) (length steps) (new_graph steps).

End ExecutionLog.

(** *** [gatherInputs], field by field *)

(** [r[key]] when [key] is among [Object.keys(r)]. *)
Definition field_of (r : value) (key : string) : option value :=
  snd <$> List.find (λ kv, bool_decide (kv.1 = key)) (own_entries r).

(** The values found under [key] in the truthy results of the dependencies
    [ds], in dependency order. *)
Definition field_values (g : ExecutionGraph) (ds : list string) (key : string)
  : list value :=
  omap (λ d, let r := dep_result g d in
             if truthy r then field_of r key else None) ds.

(** What one more value [v] found under a key does to the value [cur] that
    [mergedInput] holds under it. *)
Definition slot_after (cur v : value) : value :=
  match v with
  | Arr items =>
      match (if truthy cur then cur else Arr []) with
      | Arr xs => Arr (xs ++ items)
      | _ => cur
      end
  | Obj props =>
      match (if truthy cur then cur else Obj []) with
      | Obj o => Obj (assign o props)
      | _ => cur
      end
  | _ => match cur with Undefined => v | _ => cur end
  end.

Definition is_array (v : value) : Prop :=
  match v with Arr _ => True | _ => False end.

Definition is_object (v : value) : Prop :=
  match v with Obj _ => True | _ => False end.

Definition is_scalar (v : value) : Prop :=
  match v with Arr _ | Obj _ => False | _ => True end.

Definition is_undefined (v : value) : bool :=
  match v with Undefined => true | _ => false end.

Definition items_of (v : value) : list value :=
  match v with Arr items => items | _ => [] end.

Definition props_of (v : value) : list (string * value) :=
  match v with Obj props => props | _ => [] end.

(** The value of field [f] in the last of the objects [objs] that has it. *)
Definition last_field (objs : list value) (f : string) : value :=
  foldl (λ acc o, if decide (f ∈ keys_of (props_of o)) then get (props_of o) f
                  else acc)
        Undefined objs.

(** *** [suggestOptimalOrder] *)

(** The six arrays of [categories]. *)
Record Buckets := {
  b_data_collection : list string;
  b_processing : list string;
  b_communication : list string;
  b_analysis : list string;
  b_decision : list string;
  b_integration : list string;
}.

Definition empty_buckets : Buckets :=
  {| b_data_collection := []; b_processing := []; b_communication := [];
     b_analysis := []; b_decision := []; b_integration := [] |}.

(** [categories[c].push(i)] *)
Definition bucket_push (c : Category) (i : string) (b : Buckets) : Buckets :=
  match c with
  | data_collection =>
      {| b_data_collection := b_data_collection b ++ [i];
         b_processing := b_processing b; b_communication := b_communication b;
         b_analysis := b_analysis b; b_decision := b_decision b;
         b_integration := b_integration b |}
  | processing =>
      {| b_data_collection := b_data_collection b;
         b_processing := b_processing b ++ [i];
         b_communication := b_communication b;
         b_analysis := b_analysis b; b_decision := b_decision b;
         b_integration := b_integration b |}
  | communication =>
      {| b_data_collection := b_data_collection b;
         b_processing := b_processing b;
         b_communication := b_communication b ++ [i];
         b_analysis := b_analysis b; b_decision := b_decision b;
         b_integration := b_integration b |}
  | analysis =>
      {| b_data_collection := b_data_collection b;
         b_processing := b_processing b; b_communication := b_communication b;
         b_analysis := b_analysis b ++ [i]; b_decision := b_decision b;
         b_integration := b_integration b |}
  | decision =>
      {| b_data_collection := b_data_collection b;
         b_processing := b_processing b; b_communication := b_communication b;
         b_analysis := b_analysis b; b_decision := b_decision b ++ [i];
         b_integration := b_integration b |}
  | integration =>
      {| b_data_collection := b_data_collection b;
         b_processing := b_processing b; b_communication := b_communication b;
         b_analysis := b_analysis b; b_decision := b_decision b;
         b_integration := b_integration b ++ [i] |}
  end.

Definition reasoning : list string :=
  [ "Data collection modules should run first to gather raw data";
    "Processing modules standardize and prepare the data";
    "Communication modules interact with customers using processed data";
    "Decision modules handle approvals and manual interventions";
    "Analysis modules generate insights from the completed interactions";
    "Integration modules sync data with other systems" ].

(** [suggestOptimalOrder(moduleIds, modules)]: [(order, reasoning)] *)
Definition suggestOptimalOrder (moduleIds : list string)
    (modules : list ModuleDef) : list string * list string :=
  let moduleMap := build_moduleMap modules in
  let categories :=
    foldl (λ b i, match moduleMap !! i with
                  | Some module => bucket_push (category module) i b
                  | None => b
                  end)
          empty_buckets moduleIds in
  (b_data_collection categories ++ b_processing categories
     ++ b_communication categories ++ b_decision categories
     ++ b_analysis categories ++ b_integration categories,
   reasoning).

(** The position of a category in the suggested order. *)
Definition stage (c : Category) : nat :=
  match c with
  | data_collection => 0
  | processing => 1
  | communication => 2
  | decision => 3
  | analysis => 4
  | integration => 5
  end.

(** The stage of a module id that the catalog knows. *)
Definition stage_of (moduleMap : gmap string ModuleDef) (i : string)
  : option nat :=
  (λ m, stage (category m)) <$> moduleMap !! i.

(** The array of [categories] that holds the ids of category [c]. *)
Definition bucket (c : Category) (b : Buckets) : list string :=
  match c with
  | data_collection => b_data_collection b
  | processing => b_processing b
  | communication => b_communication b
  | analysis => b_analysis b
  | decision => b_decision b
  | integration => b_integration b
  end.

(** The categories in the order in which [optimalOrder] spreads them. *)
Definition stages : list Category :=
  [data_collection; processing; communication; decision; analysis; integration].

(** The ids of [moduleIds] that the catalog files under category [c]. *)
Definition of_category (moduleMap : gmap string ModuleDef) (c : Category)
    (moduleIds : list string) : list string :=
  filter (λ i, category <$> moduleMap !! i = Some c) moduleIds.

(** The ids of [moduleIds] that the catalog knows. *)
Definition known_ids (moduleMap : gmap string ModuleDef)
    (moduleIds : list string) : list string :=
  filter (λ i, is_Some (moduleMap !! i)) moduleIds.

(** [a] is not placed after [b] by its stage. *)
Definition stage_le (moduleMap : gmap string ModuleDef) (a b : string) : Prop :=
  default 0 (stage_of moduleMap a) ≤ default 0 (stage_of moduleMap b).

(** *** Suggested connections and diagnostics, stated on the step list *)

(** The module id recorded as the source of [ty] after the steps [pre]:
    the module of the latest step of [pre] that provides it. *)
Definition source_of (moduleMap : gmap string ModuleDef)
    (pre : list WorkflowStep) (ty : string) : option string :=
  j ← latest_provider moduleMap pre ty;
  p ← pre !! j;
  id <$> moduleMap !! moduleId p.

(** The connections suggested for the step at [index], given the steps
    [pre] before it. *)
Definition step_connections (moduleMap : gmap string ModuleDef)
    (pre : list WorkflowStep) (index : nat) (s : WorkflowStep)
  : list ModuleConnection :=
  match moduleMap !! moduleId s with
  | None => []
  | Some module =>
      flat_map (λ input,
                  match source_of moduleMap pre (type input) with
                  | Some sourceModule =>
                      [ {| fromModule := sourceModule; toModule := id module;
                           dataType := type input;
                           confidence :=
                             if is_required input then 9 # 10 else 6 # 10 |} ]
                  | None => []
                  end)
               (inputs (io module))
  end.

(** What a step contributes to the diagnostics: one entry per declared
    input of its module, or one entry when the module is unknown. *)
Definition entries_due (moduleMap : gmap string ModuleDef) (s : WorkflowStep)
  : nat :=
  match moduleMap !! moduleId s with
  | Some module => length (inputs (io module))
  | None => 1
  end.

(** The steps whose module the catalog does not know. *)
Definition unknown_steps (moduleMap : gmap string ModuleDef)
    (steps : list WorkflowStep) : list WorkflowStep :=
  filter (λ s, moduleMap !! moduleId s = None) steps.

(** Every step of a list that runs a high-risk module comes right after a
    [human-decision] step. *)
Definition guarded (l : list WorkflowStep) : Prop :=
  ∀ i s, l !! i = Some s → moduleId s ∈ highRiskModules →
         ∃ j p, i = S j ∧ l !! j = Some p ∧ moduleId p = "human-decision".

(** [l2] is [l1] with steps that satisfy [P] inserted. *)
Inductive padded (P : WorkflowStep → Prop)
  : list WorkflowStep → list WorkflowStep → Prop :=
| padded_nil : padded P [] []
| padded_keep x l1 l2 : padded P l1 l2 → padded P (x :: l1) (x :: l2)
| padded_insert x l1 l2 : P x → padded P l1 l2 → padded P l1 (x :: l2).

(** A step of one of the two human intervention modules. *)
Definition is_human (s : WorkflowStep) : Prop :=
  moduleId s = "human-manual-input" ∨ moduleId s = "human-decision".

(** The catalog declares [ty] as an output of module [m]. *)
Definition declares_output (moduleMap : gmap string ModuleDef) (m ty : string)
  : bool :=
  match moduleMap !! m with
  | Some module =>
      existsb (λ output, bool_decide (type output = ty)) (outputs (io module))
  | None => false
  end.

(** ** The server: storage and routes

    The storage classes keep three JSON files; the routes of
    [src/server/routes/workflows.ts] and [src/server/routes/executions.ts]
    read and write them.  A file that is missing or does not parse reads as
    the default value; writes are taken to succeed.  What is stored comes
    from JSON request bodies, so it reads back as it was written, with the
    keys gone whose value was [undefined].  Requests are handled one at a
    time. *)

(** What a request reads from outside: the [k]-th reading of the clock, in
    milliseconds, its rendering by [toISOString], and the [k]-th identifier
    that [uuidv4()] returns. *)
Record Env := {
  clock : nat → N;
  toISOString : N → string;
  uuidv4 : nat → string;
}.

(** [interface Workflow]; [name], [description] and [steps] are missing
    from a stored workflow after an update that set them to [undefined]. *)
Record Workflow := {
  wf_id : string;
  wf_name : option string;
  wf_description : option string;
  wf_steps : option (list WorkflowStep);
  wf_createdAt : string;
  wf_updatedAt : string;
}.

(** [Omit<Workflow, 'id' | 'createdAt' | 'updatedAt'>] *)
Record WorkflowFields := {
  f_name : option string;
  f_description : option string;
  f_steps : option (list WorkflowStep);
}.

(** [Partial<Omit<Workflow, 'id' | 'createdAt'>>]: a key is absent
    ([None]), or present with a value that may be [undefined]. *)
Record WorkflowUpdates := {
  u_name : option (option string);
  u_description : option (option string);
  u_steps : option (option (list WorkflowStep));
}.

(** [interface WorkflowExecution]; [results] maps step indices to results
    and reads [undefined] where it has no entry. *)
Record WorkflowExecution := {
  ex_id : string;
  ex_workflowId : string;
  ex_status : Status;
  ex_currentStepIndex : nat;
  ex_results : gmap nat value;
  ex_startedAt : string;
  ex_completedAt : option string;
}.

(** The three files; [None] is a file that is missing or does not parse. *)
Record Files := {
  workflows_json : option (list Workflow);
  executions_json : option (list WorkflowExecution);
  modules_json : option (list ModuleDef);
}.

Record World := {
  files : Files;
  clock_reads : nat;
  uuids_drawn : nat;
}.

(** Computations that read and change the world. *)
Definition M (A : Type) : Type := World → A * World.

Definition pure {A} (a : A) : M A := λ w, (a, w).

Definition and_then {A B} (m : M A) (k : A → M B) : M B :=
  λ w, let '(a, w') := m w in k a w'.

Notation "'let*' x ':=' m 'in' k" := (and_then m (λ x, k))
  (at level 10, x name, m at level 100, k at level 200, only parsing).

(** [Date.now()] *)
Definition date_now (env : Env) : M N :=
  λ w, (clock env (clock_reads w),
        {| files := files w; clock_reads := S (clock_reads w);
           uuids_drawn := uuids_drawn w |}).

(** [new Date().toISOString()] *)
Definition new_date_iso (env : Env) : M string :=
  let* t := date_now env in pure (toISOString env t).

(** [uuidv4()] *)
Definition draw_uuid (env : Env) : M string :=
  λ w, (uuidv4 env (uuids_drawn w),
        {| files := files w; clock_reads := clock_reads w;
           uuids_drawn := S (uuids_drawn w) |}).

(** [readJsonFile(file, defaultValue)] *)
Definition readJsonFile {T} (file : Files → option T) (defaultValue : T) : M T :=
  λ w, (default defaultValue (file (files w)), w).

Definition set_files (f : Files) : M unit :=
  λ w, (tt, {| files := f; clock_reads := clock_reads w;
               uuids_drawn := uuids_drawn w |}).

Module WorkflowStorage.

(** [writeJsonFile(WORKFLOWS_FILE, data)] *)
Definition write (data : list Workflow) : M unit :=
  λ w, set_files {| workflows_json := Some data;
                    executions_json := executions_json (files w);
                    modules_json := modules_json (files w) |} w.

Definition getAll : M (list Workflow) := readJsonFile workflows_json [].

(** [workflows.find(w => w.id === id) || null] *)
Definition getById (id : string) : M (option Workflow) :=
  let* workflows := getAll in
  pure (snd <$> list_find (λ w, wf_id w = id) workflows).

Definition create (env : Env) (workflow : WorkflowFields) : M Workflow :=
  let* workflows := getAll in
  let* t := date_now env in
  let* createdAt := new_date_iso env in
  let* updatedAt := new_date_iso env in
  let newWorkflow :=
    {| wf_id := pretty t;
       wf_name := f_name workflow;
       wf_description := f_description workflow;
       wf_steps := f_steps workflow;
       wf_createdAt := createdAt;
       wf_updatedAt := updatedAt |} in
  let* _ := write (workflows ++ [newWorkflow]) in
  pure newWorkflow.

(** [{ ...workflow, ...updates, updatedAt }] *)
Definition merge (workflow : Workflow) (updates : WorkflowUpdates)
    (updatedAt : string) : Workflow :=
  {| wf_id := wf_id workflow;
     wf_name := default (wf_name workflow) (u_name updates);
     wf_description := default (wf_description workflow) (u_description updates);
     wf_steps := default (wf_steps workflow) (u_steps updates);
     wf_createdAt := wf_createdAt workflow;
     wf_updatedAt := updatedAt |}.

Definition update (env : Env) (id : string) (updates : WorkflowUpdates)
  : M (option Workflow) :=
  let* workflows := getAll in
  match list_find (λ w, wf_id w = id) workflows with
  | None => pure None
  | Some (index, workflow) =>
      let* updatedAt := new_date_iso env in
      let updated := merge workflow updates updatedAt in
      let* _ := write (<[index := updated]> workflows) in
      pure (Some updated)
  end.

(** [delete(id)] *)
Definition delete (id : string) : M bool :=
  let* workflows := getAll in
  match list_find (λ w, wf_id w = id) workflows with
  | None => pure false
  | Some (index, _) =>
      (* workflows.splice(index, 1) *)
      let* _ := write (base.delete index workflows) in
      pure true
  end.

End WorkflowStorage.

Module ModuleStorage.

Definition getAll : M (list ModuleDef) := readJsonFile modules_json [].

End ModuleStorage.

(** *** The workflow routes *)

(** A step as a request body gives it; what the routes do not read
    ([dependsOn] among it) is kept to show that it is not read. *)
Record StepInput := {
  i_instanceId : option string;
  i_moduleId : string;
  i_config : option value;
  i_llm : option string;
  i_dependsOn : option (list string);
}.

(** The body of [POST /] and [PUT /:id]. *)
Record WorkflowBody := {
  b_name : option string;
  b_description : option string;
  b_steps : option (list StepInput);
}.

(** [{ instanceId: step.instanceId || uuidv4(), moduleId: step.moduleId,
       config: step.config || {}, llm: step.llm }] *)
Definition process_step (env : Env) (step : StepInput) : M WorkflowStep :=
  let* instanceId :=
    match i_instanceId step with
    | Some i => if String.eqb i EmptyString then draw_uuid env else pure i
    | None => draw_uuid env
    end in
  pure {| instanceId := instanceId;
          moduleId := i_moduleId step;
          config := match i_config step with
                    | Some c => or_else c (Obj [])
                    | None => Obj []
                    end;
          llm := i_llm step;
          dependsOn := None |}.

(** [steps.map(step => ...)] *)
Fixpoint process_steps (env : Env) (steps : list StepInput)
  : M (list WorkflowStep) :=
  match steps with
  | [] => pure []
  | step :: rest =>
      let* s := process_step env step in
      let* others := process_steps env rest in
      pure (s :: others)
  end.

(** *** The data-flow analysis of the inspector routes
    ([src/server/routes/inspector.ts]) *)

(** An entry of [stepFlow.inputs]. *)
Record InputFlow := {
  in_type : string;
  in_required : option bool;
  in_available : bool;
}.

Record StepFlow := {
  stepIndex : nat;
  moduleName : string;
  flow_inputs : list InputFlow;
  flow_outputs : list string;
}.

(** A bottleneck before it is rendered: the zero-based index of the step,
    the name of its module and [missingRequired]. *)
Record Bottleneck := {
  bn_index : nat;
  bn_module : string;
  bn_missing : list string;
}.

(** [`Step ${index + 1} (${module.name}): Missing required data -
      ${missingRequired.join(', ')}`] *)
Definition render_bottleneck (b : Bottleneck) : string :=
  "Step " +:+ pretty (bn_index b + 1) +:+ " (" +:+ bn_module b
    +:+ "): Missing required data - " +:+ String.concat ", " (bn_missing b).

Definition render_suggestion (index : nat) (moduleName : string) : string :=
  "Step " +:+ pretty (index + 1) +:+ " (" +:+ moduleName
    +:+ "): Consider moving earlier in workflow as it doesn't depend on other modules".

(** [dataFlowAnalysis], with its bottlenecks not yet rendered, and
    [availableData]. *)
Record DataFlow := {
  df_flow : list StepFlow;
  df_bottlenecks : list Bottleneck;
  df_suggestions : list string;
  df_available : gset string;
}.

(** [missingRequired] *)
Definition missing_required (availableData : gset string) (module : ModuleDef)
  : list string :=
  type <$> List.filter (λ input, is_required input
                                 && bool_decide (type input ∉ availableData))
                       (inputs (io module)).

(** The callback of [steps.forEach] in [POST /data-flow]. *)
Definition data_flow_step (moduleMap : gmap string ModuleDef) (st : DataFlow)
    (s : WorkflowStep) (index : nat) : DataFlow :=
  match moduleMap !! moduleId s with
  | None => st
  | Some module =>
      let availableData := df_available st in
      let stepFlow :=
        {| stepIndex := index;
           moduleName := name module;
           flow_inputs :=
             (λ input, {| in_type := type input;
                          in_required := required input;
                          in_available :=
                            bool_decide (type input ∈ availableData) |})
               <$> inputs (io module);
           flow_outputs := type <$> outputs (io module) |} in
      let missingRequired := missing_required availableData module in
      {| df_flow := df_flow st ++ [stepFlow];
         df_bottlenecks :=
           if bool_decide (0 < length missingRequired)
           then df_bottlenecks st
                  ++ [ {| bn_index := index; bn_module := name module;
                          bn_missing := missingRequired |} ]
           else df_bottlenecks st;
         df_suggestions :=
           if bool_decide (0 < index)
              && bool_decide (length (inputs (io module)) = 0)
           then df_suggestions st ++ [render_suggestion index (name module)]
           else df_suggestions st;
         df_available := add_outputs module availableData |}
  end.

Definition data_flow_log (steps : list WorkflowStep)
    (moduleMap : gmap string ModuleDef) : DataFlow :=
  forEach (data_flow_step moduleMap) steps
    {| df_flow := []; df_bottlenecks := []; df_suggestions := [];
       df_available := ∅ |}.

(** What [POST /data-flow] answers with. *)
Record DataFlowAnalysis := {
  flow : list StepFlow;
  bottlenecks : list string;
  suggestions : list string;
}.

Definition dataFlowAnalysis (steps : list WorkflowStep)
    (moduleMap : gmap string ModuleDef) : DataFlowAnalysis :=
  let log := data_flow_log steps moduleMap in
  {| flow := df_flow log;
     bottlenecks := render_bottleneck <$> df_bottlenecks log;
     suggestions := df_suggestions log |}.

(** The (step index, dataType) pairs that a list of bottlenecks names. *)
Definition named_by (bs : list Bottleneck) : list (nat * string) :=
  flat_map (λ b, (λ ty, (bn_index b, ty)) <$> bn_missing b) bs.

(** What a route answers: [res.status(status).json(body)]. *)
Inductive Body :=
| ErrorBody (error : string)
| ErrorMessageBody (error message : string)
| WorkflowJson (workflow : Workflow)
| NoBody
| ParallelJson (workflowId : string) (duration : string)
    (parallelism : Parallelism)
    (results : list (string * value)) (stats : Z * Z * Z * Z)
    (completedAt : string)
| AnalysisJson (workflowId : string) (parallelism : Parallelism)
    (canParallelize : bool) (estimatedSpeedup : string)
| DataFlowJson (dataFlowAnalysis : DataFlowAnalysis).

Inductive Response :=
| Reply (status : nat) (body : Body)
| NoReply.

(** [POST /] *)
Definition post_workflow (env : Env) (body : WorkflowBody) : M Response :=
  match b_name body, b_steps body with
  | Some name, Some steps =>
      if String.eqb name EmptyString
      then pure (Reply 400 (ErrorBody "Name and steps are required"))
      else
        let* processedSteps := process_steps env steps in
        let* workflow :=
          WorkflowStorage.create env
            {| f_name := Some name; f_description := b_description body;
               f_steps := Some processedSteps |} in
        pure (Reply 201 (WorkflowJson workflow))
  | _, _ => pure (Reply 400 (ErrorBody "Name and steps are required"))
  end.

(** [PUT /:id] *)
Definition put_workflow (env : Env) (id : string) (body : WorkflowBody)
  : M Response :=
  let* processedSteps :=
    (* steps?.map(...) *)
    match b_steps body with
    | Some steps => let* p := process_steps env steps in pure (Some p)
    | None => pure None
    end in
  let* workflow :=
    WorkflowStorage.update env id
      {| u_name := Some (b_name body);
         u_description := Some (b_description body);
         u_steps := Some processedSteps |} in
  match workflow with
  | None => pure (Reply 404 (ErrorBody "Workflow not found"))
  | Some w => pure (Reply 200 (WorkflowJson w))
  end.

(** [DELETE /:id] *)
Definition delete_workflow (id : string) : M Response :=
  let* deleted := WorkflowStorage.delete id in
  if deleted : bool then pure (Reply 204 NoBody)
  else pure (Reply 404 (ErrorBody "Workflow not found")).

(** The message of the [TypeError] raised by [steps.forEach] when [steps]
    is [undefined]. *)
Definition forEach_of_undefined : string :=
  "Cannot read properties of undefined (reading 'forEach')".

(** [results.forEach((value, key) => { resultsObj[key] = value; })] *)
Definition to_object (results : list (string * value)) : list (string * value) :=
  foldl (λ resultsObj kv, set resultsObj kv.1 kv.2) [] results.

(** [`${maxParallelism}x (theoretical maximum)`] *)
Definition speedup_text (m : max_result) : string :=
  match m with
  | NegInfinity => "-Infinity"
  | Finite n => pretty n
  end +:+ "x (theoretical maximum)".

(** [analysis.maxParallelism > 1] *)
Definition more_than_one (m : max_result) : bool :=
  match m with
  | NegInfinity => false
  | Finite n => bool_decide (1 < n)
  end.

Section ParallelRoutes.

Variable env : Env.
Variable moduleExecutors :
  string → option (value → value → option string → outcome).
Variable executedAt : WorkflowStep → string.
Variable beyond_model : WorkflowStep → outcome.

(** [POST /:id/execute-parallel]; [NoReply] where the model of a loop runs
    out of fuel. *)
Definition execute_parallel (id : string) : M Response :=
  let* workflow := WorkflowStorage.getById id in
  match workflow with
  | None => pure (Reply 404 (ErrorBody "Workflow not found"))
  | Some workflow =>
      match wf_steps workflow with
      | None =>
          pure (Reply 500 (ErrorMessageBody
                             "Failed to execute workflow in parallel"
                             forEach_of_undefined))
      | Some steps =>
          match analyzeParallelism steps with
          | None => pure NoReply
          | Some parallelism =>
              let* startTime := date_now env in
              let* modules := ModuleStorage.getAll in
              match execute modules moduleExecutors executedAt beyond_model
                      steps with
              | OutOfFuel => pure NoReply
              | Throws message =>
                  pure (Reply 500 (ErrorMessageBody
                                     "Failed to execute workflow in parallel"
                                     message))
              | Returns results g =>
                  let* endTime := date_now env in
                  let* completedAt := new_date_iso env in
                  pure (Reply 200
                          (ParallelJson (wf_id workflow)
                             (pretty (Z.of_N endTime - Z.of_N startTime)%Z
                                +:+ "ms")
                             parallelism (to_object results)
                             (getStats steps g) completedAt))
              end
          end
      end
  end.

End ParallelRoutes.

(** [GET /:id/analyze] *)
Definition analyze_workflow (id : string) : M Response :=
  let* workflow := WorkflowStorage.getById id in
  match workflow with
  | None => pure (Reply 404 (ErrorBody "Workflow not found"))
  | Some workflow =>
      match wf_steps workflow with
      | None => pure (Reply 500 (ErrorBody "Failed to analyze workflow"))
      | Some steps =>
          match analyzeParallelism steps with
          | None => pure NoReply
          | Some parallelism =>
              pure (Reply 200
                      (AnalysisJson (wf_id workflow) parallelism
                         (more_than_one (maxParallelism parallelism))
                         (speedup_text (maxParallelism parallelism))))
          end
      end
  end.

(** [POST /data-flow] of the inspector routes; [steps] is [None] when the
    body holds no array under [steps]. *)
Definition data_flow (steps : option (list WorkflowStep)) : M Response :=
  match steps with
  | None => pure (Reply 400 (ErrorBody "Steps array is required"))
  | Some steps =>
      let* modules := ModuleStorage.getAll in
      let moduleMap := build_moduleMap modules in
      pure (Reply 200 (DataFlowJson (dataFlowAnalysis steps moduleMap)))
  end.

(** The modules that the file holds. *)
Definition stored_modules (w : World) : list ModuleDef :=
  default [] (modules_json (files w)).

(** The world with an empty data directory. *)
Definition fresh_world : World :=
  {| files := {| workflows_json := None; executions_json := None;
                 modules_json := None |};
     clock_reads := 0; uuids_drawn := 0 |}.

(** The workflows that the file holds. *)
Definition stored_workflows (w : World) : list Workflow :=
  default [] (workflows_json (files w)).

(** The first stored workflow with a given id, with its index. *)
Definition first_with_id (id : string) (workflows : list Workflow)
  : option (nat * Workflow) :=
  list_find (λ x, wf_id x = id) workflows.

Module Scenario.

(** A clock that stands still, and identifiers [uuid-0], [uuid-1], ... *)
Definition env : Env :=
  {| clock := λ _, 1700000000000%N;
     toISOString := λ _, "2023-11-14T22:13:20.000Z";
     uuidv4 := λ k, "uuid-" +:+ pretty k |}.

Definition fields (n : string) : WorkflowFields :=
  {| f_name := Some n; f_description := None; f_steps := Some [] |}.

(** Two workflows created within the same millisecond. *)
Definition twice : World :=
  (WorkflowStorage.create env (fields "second")
     (WorkflowStorage.create env (fields "first") fresh_world).2).2.

Definition step_input (i m : string) (d : option (list string)) : StepInput :=
  {| i_instanceId := Some i; i_moduleId := m; i_config := None;
     i_llm := None; i_dependsOn := d |}.

(** A request whose second step names the first as its dependency. *)
Definition chained : WorkflowBody :=
  {| b_name := Some "chained"; b_description := None;
     b_steps := Some [step_input "A" "echo" None;
                      step_input "B" "echo" (Some ["A"])] |}.

(** A request that only renames. *)
Definition rename : WorkflowBody :=
  {| b_name := Some "renamed"; b_description := None; b_steps := None |}.

End Scenario.

(** What [process_step] keeps of a step of the request: the module id and
    the model, the instance id when it is a non-empty string, and no
    [dependsOn]. *)
Definition processed_from (step : StepInput) (s : WorkflowStep) : Prop :=
  moduleId s = i_moduleId step ∧ llm s = i_llm step ∧ dependsOn s = None
  ∧ ∀ i, i_instanceId step = Some i → i ≠ EmptyString → instanceId s = i.

(** A step list that [execute] runs to the end. *)
Definition wellformed (steps : list WorkflowStep) : Prop :=
  unique_ids steps ∧ closed_deps steps ∧ ¬ has_cycle steps.

(** [getStats()] when every one of [n] steps is completed. *)
Definition all_completed (n : nat) : Z * Z * Z * Z :=
  (Z.of_nat n, Z.of_nat n, 0%Z, 0%Z).

(** * A finite relation without sinks has a cycle *)

Lemma no_sink_cycle `{Countable A} (R : relation A) (U : gset A) :
  U ≠ ∅ → (∀ a, a ∈ U → ∃ b, b ∈ U ∧ R a b) → ∃ c, tc R c c.
Proof.
  remember (size U) as n eqn:Hn. revert R U Hn.
  induction n as [|n IH]; intros R U Hn Hne Hsucc.
  { symmetry in Hn. apply size_empty_iff in Hn. by apply leibniz_equiv in Hn. }
  apply set_choose_L in Hne as [a Ha].
  destruct (Hsucc a Ha) as (b & Hb & Rab).
  destruct (decide (b = a)) as [->|Hba].
  { exists a. by apply tc_once. }
  set (R' := λ x y, R x y ∨ (R x a ∧ R a y)).
  destruct (IH R' (U ∖ {[a]})) as [c Hc].
  - rewrite size_difference by set_solver. rewrite size_singleton. lia.
  - set_solver.
  - intros x Hx. destruct (Hsucc x) as (y & Hy & Rxy); [set_solver|].
    destruct (decide (y = a)) as [->|Hya].
    + exists b. split; [set_solver|]. by right.
    + exists y. split; [set_solver|]. by left.
  - exists c.
    assert (∀ x y, tc R' x y → tc R x y) as Hmono; [|by apply Hmono].
    intros x y Hxy. induction Hxy as [x y [Hxy|[Hxa Hay]]|x y z [Hxy|[Hxa Hay]] _ IHt].
    + by apply tc_once.
    + eapply tc_l; [done|]. by apply tc_once.
    + by eapply tc_l.
    + eapply tc_l; [done|]. by eapply tc_l.
Qed.
(** * Properties of the parallel executor *)

(** ** The graph built by the constructor *)

Lemma new_graph_snoc steps s :
  new_graph (steps ++ [s])
  = nodes_set (instanceId s) (pending_node s) (new_graph steps).
Proof. unfold new_graph. by rewrite foldl_app. Qed.

Lemma new_graph_sets steps :
  completed (new_graph steps) = ∅ ∧ running (new_graph steps) = ∅.
Proof.
  induction steps as [|s steps IH] using rev_ind; [done|].
  rewrite new_graph_snoc. exact IH.
Qed.

Lemma new_graph_order steps k :
  k ∈ nodes_order (new_graph steps) ↔ k ∈ instanceId <$> steps.
Proof.
  induction steps as [|s steps IH] using rev_ind.
  - simpl. set_solver.
  - rewrite new_graph_snoc, fmap_app. simpl.
    case_decide; set_solver.
Qed.

Lemma new_graph_order_NoDup steps : NoDup (nodes_order (new_graph steps)).
Proof.
  induction steps as [|s steps IH] using rev_ind.
  - constructor.
  - rewrite new_graph_snoc. simpl. case_decide; [done|].
    apply NoDup_app. split_and!; [done| |apply NoDup_singleton].
    intros x Hx ->%list_elem_of_singleton. done.
Qed.

Lemma new_graph_dom steps k :
  is_Some (nodes (new_graph steps) !! k) ↔ k ∈ nodes_order (new_graph steps).
Proof.
  induction steps as [|s steps IH] using rev_ind.
  - simpl. rewrite lookup_empty. split; [by intros [? ?]|by intros ?%elem_of_nil].
  - rewrite new_graph_snoc. simpl.
    destruct (decide (instanceId s = k)) as [->|Hne].
    + rewrite lookup_insert_eq. case_decide; set_solver.
    + rewrite lookup_insert_ne by done. rewrite IH.
      case_decide; set_solver.
Qed.

Lemma new_graph_lookup steps k n :
  nodes (new_graph steps) !! k = Some n →
  ∃ s, s ∈ steps ∧ instanceId s = k ∧ n = pending_node s.
Proof.
  revert n. induction steps as [|s steps IH] using rev_ind; intros n.
  - simpl. by rewrite lookup_empty.
  - rewrite new_graph_snoc. simpl.
    destruct (decide (instanceId s = k)) as [<-|Hne].
    + rewrite lookup_insert_eq. intros [= <-]. exists s. set_solver.
    + rewrite lookup_insert_ne by done. intros (s' & ? & ? & ?)%IH.
      exists s'. set_solver.
Qed.

Lemma new_graph_lookup_unique steps s :
  NoDup (instanceId <$> steps) → s ∈ steps →
  nodes (new_graph steps) !! instanceId s = Some (pending_node s).
Proof.
  induction steps as [|s' steps IH] using rev_ind; intros Hnd Hin.
  - by apply elem_of_nil in Hin.
  - rewrite new_graph_snoc. simpl.
    rewrite fmap_app in Hnd. apply NoDup_app in Hnd as (Hnd & Hdisj & _).
    apply elem_of_app in Hin as [Hin| ->%list_elem_of_singleton].
    + rewrite lookup_insert_ne; [by apply IH|].
      intros Heq. apply (Hdisj (instanceId s)); [|rewrite <- Heq; set_solver].
      apply list_elem_of_fmap. eauto.
    + by rewrite lookup_insert_eq.
Qed.

(** ** Locality of [gatherInputs] *)

Lemma for_each_ext {A B} (f f' : B → A → completion B) xs acc :
  (∀ x b, x ∈ xs → f b x = f' b x) → for_each f xs acc = for_each f' xs acc.
Proof.
  revert acc. induction xs as [|x xs IH]; intros acc Hf; [done|].
  simpl. rewrite Hf by set_solver.
  destruct (f' acc x); simpl; [|done..].
  apply IH. intros; apply Hf; set_solver.
Qed.

Lemma gatherInputs_ext g1 g2 s :
  (∀ d, d ∈ deps s → dep_result g1 d = dep_result g2 d) →
  gatherInputs g1 s = gatherInputs g2 s.
Proof.
  intros Hd. unfold gatherInputs.
  destruct (deps s) as [|d1 [|d2 ds]] eqn:E; [done| |].
  - by rewrite (Hd d1) by set_solver.
  - f_equal. apply for_each_ext. intros d [m a] Hin.
    unfold merge_dependency. by rewrite (Hd d) by done.
Qed.

Section ExecutionFacts.

Variable modules : list ModuleDef.
Variable moduleExecutors :
  string → option (value → value → option string → outcome).
Variable executedAt : WorkflowStep → string.
Variable beyond_model : WorkflowStep → outcome.

Local Abbreviation outcome_of :=
  (step_outcome modules moduleExecutors executedAt beyond_model).
Local Abbreviation settle :=
  (executeStep_settle modules moduleExecutors executedAt beyond_model).
Local Abbreviation batch :=
  (run_batch modules moduleExecutors executedAt beyond_model).
Local Abbreviation loop :=
  (execute_loop modules moduleExecutors executedAt beyond_model).
Local Abbreviation inv :=
  (graph_inv modules moduleExecutors executedAt beyond_model).

Lemma step_outcome_ext g1 g2 s :
  (∀ d, d ∈ deps s → dep_result g1 d = dep_result g2 d) →
  outcome_of g1 s = outcome_of g2 s.
Proof.
  intros Hd. unfold step_outcome. by rewrite (gatherInputs_ext g1 g2 s Hd).
Qed.

Lemma holds_apply_outcome o n : holds_outcome o (apply_outcome o n).
Proof. by destruct o. Qed.

Lemma step_apply_outcome o n : step (apply_outcome o n) = step n.
Proof. by destruct o. Qed.

(** *** One [executeStep], in its two halves *)

Lemma settle_eq g node :
  settle g node
  = mark_done (node_id node)
      (update_node (node_id node) (apply_outcome (outcome_of g (step node))) g).
Proof.
  unfold executeStep_settle, node_id. by destruct (outcome_of g (step node)).
Qed.

Lemma settle_lookup g node k :
  nodes (settle g node) !! k
  = if decide (node_id node = k)
    then apply_outcome (outcome_of g (step node)) <$> nodes g !! k
    else nodes g !! k.
Proof.
  rewrite settle_eq. simpl. rewrite lookup_alter.
  by repeat case_decide; subst.
Qed.

Lemma start_lookup g node k :
  nodes (executeStep_start g node) !! k
  = if decide (node_id node = k)
    then set_status Running <$> nodes g !! k
    else nodes g !! k.
Proof.
  unfold executeStep_start. simpl. rewrite lookup_alter.
  by repeat case_decide; subst.
Qed.

(** Starting a batch changes statuses only. *)
Lemma start_fold l g :
  let g' := foldl executeStep_start g l in
  nodes_order g' = nodes_order g
  ∧ completed g' = completed g
  ∧ running g' = list_to_set (ids l) ∪ running g
  ∧ (∀ k, k ∉ ids l → nodes g' !! k = nodes g !! k)
  ∧ (∀ k, (λ n, (step n, result n, error n)) <$> nodes g' !! k
          = (λ n, (step n, result n, error n)) <$> nodes g !! k).
Proof.
  revert g. induction l as [|x l IH]; intros g; simpl.
  { split_and!; try done. set_solver. }
  destruct (IH (executeStep_start g x)) as (Ho & Hc & Hr & Hn & Hd).
  split_and!.
  - by rewrite Ho.
  - by rewrite Hc.
  - rewrite Hr. simpl. set_solver.
  - intros k Hk. rewrite Hn by set_solver.
    rewrite start_lookup. case_decide; [set_solver|done].
  - intros k. rewrite Hd, start_lookup. case_decide; [|done].
    by destruct (nodes g !! k).
Qed.

Lemma dep_result_start_fold l g d :
  dep_result (foldl executeStep_start g l) d = dep_result g d.
Proof.
  destruct (start_fold l g) as (_ & _ & _ & _ & Hd). specialize (Hd d).
  unfold dep_result.
  destruct (nodes (foldl executeStep_start g l) !! d),
           (nodes g !! d); simpl in Hd; congruence.
Qed.

(** Settling a batch: every started node receives the outcome of its
    step, computed from the results of its dependencies. *)
Lemma settle_fold l g :
  NoDup (ids l) →
  (∀ n d, n ∈ l → d ∈ deps (step n) → d ∉ ids l) →
  let g' := foldl settle g l in
  nodes_order g' = nodes_order g
  ∧ completed g' = list_to_set (ids l) ∪ completed g
  ∧ running g' = running g ∖ list_to_set (ids l)
  ∧ (∀ k, k ∉ ids l → nodes g' !! k = nodes g !! k)
  ∧ (∀ n, n ∈ l →
       nodes g' !! node_id n
       = apply_outcome (outcome_of g (step n)) <$> nodes g !! node_id n).
Proof.
  revert g. induction l as [|x l IH]; intros g Hnd Hdeps; simpl.
  { split_and!; try done; set_solver. }
  apply NoDup_cons in Hnd as [Hx Hnd].
  destruct (IH (settle g x)) as (Ho & Hc & Hr & Hn & Hs);
    [done|intros n d ??; specialize (Hdeps n d); set_solver|].
  split_and!.
  - rewrite Ho, settle_eq. done.
  - rewrite Hc, settle_eq. simpl. set_solver.
  - rewrite Hr, settle_eq. simpl. set_solver.
  - intros k Hk. rewrite Hn by set_solver.
    rewrite settle_lookup. case_decide; [set_solver|done].
  - intros n [->|Hin]%elem_of_cons.
    + rewrite Hn by done. rewrite settle_lookup. by case_decide.
    + rewrite Hs by done. rewrite settle_lookup.
      case_decide as Heq.
      { exfalso. apply Hx. rewrite Heq. by apply list_elem_of_fmap_2. }
      f_equal. f_equal. apply step_outcome_ext. intros d Hd.
      unfold dep_result. rewrite settle_lookup.
      case_decide as Heq'; [|done].
      exfalso. apply (Hdeps n d); [set_solver|done|]. rewrite <- Heq'. set_solver.
Qed.

(** *** The ready set under the loop invariant *)

Lemma inv_key steps g k n :
  inv steps g → nodes g !! k = Some n → node_id n = k ∧ step n ∈ steps.
Proof.
  intros Hinv Hk. pose proof (inv_steps _ _ _ _ _ _ Hinv k) as Hs.
  rewrite Hk in Hs. simpl in Hs.
  destruct (nodes (new_graph steps) !! k) as [n0|] eqn:E0; [|done].
  apply new_graph_lookup in E0 as (s & Hin & Hid & ->).
  simpl in Hs. injection Hs as Hs. unfold node_id. rewrite Hs. done.
Qed.

Lemma holds_outcome_terminal o n :
  holds_outcome o n → status n = Completed ∨ status n = Failed.
Proof. destruct o; simpl; naive_solver. Qed.

Lemma ready_spec steps g n :
  inv steps g → n ∈ getReadySteps g →
  nodes g !! node_id n = Some n
  ∧ n = pending_node (step n)
  ∧ (node_id n ∉ completed g)
  ∧ (∀ d, d ∈ deps (step n) → d ∈ completed g).
Proof.
  intros Hinv [Hr Hn]%list_elem_of_filter.
  apply list_elem_of_omap in Hn as (k & Hk & Hlook).
  destruct (inv_key _ _ _ _ Hinv Hlook) as [Hid _]. rewrite Hid.
  apply andb_prop in Hr as [Hst Hdeps]. apply bool_decide_eq_true in Hst.
  assert (k ∉ completed g) as Hnc.
  { intros Hc.
    pose proof (inv_settled _ _ _ _ _ _ Hinv k n Hlook Hc) as Hh.
    apply holds_outcome_terminal in Hh. rewrite Hst in Hh. naive_solver. }
  split_and!; [done|by eapply inv_pending|done|].
  intros d Hd. unfold dependencies_satisfied in Hdeps.
  rewrite forallb_forall in Hdeps. apply list_elem_of_In, Hdeps in Hd.
  by apply bool_decide_eq_true in Hd.
Qed.

Lemma ready_ids_in steps g k :
  inv steps g → k ∈ ids (getReadySteps g) →
  ∃ n, n ∈ getReadySteps g ∧ node_id n = k ∧ nodes g !! k = Some n.
Proof.
  intros Hinv (n & -> & Hn)%list_elem_of_fmap.
  exists n. split_and!; [done..|]. by eapply ready_spec.
Qed.

Lemma ready_NoDup steps g : inv steps g → NoDup (ids (getReadySteps g)).
Proof.
  intros Hinv. unfold getReadySteps, node_list, ids.
  assert (NoDup (nodes_order g)) as Hnd.
  { rewrite (inv_order _ _ _ _ _ _ Hinv). apply new_graph_order_NoDup. }
  induction (nodes_order g) as [|k ks IH]; [constructor|].
  apply NoDup_cons in Hnd as [Hk Hnd]. simpl.
  destruct (nodes g !! k) as [n|] eqn:E; simpl; [|by apply IH].
  rewrite filter_cons. case_decide; [|by apply IH].
  rewrite fmap_cons. apply NoDup_cons. split; [|by apply IH].
  intros (n' & Hid & [_ Hn']%list_elem_of_filter)%list_elem_of_fmap.
  apply list_elem_of_omap in Hn' as (k' & Hk' & Hlook').
  destruct (inv_key _ _ _ _ Hinv E) as [<- _].
  destruct (inv_key _ _ _ _ Hinv Hlook') as [Hid' _].
  apply Hk. rewrite Hid, Hid'. done.
Qed.

(** *** One batch *)

Lemma batch_spec steps g :
  inv steps g →
  let ready := getReadySteps g in
  let g' := batch g ready in
  nodes_order g' = nodes_order g
  ∧ completed g' = list_to_set (ids ready) ∪ completed g
  ∧ running g' = ∅
  ∧ (∀ k, k ∉ ids ready → nodes g' !! k = nodes g !! k)
  ∧ (∀ n, n ∈ ready →
       ∃ n', nodes g' !! node_id n = Some n'
             ∧ step n' = step n
             ∧ holds_outcome (outcome_of g (step n)) n').
Proof.
  intros Hinv ready g'. subst g'. unfold run_batch.
  destruct (start_fold ready g) as (Ho1 & Hc1 & Hr1 & Hn1 & Hd1).
  destruct (settle_fold ready (foldl executeStep_start g ready))
    as (Ho2 & Hc2 & Hr2 & Hn2 & Hs2).
  { by eapply ready_NoDup. }
  { intros n d Hn Hd Hin.
    destruct (ready_spec _ _ _ Hinv Hn) as (_ & _ & _ & Hdc).
    apply (ready_ids_in _ _ _ Hinv) in Hin as (n2 & Hn2 & <- & _).
    destruct (ready_spec _ _ _ Hinv Hn2) as (_ & _ & Hnc & _).
    by apply Hnc, Hdc. }
  split_and!.
  - by rewrite Ho2, Ho1.
  - by rewrite Hc2, Hc1.
  - rewrite Hr2, Hr1, (inv_running _ _ _ _ _ _ Hinv). set_solver.
  - intros k Hk. by rewrite Hn2, Hn1.
  - intros n Hn. rewrite (Hs2 n Hn).
    destruct (ready_spec _ _ _ Hinv Hn) as (Hlook & _).
    specialize (Hd1 (node_id n)). rewrite Hlook in Hd1. simpl in Hd1.
    destruct (nodes (foldl executeStep_start g ready) !! node_id n)
      as [n1|] eqn:E1; [|done].
    simpl in Hd1. injection Hd1 as Hst Hres Herr.
    assert (outcome_of (foldl executeStep_start g ready) (step n)
            = outcome_of g (step n)) as ->.
    { apply step_outcome_ext. intros d _. apply dep_result_start_fold. }
    eexists. split; [done|]. rewrite step_apply_outcome. split; [done|].
    apply holds_apply_outcome.
Qed.

(** *** The invariant holds initially and is kept by every batch *)

Lemma inv_init steps : inv steps (new_graph steps).
Proof.
  destruct (new_graph_sets steps) as [Hc Hr].
  split; try done.
  - intros k n (s & _ & _ & ->)%new_graph_lookup _. done.
  - intros k n. rewrite Hc. set_solver.
  - intros k. rewrite Hc. set_solver.
  - intros k n d _. rewrite Hc. set_solver.
  - intros k. rewrite Hc. set_solver.
Qed.

Lemma dep_result_batch steps g d :
  inv steps g → d ∈ completed g →
  dep_result (batch g (getReadySteps g)) d = dep_result g d.
Proof.
  intros Hinv Hd. destruct (batch_spec steps g Hinv) as (_ & _ & _ & Hn & _).
  unfold dep_result. rewrite Hn; [done|].
  intros (n & Hr & <- & _)%(ready_ids_in _ _ _ Hinv).
  eapply ready_spec in Hr as (_ & _ & Hnc & _); done.
Qed.

Lemma inv_batch steps g :
  inv steps g → inv steps (batch g (getReadySteps g)).
Proof.
  intros Hinv.
  destruct (batch_spec steps g Hinv) as (Ho & Hc & Hr & Hn & Hs).
  set (ready := getReadySteps g) in *. set (g' := batch g ready) in *.
  assert (∀ k, k ∈ completed g' ↔ k ∈ ids ready ∨ k ∈ completed g) as Hin.
  { intros k. rewrite Hc. set_solver. }
  assert (∀ s, (∀ d, d ∈ deps s → d ∈ completed g) →
               outcome_of g' s = outcome_of g s) as Hout.
  { intros s Hd. apply step_outcome_ext. intros d Hdin.
    by apply (dep_result_batch steps), Hd. }
  split.
  - rewrite Ho. by apply inv_order in Hinv.
  - intros k. rewrite <- (inv_steps _ _ _ _ _ _ Hinv k).
    destruct (decide (k ∈ ids ready)) as [Hk|Hk]; [|by rewrite Hn].
    apply (ready_ids_in _ _ _ Hinv) in Hk as (n & Hr' & <- & Hlook).
    destruct (Hs n Hr') as (n' & -> & Hst & _). rewrite Hlook. simpl.
    by rewrite Hst.
  - done.
  - intros k n Hlook Hk. rewrite Hin in Hk.
    rewrite Hn in Hlook by tauto. eapply inv_pending; [done..|tauto].
  - intros k n Hlook [Hk|Hk]%Hin.
    + apply (ready_ids_in _ _ _ Hinv) in Hk as (n0 & Hr' & <- & _).
      destruct (Hs n0 Hr') as (n' & Hlook' & Hst & Hh).
      rewrite Hlook in Hlook'. injection Hlook' as <-.
      rewrite Hst, Hout; [done|]. by eapply ready_spec.
    + assert (k ∉ ids ready) as Hnr.
      { intros (n0 & Hr' & <- & _)%(ready_ids_in _ _ _ Hinv).
        eapply ready_spec in Hr' as (_ & _ & Hnc & _); done. }
      rewrite Hn in Hlook by done. rewrite Hout.
      * by eapply inv_settled.
      * intros d Hd. by eapply inv_deps.
  - intros k [Hk|Hk]%Hin.
    + apply (ready_ids_in _ _ _ Hinv) in Hk as (n0 & Hr' & <- & _).
      destruct (Hs n0 Hr') as (n' & -> & _). by eexists.
    + assert (k ∉ ids ready) as Hnr.
      { intros (n0 & Hr' & <- & _)%(ready_ids_in _ _ _ Hinv).
        eapply ready_spec in Hr' as (_ & _ & Hnc & _); done. }
      rewrite Hn by done. by eapply inv_completed.
  - intros k n d Hlook [Hk|Hk]%Hin Hd; apply Hin; right.
    + apply (ready_ids_in _ _ _ Hinv) in Hk as (n0 & Hr' & <- & _).
      destruct (Hs n0 Hr') as (n' & Hlook' & Hst & _).
      rewrite Hlook in Hlook'. injection Hlook' as <-.
      rewrite Hst in Hd. eapply ready_spec in Hr' as (_ & _ & _ & Hdc); eauto.
    + assert (k ∉ ids ready) as Hnr.
      { intros (n0 & Hr' & <- & _)%(ready_ids_in _ _ _ Hinv).
        eapply ready_spec in Hr' as (_ & _ & Hnc & _); done. }
      rewrite Hn in Hlook by done. by eapply inv_deps.
  - intros k [Hk|Hk]%Hin; [|by eapply inv_acyclic].
    apply (ready_ids_in _ _ _ Hinv) in Hk as (n & Hr' & <- & Hlook).
    destruct (ready_spec _ _ _ Hinv Hr') as (_ & _ & _ & Hdc).
    intros Hcyc.
    assert (∃ y, node_depends_on steps (node_id n) y
                 ∧ tc (node_depends_on steps) y y) as (y & Hny & Hyy).
    { inversion Hcyc as [? ? H1|? y ? H1 H2]; subst.
      - exists (node_id n). split; [done|]. by apply tc_once.
      - exists y. split; [done|]. eapply tc_r; done. }
    apply (inv_acyclic _ _ _ _ _ _ Hinv y); [|done].
    destruct Hny as (n0 & Hlook0 & Hy). apply Hdc.
    pose proof (inv_steps _ _ _ _ _ _ Hinv (node_id n)) as Hst.
    rewrite Hlook, Hlook0 in Hst. simpl in Hst. injection Hst as ->. done.
Qed.

(** *** Progress of the loop *)

Lemma order_length steps :
  length (nodes_order (new_graph steps)) ≤ length steps
  ∧ (length (nodes_order (new_graph steps)) = length steps → unique_ids steps).
Proof.
  unfold unique_ids.
  induction steps as [|s steps [IH1 IH2]] using rev_ind.
  { split; [done|]. intros _. constructor. }
  rewrite new_graph_snoc, length_app, fmap_app. simpl.
  case_decide as Hin; [split; lia|].
  rewrite length_app. simpl. split; [lia|]. intros Hlen.
  apply NoDup_app. split_and!; [apply IH2; lia| |apply NoDup_singleton].
  intros x Hx ->%list_elem_of_singleton. by apply Hin, new_graph_order.
Qed.

Lemma completed_subset steps g :
  inv steps g →
  completed g ⊆ list_to_set (nodes_order (new_graph steps)).
Proof.
  intros Hinv k Hk. apply elem_of_list_to_set, new_graph_dom.
  apply (inv_completed _ _ _ _ _ _ Hinv) in Hk as [n Hn].
  pose proof (inv_steps _ _ _ _ _ _ Hinv k) as Hs. rewrite Hn in Hs.
  by destruct (nodes (new_graph steps) !! k).
Qed.

Lemma completed_bound steps g :
  inv steps g → size (completed g) ≤ length (nodes_order (new_graph steps)).
Proof.
  intros Hinv.
  rewrite <- (size_list_to_set (C := gset string))
    by apply new_graph_order_NoDup.
  by apply subseteq_size, completed_subset.
Qed.

Lemma batch_grows steps g :
  inv steps g → getReadySteps g ≠ [] →
  size (completed g) < size (completed (batch g (getReadySteps g))).
Proof.
  intros Hinv Hne.
  destruct (batch_spec steps g Hinv) as (_ & Hc & _).
  destruct (getReadySteps g) as [|n ready] eqn:E; [done|].
  assert (n ∈ getReadySteps g) as Hn by (rewrite E; set_solver).
  destruct (ready_spec _ _ _ Hinv Hn) as (_ & _ & Hnc & _).
  apply subset_size. rewrite Hc. simpl. set_solver.
Qed.

Lemma loop_spec steps total fuel g :
  inv steps g →
  match loop fuel total g with
  | Finished g' => inv steps g' ∧ total ≤ size (completed g')
  | Deadlock g' =>
      inv steps g' ∧ size (completed g') < total ∧ getReadySteps g' = []
  | Exhausted => True
  end.
Proof.
  revert g. induction fuel as [|fuel IH]; intros g Hinv; [done|]. simpl.
  case_decide as Hlt; [|split; [done|lia]].
  destruct (getReadySteps g) as [|n ready] eqn:E.
  - case_decide; [done|]. by apply IH.
  - rewrite <- E. by apply IH, inv_batch.
Qed.

Lemma loop_fuel steps total fuel g :
  inv steps g →
  length (nodes_order (new_graph steps)) - size (completed g) < fuel →
  loop fuel total g ≠ Exhausted.
Proof.
  revert g. induction fuel as [|fuel IH]; intros g Hinv Hfuel; [lia|]. simpl.
  case_decide as Hlt; [|done].
  destruct (getReadySteps g) as [|n ready] eqn:E.
  - rewrite (inv_running _ _ _ _ _ _ Hinv), size_empty.
    by case_decide.
  - rewrite <- E. apply IH; [by apply inv_batch|].
    pose proof (batch_grows steps g Hinv) as Hg.
    rewrite E in Hg at 1. specialize (Hg ltac:(done)).
    pose proof (completed_bound steps _ (inv_batch steps g Hinv)). lia.
Qed.

(** [execute] always ends: it returns or reports the deadlock. *)
Lemma execute_ends steps :
  (∃ g, loop (S (length steps)) (length steps) (new_graph steps) = Finished g
        ∧ inv steps g ∧ length steps ≤ size (completed g))
  ∨ (∃ g, loop (S (length steps)) (length steps) (new_graph steps) = Deadlock g
          ∧ inv steps g ∧ size (completed g) < length steps
          ∧ getReadySteps g = []).
Proof.
  pose proof (loop_spec steps (length steps) (S (length steps))
                (new_graph steps) (inv_init steps)) as Hspec.
  pose proof (loop_fuel steps (length steps) (S (length steps))
                (new_graph steps) (inv_init steps)) as Hfuel.
  destruct (order_length steps) as [Hlen _].
  destruct (loop _ _ _) as [g|g|]; [left|right|]; eauto.
  exfalso. apply Hfuel; [lia|done].
Qed.

(** When the loop exits normally, every step has been executed. *)
Lemma finished_all steps g :
  inv steps g → length steps ≤ size (completed g) →
  unique_ids steps
  ∧ size (completed g) = length steps
  ∧ ∀ s, s ∈ steps →
      instanceId s ∈ completed g
      ∧ ∃ n, nodes g !! instanceId s = Some n ∧ step n = s.
Proof.
  intros Hinv Hsize.
  pose proof (completed_bound steps g Hinv) as Hb.
  destruct (order_length steps) as [Hlen Hnd].
  assert (unique_ids steps) as Hu by (apply Hnd; lia).
  assert (completed g = list_to_set (nodes_order (new_graph steps))) as Hall.
  { apply set_subseteq_size_eq; [by apply completed_subset|].
    rewrite size_list_to_set by apply new_graph_order_NoDup. lia. }
  split_and!; [done|lia|].
  intros s Hs.
  assert (instanceId s ∈ completed g) as Hc.
  { rewrite Hall. apply elem_of_list_to_set, new_graph_order.
    by apply list_elem_of_fmap_2. }
  split; [done|].
  pose proof (inv_steps _ _ _ _ _ _ Hinv (instanceId s)) as Hst.
  rewrite (new_graph_lookup_unique steps s Hu Hs) in Hst. simpl in Hst.
  destruct (nodes g !! instanceId s) as [n|]; [|done].
  injection Hst as Hst. by exists n.
Qed.

(** *** Cycles, dangling dependencies and the two ways [execute] ends *)

Lemma unique_order steps :
  unique_ids steps → nodes_order (new_graph steps) = instanceId <$> steps.
Proof.
  unfold unique_ids.
  induction steps as [|s steps IH] using rev_ind; intros Hnd; [done|].
  rewrite fmap_app in Hnd. apply NoDup_app in Hnd as (Hnd & Hdisj & _).
  rewrite new_graph_snoc, fmap_app. simpl.
  case_decide as Hin; [|by rewrite IH].
  exfalso. apply new_graph_order in Hin. apply (Hdisj _ Hin). set_solver.
Qed.

Lemma node_depends_on_sub steps a b :
  node_depends_on steps a b → depends_on steps a b.
Proof.
  intros (n & (s & Hs & Hid & ->)%new_graph_lookup & Hb). by exists s.
Qed.

Lemma depends_on_node steps a b :
  unique_ids steps → depends_on steps a b → node_depends_on steps a b.
Proof.
  intros Hu (s & Hs & <- & Hb). exists (pending_node s).
  split; [by apply new_graph_lookup_unique|done].
Qed.

Lemma tc_sub {A} (R R' : relation A) x y :
  (∀ a b, R a b → R' a b) → tc R x y → tc R' x y.
Proof. intros HR. by apply (tc_congruence (λ a, a)). Qed.

Lemma forallb_false {A} (f : A → bool) l :
  forallb f l = false → ∃ x, x ∈ l ∧ f x = false.
Proof.
  induction l as [|x l IH]; [done|]. simpl.
  destruct (f x) eqn:E; simpl.
  - intros (y & ? & ?)%IH. exists y. set_solver.
  - intros _. exists x. set_solver.
Qed.

(** In a deadlocked graph every unfinished node waits for another
    unfinished entry of its [dependsOn]. *)
Lemma deadlock_blocked steps g k n :
  inv steps g → getReadySteps g = [] →
  nodes g !! k = Some n → k ∉ completed g →
  ∃ d, d ∈ deps (step n) ∧ d ∉ completed g.
Proof.
  intros Hinv Hready Hlook Hk.
  assert (n ∈ node_list g) as Hn.
  { apply list_elem_of_omap. exists k. split; [|done].
    rewrite (inv_order _ _ _ _ _ _ Hinv). apply new_graph_dom.
    pose proof (inv_steps _ _ _ _ _ _ Hinv k) as Hs. rewrite Hlook in Hs.
    by destruct (nodes (new_graph steps) !! k). }
  assert (is_ready g n = false) as Hnr.
  { destruct (is_ready g n) eqn:E; [|done].
    assert (n ∈ getReadySteps g) as Hin by by apply list_elem_of_filter.
    rewrite Hready in Hin. by apply elem_of_nil in Hin. }
  unfold is_ready in Hnr.
  rewrite (inv_pending _ _ _ _ _ _ Hinv k n Hlook Hk) in Hnr. simpl in Hnr.
  apply forallb_false in Hnr as (d & Hd & Hdc).
  exists d. split; [done|]. by apply bool_decide_eq_false in Hdc.
Qed.

Lemma deadlock_has_cause steps g :
  inv steps g → getReadySteps g = [] →
  size (completed g) < length steps →
  unique_ids steps → closed_deps steps → has_cycle steps.
Proof.
  intros Hinv Hready Hsize Hu Hclosed.
  set (U := list_to_set (nodes_order (new_graph steps)) ∖ completed g
            : gset string).
  destruct (no_sink_cycle (node_depends_on steps) U) as [c Hc].
  - intros HU.
    assert (list_to_set (nodes_order (new_graph steps)) ⊆ completed g)
      as Hsub by set_solver.
    apply subseteq_size in Hsub.
    rewrite size_list_to_set in Hsub by apply new_graph_order_NoDup.
    rewrite unique_order, length_fmap in Hsub by done. lia.
  - intros a [Ha Hac]%elem_of_difference.
    apply elem_of_list_to_set, new_graph_dom in Ha as [n0 Hn0].
    pose proof (inv_steps _ _ _ _ _ _ Hinv a) as Hs. rewrite Hn0 in Hs.
    destruct (nodes g !! a) as [n|] eqn:Hn; [|done].
    simpl in Hs. injection Hs as Hs.
    destruct (deadlock_blocked steps g a n Hinv Hready Hn Hac) as (d & Hd & Hdc).
    exists d. split.
    + apply elem_of_difference. split; [|done].
      apply elem_of_list_to_set, new_graph_order.
      destruct (inv_key _ _ _ _ Hinv Hn) as [_ Hin].
      by eapply Hclosed.
    + exists n0. split; [done|]. by rewrite <- Hs.
  - exists c. eapply tc_sub; [|done]. apply node_depends_on_sub.
Qed.

Lemma cycle_never_finishes steps g :
  inv steps g → length steps ≤ size (completed g) → ¬ has_cycle steps.
Proof.
  intros Hinv Hsize [a Ha].
  destruct (finished_all steps g Hinv Hsize) as (Hu & _ & Hall).
  assert (∃ s, s ∈ steps ∧ instanceId s = a) as (s & Hs & <-).
  { inversion Ha as [? ? (s & ? & ? & _)|? ? ? (s & ? & ? & _)]; eauto. }
  apply (inv_acyclic _ _ _ _ _ _ Hinv (instanceId s)); [by apply Hall|].
  eapply tc_sub; [|done]. intros ??. by apply depends_on_node.
Qed.

Lemma execute_cycle steps :
  has_cycle steps →
  execute modules moduleExecutors executedAt beyond_model steps
  = Throws deadlock_message.
Proof.
  intros Hcyc. unfold execute.
  destruct (execute_ends steps) as [(g & -> & Hinv & Hsize)|(g & -> & _)];
    [|done].
  by destruct (cycle_never_finishes steps g Hinv Hsize).
Qed.

Lemma execute_wellformed steps :
  unique_ids steps → closed_deps steps → ¬ has_cycle steps →
  ∃ g, execute modules moduleExecutors executedAt beyond_model steps
       = Returns (collect_results g) g
       ∧ inv steps g ∧ length steps ≤ size (completed g).
Proof.
  intros Hu Hclosed Hacyc. unfold execute.
  destruct (execute_ends steps)
    as [(g & -> & Hinv & Hsize)|(g & -> & Hinv & Hsize & Hready)].
  - by exists g.
  - destruct Hacyc. by eapply deadlock_has_cause.
Qed.

Lemma execute_returns_inv steps results g :
  execute modules moduleExecutors executedAt beyond_model steps
  = Returns results g →
  results = collect_results g ∧ inv steps g
  ∧ length steps ≤ size (completed g).
Proof.
  unfold execute.
  destruct (execute_ends steps) as [(g' & -> & Hinv & Hsize)|(g' & -> & _)];
    [|done].
  by intros [= <- <-].
Qed.

(** *** C1 and C2 *)

(** C1. For every step list whose [dependsOn] relation contains a cycle,
    [execute] fails with the deadlock error rather than hanging; and
    whenever the ready set is empty and no step is running while
    [completed.size < total], the loop aborts with that error. *)
Theorem execute_cycle_deadlock steps :
  has_cycle steps →
  execute modules moduleExecutors executedAt beyond_model steps
  = Throws deadlock_message
  ∧ ∀ fuel g,
      getReadySteps g = [] → size (running g) = 0 →
      size (completed g) < length steps →
      loop (S fuel) (length steps) g = Deadlock g.
Proof.
  intros Hcyc. split; [by apply execute_cycle|].
  intros fuel g Hready Hrun Hsize. simpl. rewrite Hready.
  by repeat case_decide.
Qed.

(** C2, as amended. For every step list with unique instance ids whose
    [dependsOn] entries all name steps of the list and form no cycle,
    [execute] returns, and at that point [completed.size] equals
    [steps.length] and every step has reached a terminal status. *)
Theorem execute_acyclic_completes steps :
  unique_ids steps → closed_deps steps → ¬ has_cycle steps →
  ∃ results g,
    execute modules moduleExecutors executedAt beyond_model steps
    = Returns results g
    ∧ size (completed g) = length steps
    ∧ ∀ s, s ∈ steps →
        ∃ n, nodes g !! instanceId s = Some n ∧ step n = s
             ∧ (status n = Completed ∨ status n = Failed).
Proof.
  intros Hu Hclosed Hacyc.
  destruct (execute_wellformed steps Hu Hclosed Hacyc) as (g & Hx & Hinv & Hsize).
  exists (collect_results g), g. split; [done|].
  destruct (finished_all steps g Hinv Hsize) as (_ & Hsz & Hall).
  split; [done|]. intros s Hs.
  destruct (Hall s Hs) as (Hc & n & Hn & Hst).
  exists n. split_and!; [done..|].
  eapply holds_outcome_terminal, inv_settled; done.
Qed.


(** *** C4 and C10: what a run leaves in the graph and in [results] *)

Lemma get_set_eq props k v : get (set props k v) k = v.
Proof.
  induction props as [|[k' v'] props IH]; simpl.
  - by case_decide.
  - case_decide; simpl; case_decide; subst; done.
Qed.

Lemma get_set_ne props k k' v : k ≠ k' → get (set props k v) k' = get props k'.
Proof.
  intros Hne. induction props as [|[k0 v0] props IH]; simpl.
  - by case_decide.
  - case_decide; simpl; repeat case_decide; subst; done.
Qed.

(** [_allResults] lists the truthy results of the dependencies in order. *)
Lemma merge_all_results g ds m0 a0 m a :
  for_each (merge_dependency g) ds (m0, a0) = Normal (m, a) →
  a = a0 ++ filter (λ r, truthy r = true) (dep_result g <$> ds).
Proof.
  revert m0 a0. induction ds as [|d ds IH]; intros m0 a0; simpl.
  { intros [= <- <-]. by rewrite app_nil_r. }
  destruct (truthy (dep_result g d)) eqn:E.
  - destruct (for_each merge_field (own_entries (dep_result g d)) m0)
      as [m1| |]; simpl; [|done..].
    intros ->%IH. rewrite filter_cons_True by done. by rewrite <- app_assoc.
  - simpl. intros ->%IH. rewrite filter_cons_False; [done|]. by rewrite E.
Qed.

Lemma gatherInputs_single g s d :
  deps s = [d] → gatherInputs g s = Normal (or_else (dep_result g d) Null).
Proof. unfold gatherInputs. by intros ->. Qed.

Lemma gatherInputs_merged g s d v :
  d ∈ deps s → deps s ≠ [d] → truthy (dep_result g d) = true →
  gatherInputs g s = Normal v →
  ∃ props all,
    v = Obj props
    ∧ get props "_sources" = Arr (Str <$> deps s)
    ∧ get props "_allResults" = Arr all
    ∧ dep_result g d ∈ all.
Proof.
  intros Hd Hne Ht. unfold gatherInputs.
  destruct (deps s) as [|d1 [|d2 ds]] eqn:E.
  - by apply elem_of_nil in Hd.
  - apply list_elem_of_singleton in Hd as ->. done.
  - destruct (for_each _ _ _) as [[m a]| |] eqn:Hm; simpl; [|done..].
    intros [= <-]. apply merge_all_results in Hm.
    exists (set (set m "_sources" (Arr (Str <$> d1 :: d2 :: ds)))
                "_allResults" (Arr a)), a.
    split_and!; [done| |by rewrite get_set_eq|].
    + by rewrite get_set_ne, get_set_eq.
    + rewrite Hm. apply elem_of_app. right.
      apply list_elem_of_filter. split; [done|].
      by apply list_elem_of_fmap_2.
Qed.

Lemma collect_results_spec steps g k v :
  inv steps g →
  (k, v) ∈ collect_results g
  ↔ ∃ n, nodes g !! k = Some n ∧ result n = v ∧ truthy v = true.
Proof.
  intros Hinv. unfold collect_results. rewrite list_elem_of_omap. split.
  - intros (k' & _ & Hk').
    destruct (nodes g !! k') as [n|] eqn:E; [|done]. simpl in Hk'.
    destruct (truthy (result n)) eqn:Ht; [|done].
    injection Hk' as <- <-. eauto.
  - intros (n & Hn & <- & Ht). exists k. split.
    + rewrite (inv_order _ _ _ _ _ _ Hinv). apply new_graph_dom.
      pose proof (inv_steps _ _ _ _ _ _ Hinv k) as Hs. rewrite Hn in Hs.
      by destruct (nodes (new_graph steps) !! k).
    + rewrite Hn. simpl. by rewrite Ht.
Qed.

Lemma length_omap_le {A B} (f : A → option B) l :
  length (omap f l) ≤ length l.
Proof.
  induction l as [|x l IH]; [done|].
  change (omap f (x :: l))
    with (match f x with Some y => y :: omap f l | None => omap f l end).
  destruct (f x); simpl; lia.
Qed.

Lemma collect_results_length g :
  length (collect_results g) ≤ length (nodes_order g).
Proof. apply length_omap_le. Qed.

(** One [executeStep] whose [try] block throws. *)
Lemma executeStep_rejected g node m :
  nodes g !! node_id node = Some node →
  outcome_of (executeStep_start g node) (step node) = Rejected m →
  let g' := executeStep modules moduleExecutors executedAt beyond_model g node in
  (∃ n', nodes g' !! node_id node = Some n'
         ∧ step n' = step node ∧ status n' = Failed
         ∧ result n' = error_record m ∧ error n' = Some m)
  ∧ (node_id node ∉ running g')
  ∧ (node_id node ∈ completed g').
Proof.
  intros Hlook Hout g'. subst g'. unfold executeStep.
  rewrite settle_eq, Hout. unfold executeStep_start, node_id in *. simpl.
  split_and!; [|set_solver..].
  rewrite !lookup_alter_eq, Hlook. simpl. eauto 10.
Qed.

Lemma run_failure steps results g s m :
  execute modules moduleExecutors executedAt beyond_model steps
  = Returns results g →
  s ∈ steps → outcome_of g s = Rejected m →
  (∃ n, nodes g !! instanceId s = Some n ∧ step n = s ∧ status n = Failed
        ∧ result n = error_record m ∧ error n = Some m)
  ∧ (instanceId s ∈ completed g)
  ∧ (instanceId s ∉ running g)
  ∧ ((instanceId s, error_record m) ∈ results)
  ∧ ∀ s', s' ∈ steps → instanceId s ∈ deps s' →
      (∃ n', nodes g !! instanceId s' = Some n' ∧ step n' = s'
             ∧ holds_outcome (outcome_of g s') n')
      ∧ (deps s' = [instanceId s] →
         gatherInputs g s' = Normal (error_record m))
      ∧ (deps s' ≠ [instanceId s] →
         ∀ v, gatherInputs g s' = Normal v →
              ∃ props all, v = Obj props
                           ∧ get props "_allResults" = Arr all
                           ∧ error_record m ∈ all).
Proof.
  intros (-> & Hinv & Hsize)%execute_returns_inv Hs Hout.
  destruct (finished_all steps g Hinv Hsize) as (_ & _ & Hall).
  destruct (Hall s Hs) as (Hc & n & Hn & Hst).
  pose proof (inv_settled _ _ _ _ _ _ Hinv _ _ Hn Hc) as Hh.
  rewrite Hst, Hout in Hh. destruct Hh as (Hfailed & Hres & Herr).
  assert (dep_result g (instanceId s) = error_record m) as Hdep.
  { unfold dep_result. by rewrite Hn. }
  split_and!.
  - by exists n.
  - done.
  - rewrite (inv_running _ _ _ _ _ _ Hinv). set_solver.
  - apply (collect_results_spec steps); [done|]. by exists n.
  - intros s' Hs' Hd.
    destruct (Hall s' Hs') as (Hc' & n' & Hn' & Hst').
    split_and!.
    + exists n'. split_and!; [done..|]. rewrite <- Hst'.
      by eapply inv_settled.
    + intros Hone. by rewrite (gatherInputs_single g s' _ Hone), Hdep.
    + intros Hne v Hv.
      destruct (gatherInputs_merged g s' (instanceId s) v)
        as (props & all & -> & _ & Hall' & Hin); [done..|by rewrite Hdep|done|].
      exists props, all. by rewrite <- Hdep.
Qed.

(** C4. Continue on step failure: when the module of a step is not
    found or its executor throws, [executeStep] captures the failure (the
    node becomes [Failed], its result becomes the record
    [{status: "error", error: message}], and it leaves [running] and
    enters [completed]); [execute] throws nothing but the deadlock error,
    and this only for a step list with a repeated id, a dependency that
    names no step or a cycle, whatever the steps' executors do; and in a
    run that returns, every dependent of a failed step was executed with
    this record in its input. *)
Theorem step_failure_is_captured steps :
  (∀ g s, getById modules (moduleId s) = None →
          outcome_of g s = Rejected ("Module not found: " +:+ moduleId s))
  ∧ (∀ g s module input executor m,
       getById modules (moduleId s) = Some module →
       gatherInputs g s = Normal input →
       moduleExecutors (id module) = Some executor →
       executor (config s) input (llm s) = Rejected m →
       outcome_of g s = Rejected m)
  ∧ (∀ g node m,
       nodes g !! node_id node = Some node →
       outcome_of (executeStep_start g node) (step node) = Rejected m →
       let g' := executeStep modules moduleExecutors executedAt beyond_model
                   g node in
       (∃ n', nodes g' !! node_id node = Some n'
              ∧ step n' = step node ∧ status n' = Failed
              ∧ result n' = Obj [("status", Str "error"); ("error", Str m)]
              ∧ error n' = Some m)
       ∧ (node_id node ∉ running g')
       ∧ (node_id node ∈ completed g'))
  ∧ (∀ message,
       execute modules moduleExecutors executedAt beyond_model steps
       = Throws message →
       message = deadlock_message
       ∧ ¬ (unique_ids steps ∧ closed_deps steps ∧ ¬ has_cycle steps))
  ∧ execute modules moduleExecutors executedAt beyond_model steps ≠ OutOfFuel
  ∧ (∀ results g s m,
       execute modules moduleExecutors executedAt beyond_model steps
       = Returns results g →
       s ∈ steps → outcome_of g s = Rejected m →
       (∃ n, nodes g !! instanceId s = Some n ∧ step n = s
             ∧ status n = Failed
             ∧ result n = Obj [("status", Str "error"); ("error", Str m)]
             ∧ error n = Some m)
       ∧ (instanceId s ∈ completed g)
       ∧ (instanceId s ∉ running g)
       ∧ ((instanceId s, Obj [("status", Str "error"); ("error", Str m)])
            ∈ results)
       ∧ ∀ s', s' ∈ steps → instanceId s ∈ deps s' →
           (∃ n', nodes g !! instanceId s' = Some n' ∧ step n' = s'
                  ∧ holds_outcome (outcome_of g s') n')
           ∧ (deps s' = [instanceId s] →
              gatherInputs g s'
              = Normal (Obj [("status", Str "error"); ("error", Str m)]))
           ∧ (deps s' ≠ [instanceId s] →
              ∀ v, gatherInputs g s' = Normal v →
                   ∃ props all,
                     v = Obj props
                     ∧ get props "_allResults" = Arr all
                     ∧ Obj [("status", Str "error"); ("error", Str m)]
                         ∈ all)).
Proof.
  split_and!.
  - intros g s Hnone. unfold step_outcome. by rewrite Hnone.
  - intros g s module input executor m Hmod Hin Hex Hrej.
    unfold step_outcome, hasRealImplementation, executeModule.
    by rewrite Hmod, Hin, Hex.
  - intros g node m Hnode Hrej.
    exact (executeStep_rejected g node m Hnode Hrej).
  - intros message Hthrows. split.
    + revert Hthrows. unfold execute.
      destruct (loop _ _ _); [done| |done]. by intros [= <-].
    + intros (Hu & Hclosed & Hacyc).
      destruct (execute_wellformed steps Hu Hclosed Hacyc) as (g & Hx & _).
      rewrite Hx in Hthrows. discriminate.
  - unfold execute.
    destruct (execute_ends steps) as [(g & -> & _)|(g & -> & _)]; done.
  - intros results g s m Hx Hs Hrej.
    exact (run_failure steps results g s m Hx Hs Hrej).
Qed.

Lemma results_spec steps results g :
  execute modules moduleExecutors executedAt beyond_model steps
  = Returns results g →
  (∀ k v, (k, v) ∈ results
          ↔ ∃ n, nodes g !! k = Some n ∧ result n = v ∧ truthy v = true)
  ∧ (∀ s, s ∈ steps →
       instanceId s ∈ completed g
       ∧ ∃ n, nodes g !! instanceId s = Some n ∧ step n = s
              ∧ holds_outcome (outcome_of g s) n)
  ∧ length results ≤ length steps.
Proof.
  intros (-> & Hinv & Hsize)%execute_returns_inv.
  destruct (finished_all steps g Hinv Hsize) as (_ & _ & Hall).
  split_and!.
  - intros k v. by apply (collect_results_spec steps).
  - intros s Hs. destruct (Hall s Hs) as (Hc & n & Hn & Hst).
    split; [done|]. exists n. split_and!; [done..|].
    rewrite <- Hst. by eapply inv_settled.
  - etrans; [apply collect_results_length|].
    rewrite (inv_order _ _ _ _ _ _ Hinv). apply order_length.
Qed.

End ExecutionFacts.

Lemma mutual_has_cycle : has_cycle Examples.mutual.
Proof.
  exists "X". apply tc_l with "Y"; [|apply tc_once].
  - exists (Examples.plain "X" "echo" (Some ["Y"])).
    split_and!; [apply list_elem_of_here|done|apply list_elem_of_here].
  - exists (Examples.plain "Y" "echo" (Some ["X"])).
    split_and!; [apply list_elem_of_further, list_elem_of_here|done
                |apply list_elem_of_here].
Defined.

Lemma execute_cycle_deadlock_witness :
  has_cycle Examples.mutual
  ∧ Examples.run Examples.mutual = Throws deadlock_message.
Proof.
  split; [exact mutual_has_cycle|].
  exact (proj1 (execute_cycle_deadlock Examples.store Examples.executors
                  Examples.clock Examples.no_exotic Examples.mutual
                  mutual_has_cycle)).
Defined.

Lemma dangling_edge a b :
  depends_on Examples.dangling a b → a = "A" ∧ b = "ghost".
Proof.
  intros (s & Hs & <- & Hb). apply list_elem_of_singleton in Hs as ->.
  simpl in Hb. by apply list_elem_of_singleton in Hb as ->.
Qed.

Lemma dangling_acyclic : ¬ has_cycle Examples.dangling.
Proof.
  intros [a Ha].
  inversion Ha as [? ? H1|? y ? H1 H2]; subst;
    apply dangling_edge in H1 as [-> ?]; [done|subst].
  inversion H2 as [? ? H3|? ? ? H3 _]; subst;
    by apply dangling_edge in H3 as [? _].
Qed.

(** C2, as stated, fails: a list without a cycle whose only step waits for
    an id that names no step makes [execute] throw the deadlock error
    with nothing completed. *)
Lemma acyclic_dangling_dependency_deadlocks :
  ¬ has_cycle Examples.dangling
  ∧ Examples.run Examples.dangling = Throws deadlock_message
  ∧ ¬ ∃ results g,
        Examples.run Examples.dangling = Returns results g
        ∧ size (completed g) = length Examples.dangling.
Proof.
  split; [exact dangling_acyclic|].
  assert (Examples.run Examples.dangling = Throws deadlock_message) as Hrun
    by (vm_compute; reflexivity).
  split; [done|]. intros (results & g & H & _). by rewrite Hrun in H.
Qed.

Lemma diamond_wellformed :
  unique_ids Examples.diamond ∧ closed_deps Examples.diamond
  ∧ ¬ has_cycle Examples.diamond.
Proof.
  split_and!.
  - unfold unique_ids. simpl. repeat (apply NoDup_cons; split; [set_solver|]).
    constructor.
  - intros s d Hs Hd. simpl.
    repeat (apply elem_of_cons in Hs as [->|Hs]); simpl in Hd; set_solver.
  - assert (∀ a b, depends_on Examples.diamond a b → a = "C" ∧ (b = "A" ∨ b = "B"))
      as Hedge.
    { intros a b (s & Hs & <- & Hb).
      repeat (apply elem_of_cons in Hs as [->|Hs]); simpl in Hb; set_solver. }
    intros [a Ha].
    inversion Ha as [? ? H1|? y ? H1 H2]; subst;
      apply Hedge in H1 as [-> H1]; [naive_solver|].
    inversion H2 as [? ? H3|? ? ? H3 _]; subst;
      apply Hedge in H3 as [? _]; naive_solver.
Defined.

Lemma execute_acyclic_completes_witness :
  (unique_ids Examples.diamond ∧ closed_deps Examples.diamond
   ∧ ¬ has_cycle Examples.diamond)
  ∧ ∃ results g,
    Examples.run Examples.diamond = Returns results g
    ∧ size (completed g) = length Examples.diamond
    ∧ ∀ s, s ∈ Examples.diamond →
        ∃ n, nodes g !! instanceId s = Some n ∧ step n = s
             ∧ (status n = Completed ∨ status n = Failed).
Proof.
  split; [exact diamond_wellformed|].
  exact (execute_acyclic_completes Examples.store Examples.executors
           Examples.clock Examples.no_exotic Examples.diamond
           (proj1 diamond_wellformed)
           (proj1 (proj2 diamond_wellformed))
           (proj2 (proj2 diamond_wellformed))).
Defined.

(** C10. When [execute] returns, [results] has an entry for an instance id
    exactly when its node holds a truthy result; a step is in [completed]
    whatever it returned, so a step whose executor resolved to a falsy value
    unblocks its dependents and is left out of [results], which can then be
    shorter than the step list although every step succeeded. *)
Theorem results_omit_falsy :
  (∀ modules moduleExecutors executedAt beyond_model steps results g,
     execute modules moduleExecutors executedAt beyond_model steps
     = Returns results g →
     (∀ k v, (k, v) ∈ results
             ↔ ∃ n, nodes g !! k = Some n ∧ result n = v ∧ truthy v = true)
     ∧ (∀ s, s ∈ steps →
          instanceId s ∈ completed g
          ∧ ∃ n, nodes g !! instanceId s = Some n ∧ step n = s
                 ∧ holds_outcome
                     (step_outcome modules moduleExecutors executedAt
                        beyond_model g s) n)
     ∧ length results ≤ length steps)
  ∧ ∃ g,
      Examples.run Examples.silent
      = Returns [("B", Obj [("input", Null)])] g
      ∧ (∀ s, s ∈ Examples.silent →
           ∃ n, nodes g !! instanceId s = Some n ∧ status n = Completed)
      ∧ dep_result g "A" = Null.
Proof.
  split; [apply results_spec|].
  destruct (Examples.run Examples.silent) as [r g| |] eqn:Hx;
    [|vm_compute in Hx; discriminate..].
  vm_compute in Hx. injection Hx as <- <-.
  eexists. split; [reflexivity|]. split; [|by vm_compute].
  intros s Hs.
  repeat (apply elem_of_cons in Hs as [->|Hs]); [| |by apply elem_of_nil in Hs];
    eexists; split; by vm_compute.
Qed.

Lemma results_omit_falsy_witness :
  ∃ results g,
    Examples.run Examples.silent = Returns results g
    ∧ ∀ k v, (k, v) ∈ results
             ↔ ∃ n, nodes g !! k = Some n ∧ result n = v ∧ truthy v = true.
Proof.
  destruct (Examples.run Examples.silent) as [r g| |] eqn:Hx;
    [|vm_compute in Hx; discriminate..].
  exists r, g. split; [reflexivity|].
  exact (proj1 (proj1 results_omit_falsy Examples.store Examples.executors
                  Examples.clock Examples.no_exotic Examples.silent r g Hx)).
Defined.

Lemma step_failure_is_captured_witness :
  ∃ results g,
    Examples.run Examples.failing = Returns results g
    ∧ ("A", Obj [("status", Str "error");
                 ("error", Str "Module not found: missing")]) ∈ results
    ∧ gatherInputs g (Examples.plain "B" "echo" (Some ["A"]))
      = Normal (Obj [("status", Str "error");
                     ("error", Str "Module not found: missing")]).
Proof.
  destruct (Examples.run Examples.failing) as [r g| |] eqn:Hx;
    [|vm_compute in Hx; discriminate..].
  exists r, g. split; [reflexivity|].
  pose proof (step_failure_is_captured Examples.store Examples.executors
                Examples.clock Examples.no_exotic Examples.failing)
    as (Hnf & _ & _ & _ & _ & Hrun).
  destruct (Hrun r g (Examples.plain "A" "missing" None)
              "Module not found: missing" Hx)
    as (_ & _ & _ & Hres & Hdeps).
  - apply list_elem_of_here.
  - apply Hnf. reflexivity.
  - split; [exact Hres|].
    destruct (Hdeps (Examples.plain "B" "echo" (Some ["A"]))) as (_ & Hone & _).
    + apply list_elem_of_further, list_elem_of_here.
    + apply list_elem_of_here.
    + apply Hone. reflexivity.
Defined.

(** * Properties of the workflow inspector *)

(** ** [forEach] with an index, and statements per step *)

Lemma forEach_from_inv {A St} (f : St → A → nat → St) (P : list A → St → Prop)
    (pre rest : list A) (st : St) :
  P pre st →
  (∀ pre' x st', P pre' st' → P (pre' ++ [x]) (f st' x (length pre'))) →
  P (pre ++ rest) (forEach_from f (length pre) rest st).
Proof.
  intros Hst Hstep. revert pre st Hst.
  induction rest as [|x rest IH]; intros pre st Hst; simpl.
  - by rewrite app_nil_r.
  - replace (pre ++ x :: rest) with ((pre ++ [x]) ++ rest)
      by by rewrite <- app_assoc.
    replace (S (length pre)) with (length (pre ++ [x]))
      by (rewrite length_app; simpl; lia).
    by apply IH, Hstep.
Qed.

Lemma forEach_inv {A St} (f : St → A → nat → St) (P : list A → St → Prop)
    (xs : list A) (st : St) :
  P [] st →
  (∀ pre x st', P pre st' → P (pre ++ [x]) (f st' x (length pre))) →
  P xs (forEach f xs st).
Proof. intros. by apply (forEach_from_inv f P [] xs). Qed.

Lemma per_step_snoc {B} (f : list WorkflowStep → nat → WorkflowStep → list B)
    pre s :
  per_step f (pre ++ [s]) = per_step f pre ++ f pre (length pre) s.
Proof.
  unfold per_step. rewrite imap_app, concat_app. simpl.
  rewrite Nat.add_0_r, take_app_length, app_nil_r. f_equal. f_equal.
  apply imap_ext. intros i x Hi. simpl.
  apply lookup_lt_Some in Hi. by rewrite take_app_le by lia.
Qed.

Lemma per_step_elem {B} (f : list WorkflowStep → nat → WorkflowStep → list B)
    steps (b : B) :
  b ∈ per_step f steps
  ↔ ∃ i s, steps !! i = Some s ∧ b ∈ f (take i steps) i s.
Proof.
  unfold per_step. rewrite list_elem_of_In, in_concat. split.
  - intros (l & Hl%list_elem_of_In & Hb%list_elem_of_In).
    apply list_elem_of_lookup in Hl as [i Hi].
    rewrite list_lookup_imap in Hi.
    destruct (steps !! i) as [s|] eqn:E; [|done].
    simpl in Hi. injection Hi as <-. eauto.
  - intros (i & s & Hi & Hb). exists (f (take i steps) i s).
    split; [|by apply list_elem_of_In].
    apply list_elem_of_In, list_elem_of_lookup. exists i.
    by rewrite list_lookup_imap, Hi.
Qed.

Lemma available_snoc moduleMap pre s ty :
  available moduleMap (pre ++ [s]) ty
  = available moduleMap pre ty || provides moduleMap ty s.
Proof. unfold available. rewrite existsb_app. simpl. by rewrite orb_false_r. Qed.

(** ** [validateDataFlow] *)

Lemma add_outputs_elem module (a : gset string) ty :
  ty ∈ add_outputs module a
  ↔ ty ∈ a ∨ existsb (λ o, bool_decide (type o = ty)) (outputs (io module)) = true.
Proof.
  unfold add_outputs. revert a.
  induction (outputs (io module)) as [|o os IH]; intros a; simpl.
  - naive_solver.
  - rewrite IH, orb_true_iff, bool_decide_eq_true. set_solver.
Qed.

Lemma check_inputs_spec moduleMap pre (a : gset string) index module ins errs warns :
  (∀ ty, ty ∈ a ↔ available moduleMap pre ty = true) →
  foldl (check_input a index module) (errs, warns) ins
  = (errs ++ flat_map (λ input,
                         if is_required input
                            && negb (available moduleMap pre (type input))
                         then [MissingRequiredInput index (type input) (name module)]
                         else []) ins,
     warns ++ flat_map (λ input,
                          if negb (is_required input)
                             && negb (available moduleMap pre (type input))
                          then [OptionalInputUnavailable index (type input)
                                  (name module)]
                          else []) ins).
Proof.
  intros Ha. revert errs warns.
  induction ins as [|input ins IH]; intros errs warns; simpl.
  { by rewrite !app_nil_r. }
  unfold check_input at 2. simpl.
  assert (bool_decide (type input ∉ a)
          = negb (available moduleMap pre (type input))) as ->.
  { destruct (available moduleMap pre (type input)) eqn:E; simpl.
    - apply bool_decide_eq_false. intros Hn. by apply Hn, Ha.
    - apply bool_decide_eq_true. intros Hin%Ha. congruence. }
  destruct (is_required input), (negb (available _ _ _)); simpl;
    rewrite IH; by rewrite <- ?app_assoc.
Qed.

Lemma validateDataFlow_spec steps moduleMap :
  validateDataFlow_log steps moduleMap
  = (per_step (step_errors moduleMap) steps,
     per_step (step_warnings moduleMap) steps).
Proof.
  unfold validateDataFlow_log.
  pose (P := λ (pre : list WorkflowStep)
               (st : list Diagnostic * list Diagnostic * gset string),
             st.1 = (per_step (step_errors moduleMap) pre,
                     per_step (step_warnings moduleMap) pre)
             ∧ ∀ ty, ty ∈ st.2 ↔ available moduleMap pre ty = true).
  assert (P steps (forEach (validateDataFlow_step moduleMap) steps ([], [], ∅)))
    as [H _]; [|done].
  apply forEach_inv.
  - split; [done|]. intros ty. simpl. set_solver.
  - intros pre s [[errs warns] a] [Hst Ha]. simpl in *.
    injection Hst as -> ->.
    unfold validateDataFlow_step, P. simpl.
    rewrite !per_step_snoc. unfold step_errors, step_warnings.
    destruct (moduleMap !! moduleId s) as [module|] eqn:Hm; simpl.
    + rewrite (check_inputs_spec moduleMap pre) by done. split; [done|].
      intros ty. rewrite add_outputs_elem, available_snoc, orb_true_iff, Ha.
      unfold provides. by rewrite Hm.
    + rewrite app_nil_r. split; [done|]. intros ty.
      rewrite available_snoc, Ha. unfold provides. rewrite Hm.
      by rewrite orb_false_r.
Qed.

(** ** [checkMissingDependencies] *)

Lemma checkMissingDependencies_step_spec steps moduleMap pre rest s errs :
  steps = pre ++ rest →
  checkMissingDependencies_step steps moduleMap errs s (length pre)
  = errs ++ step_missing moduleMap pre (length pre) s.
Proof.
  intros ->. unfold checkMissingDependencies_step, step_missing.
  destruct (moduleMap !! moduleId s) as [module|]; [|by rewrite app_nil_r].
  rewrite take_app_length. revert errs.
  induction (inputs (io module)) as [|input ins IHi]; intros errs; simpl.
  { by rewrite app_nil_r. }
  rewrite IHi. unfold available.
  destruct (is_required input),
           (existsb (provides moduleMap (type input)) pre); simpl;
    by rewrite <- ?app_assoc.
Qed.

Lemma checkMissingDependencies_from steps moduleMap pre rest :
  steps = pre ++ rest →
  forEach_from (checkMissingDependencies_step steps moduleMap) (length pre) rest
    (per_step (step_missing moduleMap) pre)
  = per_step (step_missing moduleMap) steps.
Proof.
  (* the body reads [steps] itself, so the prefix is cut from the full list *)
  revert pre. induction rest as [|s rest IH]; intros pre Hsteps; simpl.
  { by rewrite Hsteps, app_nil_r. }
  replace (S (length pre)) with (length (pre ++ [s]))
    by (rewrite length_app; simpl; lia).
  rewrite <- (IH (pre ++ [s])) by by rewrite <- app_assoc.
  f_equal. rewrite per_step_snoc.
  by apply (checkMissingDependencies_step_spec steps moduleMap pre (s :: rest)).
Qed.

Lemma checkMissingDependencies_spec steps moduleMap :
  checkMissingDependencies_log steps moduleMap
  = per_step (step_missing moduleMap) steps.
Proof. by apply (checkMissingDependencies_from steps moduleMap [] steps). Qed.

(** ** Substrings of the rendered messages *)

Lemma prefix_app n b : String.prefix n (n +:+ b) = true.
Proof.
  induction n as [|a n IH]; [by destruct b|].
  change (String a n +:+ b) with (String a (n +:+ b)). simpl.
  by destruct (Ascii.ascii_dec a a).
Qed.

Lemma includes_unfold h n :
  includes h n
  = String.prefix n h
    || match h with
       | EmptyString => false
       | String _ h' => includes h' n
       end.
Proof. by destruct h. Qed.

Lemma includes_prefix h n : String.prefix n h = true → includes h n = true.
Proof. intros H. by rewrite includes_unfold, H. Qed.

Lemma includes_app_l a h n :
  includes h n = true → includes (a +:+ h) n = true.
Proof.
  intros H. induction a as [|c a IH]; [done|].
  change (String c a +:+ h) with (String c (a +:+ h)).
  rewrite includes_unfold, IH. apply orb_true_r.
Qed.

Lemma includes_mid a n b : includes (a +:+ n +:+ b) n = true.
Proof. apply includes_app_l, includes_prefix, prefix_app. Qed.

Lemma render_missing_required_type index ty n :
  includes (render (MissingRequiredInput index ty n)) ty = true.
Proof. unfold render. do 2 apply includes_app_l. apply includes_mid. Qed.

Lemma render_missing_required_text index ty n :
  includes (render (MissingRequiredInput index ty n)) "Missing required input"
  = true.
Proof.
  unfold render. do 2 apply includes_app_l.
  change (": Missing required input '" +:+ ty +:+ "' for module '" +:+ n +:+ "'")
    with (": " +:+ "Missing required input" +:+ " '" +:+ ty +:+ "' for module '"
            +:+ n +:+ "'").
  apply includes_mid.
Qed.

(** ** The validator *)

Lemma validateWorkflow_errors steps modules :
  errors (validateWorkflow steps modules)
  = (render <$> per_step (step_errors (build_moduleMap modules)) steps)
    ++ (render <$> per_step (step_missing (build_moduleMap modules)) steps).
Proof.
  unfold validateWorkflow, validateDataFlow, checkMissingDependencies. simpl.
  by rewrite validateDataFlow_spec, checkMissingDependencies_spec.
Qed.

Lemma isValid_iff steps modules :
  isValid (validateWorkflow steps modules) = true
  ↔ errors (validateWorkflow steps modules) = [].
Proof.
  unfold validateWorkflow. simpl. rewrite bool_decide_eq_true.
  apply length_zero_iff_nil.
Qed.

Lemma unmet_required_input_error steps moduleMap i s module input :
  steps !! i = Some s →
  moduleMap !! moduleId s = Some module →
  input ∈ inputs (io module) →
  is_required input = true →
  (∀ j p, j < i → steps !! j = Some p → provides moduleMap (type input) p = false) →
  MissingRequiredInput i (type input) (name module)
  ∈ per_step (step_errors moduleMap) steps.
Proof.
  intros Hs Hm Hin Hreq Hprev. apply per_step_elem. exists i, s.
  split; [done|]. unfold step_errors. rewrite Hm.
  apply list_elem_of_In, in_flat_map. exists input.
  split; [by apply list_elem_of_In|].
  assert (available moduleMap (take i steps) (type input) = false) as ->.
  { unfold available. destruct (existsb _ _) eqn:E; [|done].
    apply existsb_exists in E as (p & Hp%list_elem_of_In & Hprov).
    apply list_elem_of_lookup in Hp as [j Hj].
    apply lookup_take_Some in Hj as [Hj Hlt].
    by rewrite (Hprev j p Hlt Hj) in Hprov. }
  rewrite Hreq. simpl. by left.
Qed.

(** C6. [validateWorkflow] walks the steps in order with a set of available
    dataTypes that is empty at the start and holds, at each step, the
    outputs of the steps strictly before it: an unknown module yields one
    error and no input check; a required input that is not available
    yields an error; an optional one a warning; [isValid] holds exactly
    when [errors] is empty; and a step that requires a dataType which no
    prior step outputs yields an error containing that dataType. *)
Theorem validateWorkflow_forward_data_flow steps modules :
  let moduleMap := build_moduleMap modules in
  let v := validateWorkflow steps modules in
  validateDataFlow steps moduleMap
  = (render <$> per_step (step_errors moduleMap) steps,
     render <$> per_step (step_warnings moduleMap) steps)
  ∧ errors v
    = (render <$> per_step (step_errors moduleMap) steps)
      ++ (render <$> per_step (step_missing moduleMap) steps)
  ∧ (∀ w, w ∈ render <$> per_step (step_warnings moduleMap) steps →
          w ∈ warnings v)
  ∧ (isValid v = true ↔ errors v = [])
  ∧ (∀ i s module input,
       steps !! i = Some s →
       moduleMap !! moduleId s = Some module →
       input ∈ inputs (io module) →
       is_required input = true →
       (∀ j p, j < i → steps !! j = Some p →
               provides moduleMap (type input) p = false) →
       ∃ e, e ∈ errors v ∧ includes e (type input) = true).
Proof.
  intros moduleMap v. split_and!.
  - unfold validateDataFlow. by rewrite validateDataFlow_spec.
  - apply validateWorkflow_errors.
  - intros w Hw. subst v. unfold validateWorkflow, validateDataFlow. simpl.
    rewrite validateDataFlow_spec. simpl. set_solver.
  - apply isValid_iff.
  - intros i s module input Hs Hm Hin Hreq Hprev.
    exists (render (MissingRequiredInput i (type input) (name module))).
    split; [|apply render_missing_required_type].
    subst v. rewrite validateWorkflow_errors. apply elem_of_app. left.
    apply list_elem_of_fmap_2. by eapply unmet_required_input_error.
Qed.

Lemma validateWorkflow_forward_data_flow_witness :
  ∃ e, e ∈ errors (validateWorkflow Examples.quote_only Examples.catalog)
       ∧ includes e "products" = true.
Proof.
  destruct (validateWorkflow_forward_data_flow Examples.quote_only
              Examples.catalog) as (_ & _ & _ & _ & H).
  apply (H 0 (Examples.plain "q" "quotation" None)
           {| id := "quotation"; name := "New and Revised Quotation";
              io := {| inputs := [Examples.dt "products" (Some true);
                                  Examples.dt "customers" None];
                       outputs := [Examples.dt "quotes" None] |};
              category := communication |}
           (Examples.dt "products" (Some true))).
  - reflexivity.
  - vm_compute. reflexivity.
  - apply list_elem_of_here.
  - reflexivity.
  - intros j p Hj. lia.
Defined.

(** ** The two diagnostics of missing inputs *)

Lemma flagged_app ds1 ds2 : flagged (ds1 ++ ds2) = flagged ds1 ++ flagged ds2.
Proof. unfold flagged. apply omap_app. Qed.

Lemma flagged_step moduleMap pre index s :
  flagged (step_errors moduleMap pre index s)
  = flagged (step_missing moduleMap pre index s).
Proof.
  unfold step_errors, step_missing.
  destruct (moduleMap !! moduleId s) as [module|]; [|done].
  induction (inputs (io module)) as [|input ins IH]; [done|]. simpl.
  rewrite !flagged_app, IH. f_equal.
  by destruct (is_required input && negb (available moduleMap pre (type input))).
Qed.

Lemma flagged_per_step f g steps :
  (∀ pre index s, flagged (f pre index s) = flagged (g pre index s)) →
  flagged (per_step f steps) = flagged (per_step g steps).
Proof.
  intros Hfg. induction steps as [|s steps IH] using rev_ind; [done|].
  by rewrite !per_step_snoc, !flagged_app, IH, Hfg.
Qed.

Lemma flagged_agree steps moduleMap :
  flagged (validateDataFlow_log steps moduleMap).1
  = flagged (checkMissingDependencies_log steps moduleMap).
Proof.
  rewrite validateDataFlow_spec, checkMissingDependencies_spec. simpl.
  apply flagged_per_step, flagged_step.
Qed.

(** C7, as amended. For every step list and capability list,
    [validateDataFlow] and [checkMissingDependencies] flag the same
    (step index, required input dataType) pairs, in the same order. *)
Theorem diagnostics_flag_same_inputs steps modules :
  flagged (validateDataFlow_log steps (build_moduleMap modules)).1
  = flagged (checkMissingDependencies_log steps (build_moduleMap modules)).
Proof. apply flagged_agree. Qed.

(** C7, as stated, fails: no step list and capability list, with or
    without a dataType produced by several steps, makes the two
    diagnostics flag different sets of pairs. *)
Lemma no_inconsistent_error_sets :
  ¬ ∃ steps modules,
      (∃ i j ty, i ≠ j
                 ∧ from_option (provides (build_moduleMap modules) ty) false
                     (steps !! i) = true
                 ∧ from_option (provides (build_moduleMap modules) ty) false
                     (steps !! j) = true)
      ∧ (list_to_set
           (flagged (validateDataFlow_log steps (build_moduleMap modules)).1)
         : gset (nat * string))
        ≠ list_to_set
            (flagged (checkMissingDependencies_log steps (build_moduleMap modules))).
Proof.
  intros (steps & modules & _ & Hne). apply Hne. by rewrite flagged_agree.
Qed.

(** ** [buildDependencyGraph] *)

Lemma filter_ext_elem {A} (P Q : A → Prop) `{∀ x, Decision (P x)}
    `{∀ x, Decision (Q x)} (l : list A) :
  (∀ x, x ∈ l → P x ↔ Q x) → filter P l = filter Q l.
Proof.
  induction l as [|x l IH]; intros Hl; [done|].
  rewrite !filter_cons, IH by (intros; apply Hl; set_solver).
  destruct (decide (P x)) as [HP|HP], (decide (Q x)) as [HQ|HQ]; try done;
    exfalso; apply (Hl x) in HP || apply (Hl x) in HQ; set_solver.
Qed.

Lemma providers_snoc moduleMap pre s ty :
  providers moduleMap (pre ++ [s]) ty
  = providers moduleMap pre ty
    ++ (if provides moduleMap ty s then [length pre] else []).
Proof.
  unfold providers. rewrite length_app. simpl.
  rewrite Nat.add_1_r, seq_S, filter_app. simpl. f_equal.
  - apply filter_ext_elem. intros j Hj%elem_of_seq.
    by rewrite lookup_app_l by lia.
  - rewrite filter_cons, filter_nil.
    rewrite lookup_app_r, Nat.sub_diag by lia. simpl.
    destruct (provides moduleMap ty s); by case_decide.
Qed.

Lemma latest_provider_snoc moduleMap pre s ty :
  latest_provider moduleMap (pre ++ [s]) ty
  = if provides moduleMap ty s then Some (length pre)
    else latest_provider moduleMap pre ty.
Proof.
  unfold latest_provider. rewrite providers_snoc.
  destruct (provides moduleMap ty s); [apply last_snoc|by rewrite app_nil_r].
Qed.

(** The provider named by [latest_provider] is the last one. *)
Lemma latest_provider_spec moduleMap pre ty j :
  latest_provider moduleMap pre ty = Some j →
  (∃ p, pre !! j = Some p ∧ provides moduleMap ty p = true)
  ∧ ∀ j' p', j < j' → pre !! j' = Some p' → provides moduleMap ty p' = false.
Proof.
  revert j. induction pre as [|s pre IH] using rev_ind; intros j; [done|].
  rewrite latest_provider_snoc.
  destruct (provides moduleMap ty s) eqn:E.
  - intros [= <-]. split.
    + exists s. split; [|done]. by rewrite lookup_app_r, Nat.sub_diag by lia.
    + intros j' p' Hlt Hj'. apply lookup_lt_Some in Hj'.
      rewrite length_app in Hj'. simpl in Hj'. lia.
  - intros Hj. destruct (IH j Hj) as [(p & Hp & Hprov) Hlater]. split.
    + exists p. split; [|done]. apply lookup_app_l_Some. done.
    + intros j' p' Hlt Hj'.
      apply lookup_app_Some in Hj' as [Hj'|[Hge Hj']]; [by eapply Hlater|].
      apply list_lookup_singleton_Some in Hj' as [_ <-]. done.
Qed.

Lemma dependency_entries_spec (availableData : gmap string nat) choose ins acc :
  (∀ ty, availableData !! ty = choose ty) →
  foldl (dependency_entry availableData) acc ins
  = acc ++ flat_map (λ input, dependency_line (choose (type input)) input) ins.
Proof.
  intros Ha. revert acc.
  induction ins as [|input ins IH]; intros acc; simpl.
  { by rewrite app_nil_r. }
  rewrite IH. unfold dependency_entry, dependency_line. rewrite Ha.
  destruct (choose (type input)); [|destruct (is_required input)];
    by rewrite <- ?app_assoc, ?app_nil_r.
Qed.

Lemma mark_outputs_lookup (availableData : gmap string nat) outs index ty :
  foldl (λ a output, <[type output := index]> a) availableData outs !! ty
  = if existsb (λ o, bool_decide (type o = ty)) outs then Some index
    else availableData !! ty.
Proof.
  revert availableData.
  induction outs as [|o outs IH]; intros availableData; simpl; [done|].
  rewrite IH. destruct (existsb _ outs); [by rewrite orb_true_r|].
  rewrite orb_false_r. case_bool_decide as E.
  - by rewrite E, lookup_insert_eq.
  - by rewrite lookup_insert_ne.
Qed.

Lemma buildDependencyGraph_spec steps moduleMap :
  buildDependencyGraph steps moduleMap
  = per_step (dependency_node (latest_provider moduleMap) moduleMap) steps.
Proof.
  unfold buildDependencyGraph.
  pose (P := λ (pre : list WorkflowStep)
               (st : list DependencyNode * gmap string nat),
             st.1 = per_step (dependency_node (latest_provider moduleMap)
                                moduleMap) pre
             ∧ ∀ ty, st.2 !! ty = latest_provider moduleMap pre ty).
  assert (P steps (forEach (buildDependencyGraph_step moduleMap) steps ([], ∅)))
    as [H _]; [|done].
  apply forEach_inv.
  - split; [done|]. intros ty. apply lookup_empty.
  - intros pre s [graph a] [Hg Ha]. simpl in *. subst graph.
    unfold buildDependencyGraph_step, P. simpl.
    rewrite per_step_snoc. unfold dependency_node.
    destruct (moduleMap !! moduleId s) as [module|] eqn:Hm; simpl.
    + rewrite (dependency_entries_spec a (latest_provider moduleMap pre))
        by done.
      split; [done|]. intros ty.
      rewrite mark_outputs_lookup, latest_provider_snoc, Ha.
      unfold provides. by rewrite Hm.
    + rewrite app_nil_r. split; [done|]. intros ty.
      rewrite latest_provider_snoc, Ha. unfold provides. by rewrite Hm.
Qed.

(** C8, as amended. [dependencyGraph] has one entry per step whose module
    is known (the others are skipped); the entry of a step records, for
    each input of type [T] of its module, [T from step j] when some prior
    step outputs [T], [j] being the latest such step, otherwise
    [Missing required input: T] when the input is required, and nothing
    when it is optional. *)
Theorem dependencyGraph_latest_provider steps modules :
  let moduleMap := build_moduleMap modules in
  dependencyGraph (validateWorkflow steps modules)
  = buildDependencyGraph steps moduleMap
  ∧ buildDependencyGraph steps moduleMap
    = per_step (dependency_node (latest_provider moduleMap) moduleMap) steps
  ∧ ∀ pre ty j,
      latest_provider moduleMap pre ty = Some j →
      (∃ p, pre !! j = Some p ∧ provides moduleMap ty p = true)
      ∧ ∀ j' p', j < j' → pre !! j' = Some p' →
                 provides moduleMap ty p' = false.
Proof.
  intros moduleMap. split_and!.
  - done.
  - apply buildDependencyGraph_spec.
  - apply latest_provider_spec.
Qed.

Lemma dependencyGraph_latest_provider_witness :
  latest_provider (build_moduleMap Examples.catalog) (take 2 Examples.shadowed)
    "products" = Some 1
  ∧ ∃ p, take 2 Examples.shadowed !! 1 = Some p
         ∧ provides (build_moduleMap Examples.catalog) "products" p = true.
Proof.
  assert (latest_provider (build_moduleMap Examples.catalog)
            (take 2 Examples.shadowed) "products" = Some 1) as H
    by (vm_compute; reflexivity).
  split; [exact H|].
  exact (proj1 (proj2 (proj2 (dependencyGraph_latest_provider
                                Examples.shadowed Examples.catalog))
                  (take 2 Examples.shadowed) "products" 1 H)).
Defined.

(** C8, as stated, fails: with two producers of [products] before a
    consumer the entry names step 1, not the earliest provider, step 0;
    and a step whose module is unknown gets no entry. *)
Lemma dependencyGraph_provider_not_earliest :
  dn_dependencies
    <$> buildDependencyGraph Examples.shadowed (build_moduleMap Examples.catalog)
  = [[]; ["products from step 0"]; ["products from step 1"]]
  ∧ earliest_provider (build_moduleMap Examples.catalog)
      (take 2 Examples.shadowed) "products" = Some 0
  ∧ buildDependencyGraph Examples.shadowed (build_moduleMap Examples.catalog)
    ≠ dependencyGraph_earliest Examples.shadowed
        (build_moduleMap Examples.catalog)
  ∧ length (buildDependencyGraph Examples.unknown
              (build_moduleMap Examples.catalog))
    ≠ length Examples.unknown.
Proof.
  split_and!; [by vm_compute..| |by vm_compute].
  intros H. apply (f_equal (fmap dn_dependencies)) in H.
  vm_compute in H. discriminate.
Qed.

(** ** [autoFixWorkflowWithHumanModules] *)

Lemma manual_inputs_app l1 l2 :
  manual_inputs (l1 ++ l2) = manual_inputs l1 + manual_inputs l2.
Proof. unfold manual_inputs. by rewrite filter_app, length_app. Qed.

Lemma approval_loop_spec now moduleMap done_ todo changes ticks :
  let r := approval_loop now moduleMap done_ todo changes ticks in
  (∃ extra, r.1.1 = done_ ++ extra)
  ∧ length (done_ ++ todo) ≤ length r.1.1
  ∧ manual_inputs r.1.1 = manual_inputs (done_ ++ todo).
Proof.
  revert done_ changes ticks.
  induction todo as [|cur todo IH]; intros done_ changes ticks; simpl.
  { split_and!; [exists []|..]; by rewrite app_nil_r. }
  assert (∀ ch tk,
    let r := approval_loop now moduleMap (done_ ++ [cur]) todo ch tk in
    (∃ extra, r.1.1 = done_ ++ extra)
    ∧ length (done_ ++ cur :: todo) ≤ length r.1.1
    ∧ manual_inputs r.1.1 = manual_inputs (done_ ++ cur :: todo)) as Hkeep.
  { intros ch tk. destruct (IH (done_ ++ [cur]) ch tk) as ([extra He] & Hl & Hm).
    rewrite <- !app_assoc in *. simpl in *. split_and!; [|done..].
    exists (cur :: extra). by rewrite He. }
  case_bool_decide as Hrisk; [|apply Hkeep].
  destruct (match last done_ with
            | Some prev => bool_decide (moduleId prev = "human-decision")
            | None => false
            end); [apply Hkeep|].
  set (d := decisionStep _ _ _).
  destruct (IH (done_ ++ [d; cur])
              (changes ++ ["Added " +:+ quoted "Human Decision"
                             +:+ " approval checkpoint before "
                             +:+ name_or_this_operation moduleMap (moduleId cur)])
              (S ticks)) as ([extra He] & Hl & Hm).
  split_and!.
  - exists (d :: cur :: extra). rewrite He, <- app_assoc. done.
  - etrans; [|exact Hl]. rewrite !length_app. simpl. lia.
  - rewrite Hm. unfold manual_inputs. rewrite <- app_assoc.
    change ([d; cur] ++ todo) with ([d] ++ cur :: todo).
    rewrite !filter_app, (filter_cons_False _ d) by done. done.
Qed.

Lemma approval_loop_manual now moduleMap t steps changes ticks :
  approval_loop now moduleMap [] (manualInputStep t :: steps) changes ticks
  = approval_loop now moduleMap [manualInputStep t] steps changes ticks.
Proof. reflexivity. Qed.

Lemma autoFix_prepends now steps modules :
  isValid (validateWorkflow steps modules) = false →
  (∃ e, e ∈ errors (validateWorkflow steps modules)
        ∧ matches_missing_data e = true) →
  ∃ fixedSteps changes rest,
    autoFixWorkflowWithHumanModules now steps modules
    = Normal (fixedSteps, changes)
    ∧ fixedSteps = manualInputStep (now 0) :: rest
    ∧ length steps < length fixedSteps
    ∧ manual_inputs fixedSteps = S (manual_inputs steps).
Proof.
  intros Hinvalid (e & He & Hmatch).
  unfold autoFixWorkflowWithHumanModules. rewrite Hinvalid.
  assert (nonempty (filter (λ e, matches_missing_data e = true)
                      (errors (validateWorkflow steps modules))) = true) as ->.
  { assert (e ∈ filter (λ e, matches_missing_data e = true)
                  (errors (validateWorkflow steps modules))) as Hin
      by by apply list_elem_of_filter.
    by destruct (filter _ _); [apply elem_of_nil in Hin|]. }
  cbn [fst snd]. rewrite approval_loop_manual.
  set (m := manualInputStep (now 0)).
  match goal with
  | |- context [approval_loop now ?mm [m] steps ?ch ?tk] =>
      destruct (approval_loop_spec now mm [m] steps ch tk)
        as ([extra He'] & Hlen & Hman);
      set (r := approval_loop now mm [m] steps ch tk) in *
  end.
  assert (manual_inputs (m :: steps) = S (manual_inputs steps)) as Hm
    by (unfold manual_inputs; by rewrite filter_cons_True).
  rewrite He' in *. change ([m] ++ extra) with (m :: extra) in *.
  change ([m] ++ steps) with (m :: steps) in *.
  rewrite Hm in Hman. simpl in Hlen.
  destruct (last (m :: extra)) as [lastStep|] eqn:Hlast;
    [|by apply last_None in Hlast].
  destruct (_ && _).
  - exists ((m :: extra) ++ [finalDecisionStep (now r.2)]). eexists _, _.
    split; [done|]. split_and!; [done| |].
    + rewrite length_app. simpl. lia.
    + rewrite manual_inputs_app, Hman. simpl.
      change (manual_inputs [finalDecisionStep (now r.2)]) with 0. lia.
  - exists (m :: extra). eexists _, _. split; [done|].
    split_and!; [done| |done]. simpl. lia.
Qed.

Lemma first_step_unmet steps modules s rest module input :
  steps = s :: rest →
  build_moduleMap modules !! moduleId s = Some module →
  input ∈ inputs (io module) →
  is_required input = true →
  isValid (validateWorkflow steps modules) = false
  ∧ ∃ e, e ∈ errors (validateWorkflow steps modules)
         ∧ matches_missing_data e = true.
Proof.
  intros -> Hm Hin Hreq.
  assert (render (MissingRequiredInput 0 (type input) (name module))
          ∈ errors (validateWorkflow (s :: rest) modules)) as He.
  { rewrite validateWorkflow_errors. apply elem_of_app. left.
    apply list_elem_of_fmap_2.
    apply (unmet_required_input_error (s :: rest) _ 0 s module input);
      [done..|]. intros j p Hj. lia. }
  split.
  - destruct (isValid _) eqn:E; [|done].
    apply isValid_iff in E. rewrite E in He. by apply elem_of_nil in He.
  - eexists. split; [exact He|]. unfold matches_missing_data.
    by rewrite render_missing_required_text.
Qed.

(** C9. [autoFixWorkflowWithHumanModules] runs the validator first and
    returns the steps unchanged, with no change note, when the workflow is
    valid; otherwise, when some error message matches, it prepends exactly
    one synthetic manual-input step; so for a workflow whose first step
    requires an input, [fixedSteps] is strictly longer than the input list
    and starts with the synthetic manual-input step. *)
Theorem autoFix_manual_input now steps modules :
  (isValid (validateWorkflow steps modules) = true →
   autoFixWorkflowWithHumanModules now steps modules = Normal (steps, []))
  ∧ (isValid (validateWorkflow steps modules) = false →
     (∃ e, e ∈ errors (validateWorkflow steps modules)
           ∧ matches_missing_data e = true) →
     ∃ fixedSteps changes rest,
       autoFixWorkflowWithHumanModules now steps modules
       = Normal (fixedSteps, changes)
       ∧ fixedSteps = manualInputStep (now 0) :: rest
       ∧ length steps < length fixedSteps
       ∧ manual_inputs fixedSteps = S (manual_inputs steps))
  ∧ (∀ s others module input,
       steps = s :: others →
       build_moduleMap modules !! moduleId s = Some module →
       input ∈ inputs (io module) →
       is_required input = true →
       ∃ fixedSteps changes rest,
         autoFixWorkflowWithHumanModules now steps modules
         = Normal (fixedSteps, changes)
         ∧ fixedSteps = manualInputStep (now 0) :: rest
         ∧ length steps < length fixedSteps
         ∧ manual_inputs fixedSteps = S (manual_inputs steps)).
Proof.
  split_and!.
  - intros Hvalid. unfold autoFixWorkflowWithHumanModules. by rewrite Hvalid.
  - apply autoFix_prepends.
  - intros s others module input Hsteps Hm Hin Hreq.
    destruct (first_step_unmet steps modules s others module input)
      as [Hinvalid Herr]; [done..|].
    by apply autoFix_prepends.
Qed.

Lemma autoFix_manual_input_witness :
  ∃ fixedSteps changes rest,
    autoFixWorkflowWithHumanModules Examples.frozen Examples.quote_only
      Examples.catalog
    = Normal (fixedSteps, changes)
    ∧ fixedSteps = manualInputStep (Examples.frozen 0) :: rest
    ∧ length Examples.quote_only < length fixedSteps
    ∧ manual_inputs fixedSteps = S (manual_inputs Examples.quote_only).
Proof.
  apply (proj2 (proj2 (autoFix_manual_input Examples.frozen Examples.quote_only
                         Examples.catalog))
           (Examples.plain "q" "quotation" None) []
           {| id := "quotation"; name := "New and Revised Quotation";
              io := {| inputs := [Examples.dt "products" (Some true);
                                  Examples.dt "customers" None];
                       outputs := [Examples.dt "quotes" None] |};
              category := communication |}
           (Examples.dt "products" (Some true))).
  - reflexivity.
  - vm_compute. reflexivity.
  - apply list_elem_of_here.
  - reflexivity.
Defined.

(** * Properties of [analyzeParallelism] *)

(** ** Lists as ordered sets *)

Lemma filter_all {A} (P : A → Prop) `{∀ x, Decision (P x)} (l : list A) :
  (∀ x, x ∈ l → P x) → filter P l = l.
Proof.
  induction l as [|x l IH]; intros Hl; [done|].
  rewrite filter_cons_True by (apply Hl; set_solver).
  f_equal. apply IH. intros; apply Hl; set_solver.
Qed.

Lemma filter_none {A} (P : A → Prop) `{∀ x, Decision (P x)} (l : list A) :
  (∀ x, x ∈ l → ¬ P x) → filter P l = [].
Proof.
  induction l as [|x l IH]; intros Hl; [done|].
  rewrite filter_cons_False by (apply Hl; set_solver).
  apply IH. intros; apply Hl; set_solver.
Qed.

Lemma filter_remove_length (l : list string) x :
  NoDup l →
  length (filter (λ d, d ≠ x) l)
  = if decide (x ∈ l) then pred (length l) else length l.
Proof.
  induction l as [|y l IH]; intros Hnd; [done|].
  apply NoDup_cons in Hnd as [Hy Hnd]. specialize (IH Hnd).
  destruct (decide (y = x)) as [->|Hne].
  - rewrite filter_cons_False by naive_solver.
    rewrite decide_True by set_solver.
    rewrite decide_False in IH by done. done.
  - rewrite filter_cons_True by done. simpl. rewrite IH.
    destruct (decide (x ∈ l)) as [Hin|Hin].
    + rewrite decide_True by set_solver. destruct l; [by apply elem_of_nil in Hin|done].
    + rewrite decide_False by set_solver. done.
Qed.

Lemma ordered_set_snoc l x :
  ordered_set (l ++ [x])
  = if decide (x ∈ ordered_set l) then ordered_set l else ordered_set l ++ [x].
Proof. unfold ordered_set. by rewrite foldl_app. Qed.

Lemma ordered_set_unique l : NoDup l → ordered_set l = l.
Proof.
  induction l as [|x l IH] using rev_ind; intros Hnd; [done|].
  apply NoDup_app in Hnd as (Hnd & Hdisj & _).
  rewrite ordered_set_snoc, IH by done.
  case_decide as Hin; [|done]. destruct (Hdisj x Hin). set_solver.
Qed.

Lemma ordered_set_length l : length (ordered_set l) ≤ length l.
Proof.
  induction l as [|x l IH] using rev_ind; [done|].
  rewrite ordered_set_snoc, length_app. simpl.
  case_decide; [lia|]. rewrite length_app. simpl. lia.
Qed.

(** ** The loop ends *)

Lemma remove_steps_remaining steps level st :
  (foldl (remove_step steps) st level).1 = filter (λ k, k ∉ level) st.1.
Proof.
  revert st. induction level as [|x level IH]; intros st; simpl.
  - symmetry. apply filter_all. intros k _. apply not_elem_of_nil.
  - rewrite IH. simpl. rewrite list_filter_filter.
    apply filter_ext_elem. intros k _. set_solver.
Qed.

Lemma levels_loop_total steps fuel remaining inDegree acc :
  length remaining < fuel →
  is_Some (levels_loop fuel steps remaining inDegree acc).
Proof.
  revert remaining inDegree acc.
  induction fuel as [|fuel IH]; intros remaining inDegree acc Hfuel; [lia|].
  simpl. destruct remaining as [|k0 remaining0] eqn:Hrem; [by eexists|].
  rewrite <- Hrem in *. clear Hrem.
  destruct (filter _ remaining) as [|x level] eqn:Hlevel; [by eexists|].
  apply IH. rewrite remove_steps_remaining. simpl.
  assert (x ∈ remaining) as Hx.
  { assert (x ∈ filter (λ k, inDegree !! k = Some 0) remaining) as Hin
      by (rewrite Hlevel; set_solver).
    by apply list_elem_of_filter in Hin as [_ ?]. }
  pose proof (length_filter (λ k, k ∉ level)
                (filter (λ k, k ≠ x) remaining)) as Hle.
  pose proof (length_filter_lt (λ k, k ≠ x) remaining x Hx) as Hlt.
  specialize (Hlt ltac:(naive_solver)). lia.
Qed.

Lemma analyzeParallelism_total steps : is_Some (analyzeParallelism steps).
Proof.
  unfold analyzeParallelism.
  destruct (levels_loop_total steps (S (length steps))
              (ordered_set (instanceId <$> steps)) (initial_inDegree steps) [])
    as [lvls ->]; [|by eexists].
  pose proof (ordered_set_length (instanceId <$> steps)) as H.
  rewrite length_fmap in H. lia.
Qed.

(** ** The in-degree map counts the dependencies that are not placed yet *)

Lemma deps_of_unique steps s :
  unique_ids steps → s ∈ steps → deps_of steps (instanceId s) = deps s.
Proof.
  unfold unique_ids, deps_of.
  induction steps as [|s0 steps IH]; intros Hnd Hin; [by apply elem_of_nil in Hin|].
  rewrite fmap_cons in Hnd. apply NoDup_cons in Hnd as [Hs0 Hnd]. simpl.
  case_bool_decide as Heq.
  - apply elem_of_cons in Hin as [->|Hin]; [done|].
    destruct Hs0. rewrite Heq. by apply list_elem_of_fmap_2.
  - apply elem_of_cons in Hin as [->|Hin]; [done|]. by apply IH.
Qed.

Lemma initial_inDegree_lookup steps s :
  unique_ids steps → s ∈ steps →
  initial_inDegree steps !! instanceId s = Some (length (deps s)).
Proof.
  unfold unique_ids, initial_inDegree.
  induction steps as [|s0 steps IH] using rev_ind; intros Hnd Hin;
    [by apply elem_of_nil in Hin|].
  rewrite fmap_app in Hnd. apply NoDup_app in Hnd as (Hnd & Hdisj & _).
  rewrite foldl_app. simpl.
  apply elem_of_app in Hin as [Hin| ->%list_elem_of_singleton].
  - rewrite lookup_insert_ne; [by apply IH|].
    intros Heq. apply (Hdisj (instanceId s)); [|rewrite <- Heq; set_solver].
    by apply list_elem_of_fmap_2.
  - by rewrite lookup_insert_eq.
Qed.

Lemma decrement_fold steps (cond : WorkflowStep → bool) (deg : gmap string nat) :
  unique_ids steps →
  let deg' := foldl (λ d s, if cond s then decrement (instanceId s) d else d)
                deg steps in
  (∀ s, s ∈ steps →
        deg' !! instanceId s
        = if cond s
          then Some (match deg !! instanceId s with Some (S n) => n | _ => 0 end)
          else deg !! instanceId s)
  ∧ (∀ k, k ∉ instanceId <$> steps → deg' !! k = deg !! k).
Proof.
  unfold unique_ids.
  induction steps as [|s0 steps IH] using rev_ind; intros Hnd; simpl.
  { split; [|done]. intros s Hs. by apply elem_of_nil in Hs. }
  rewrite fmap_app in Hnd. apply NoDup_app in Hnd as (Hnd & Hdisj & _).
  destruct (IH Hnd) as [Hin Hout]. rewrite foldl_app. simpl.
  assert (instanceId s0 ∉ instanceId <$> steps) as Hs0.
  { intros H. apply (Hdisj _ H). set_solver. }
  split.
  - intros s [Hs| ->%list_elem_of_singleton]%elem_of_app.
    + assert (instanceId s0 ≠ instanceId s) as Hne.
      { intros Heq. apply Hs0. rewrite Heq. by apply list_elem_of_fmap_2. }
      destruct (cond s0); [|by apply Hin].
      unfold decrement. rewrite lookup_insert_ne by done. by apply Hin.
    + destruct (cond s0); [|by apply Hout].
      unfold decrement. rewrite lookup_insert_eq. by rewrite Hout.
  - intros k Hk. rewrite fmap_app in Hk.
    destruct (cond s0); [|apply Hout; set_solver].
    unfold decrement. rewrite lookup_insert_ne by set_solver.
    apply Hout. set_solver.
Qed.

Lemma unplaced_deps_snoc steps placed x k :
  unplaced_deps steps (placed ++ [x]) k
  = filter (λ d, d ≠ x) (unplaced_deps steps placed k).
Proof.
  unfold unplaced_deps. rewrite list_filter_filter.
  apply filter_ext_elem. intros d _. set_solver.
Qed.

Lemma remove_step_inv steps placed rem (deg : gmap string nat) x :
  unique_ids steps → (∀ s, s ∈ steps → NoDup (deps s)) →
  (∀ k, k ∈ rem → k ∈ instanceId <$> steps) →
  x ∉ placed →
  (∀ k, k ∈ rem → deg !! k = Some (length (unplaced_deps steps placed k))) →
  ∀ k, k ∈ (remove_step steps (rem, deg) x).1 →
       (remove_step steps (rem, deg) x).2 !! k
       = Some (length (unplaced_deps steps (placed ++ [x]) k)).
Proof.
  intros Hu Hnd Hids Hx Hdeg k Hk. unfold remove_step in *. simpl in *.
  pose proof Hk as [Hkx Hkrem]%list_elem_of_filter.
  pose proof (Hids k Hkrem) as (s & -> & Hs)%list_elem_of_fmap.
  edestruct (decrement_fold steps) as [Hin _]; [done|].
  rewrite (Hin s Hs). clear Hin.
  rewrite (bool_decide_eq_true_2 _ Hk), andb_true_r, (Hdeg _ Hkrem).
  assert (NoDup (unplaced_deps steps placed (instanceId s))) as Hund.
  { apply NoDup_filter. rewrite deps_of_unique by done. by apply Hnd. }
  rewrite unplaced_deps_snoc, filter_remove_length by done.
  unfold unplaced_deps in *. rewrite !deps_of_unique in * by done.
  case_bool_decide as Hdep.
  - rewrite decide_True by by apply list_elem_of_filter.
    by destruct (length _).
  - rewrite decide_False; [done|].
    intros [_ ?]%list_elem_of_filter. done.
Qed.

Lemma remove_level_inv steps level placed rem (deg : gmap string nat) :
  unique_ids steps → (∀ s, s ∈ steps → NoDup (deps s)) →
  (∀ k, k ∈ rem → k ∈ instanceId <$> steps) →
  NoDup level → (∀ k, k ∈ level → k ∉ placed) →
  (∀ k, k ∈ rem → deg !! k = Some (length (unplaced_deps steps placed k))) →
  ∀ k, k ∈ (foldl (remove_step steps) (rem, deg) level).1 →
       (foldl (remove_step steps) (rem, deg) level).2 !! k
       = Some (length (unplaced_deps steps (placed ++ level) k)).
Proof.
  intros Hu Hnd. revert placed rem deg.
  induction level as [|x level IH]; intros placed rem deg Hids Hl Hpl Hdeg; simpl.
  { rewrite app_nil_r. apply Hdeg. }
  apply NoDup_cons in Hl as [Hx Hl].
  destruct (remove_step steps (rem, deg) x) as [rem' deg'] eqn:E.
  replace (placed ++ x :: level) with ((placed ++ [x]) ++ level)
    by by rewrite <- app_assoc.
  apply IH; [|done| |].
  - intros k Hk. apply Hids.
    replace rem' with (remove_step steps (rem, deg) x).1 in Hk by by rewrite E.
    simpl in Hk. by apply list_elem_of_filter in Hk as [_ ?].
  - intros k Hk [?| ->%list_elem_of_singleton]%elem_of_app; [|done].
    apply (Hpl k); set_solver.
  - intros k Hk.
    replace rem' with (remove_step steps (rem, deg) x).1 in Hk by by rewrite E.
    replace deg' with (remove_step steps (rem, deg) x).2 by by rewrite E.
    apply remove_step_inv; try done. apply Hpl. set_solver.
Qed.

Lemma no_unplaced_deps steps placed k :
  length (unplaced_deps steps placed k) = 0
  ↔ forallb (λ d, bool_decide (d ∈ placed)) (deps_of steps k) = true.
Proof.
  unfold unplaced_deps.
  induction (deps_of steps k) as [|d ds IH]; [done|]. simpl.
  rewrite andb_true_iff, bool_decide_eq_true, <- IH.
  destruct (decide (d ∈ placed)).
  - rewrite filter_cons_False by naive_solver. naive_solver.
  - rewrite filter_cons_True by done. simpl. naive_solver.
Qed.

Lemma zero_inDegree_level steps placed rem (deg : gmap string nat) :
  (∀ k, k ∈ rem → deg !! k = Some (length (unplaced_deps steps placed k))) →
  filter (λ k, deg !! k = Some 0) rem = level_of steps placed rem.
Proof.
  intros Hdeg. unfold level_of. apply filter_ext_elem. intros k Hk.
  rewrite (Hdeg k Hk), <- no_unplaced_deps. naive_solver.
Qed.

Lemma layered_nil n steps placed : layered n steps placed [] = [].
Proof. by destruct n. Qed.

Lemma levels_loop_S fuel steps rem (deg : gmap string nat) acc :
  levels_loop (S fuel) steps rem deg acc
  = match rem with
    | [] => Some acc
    | _ =>
        match filter (λ k, deg !! k = Some 0) rem with
        | [] => Some acc
        | level =>
            levels_loop fuel steps
              (foldl (remove_step steps) (rem, deg) level).1
              (foldl (remove_step steps) (rem, deg) level).2
              (acc ++ [level])
        end
    end.
Proof. reflexivity. Qed.

Lemma layered_S n steps placed rem :
  layered (S n) steps placed rem
  = match level_of steps placed rem with
    | [] => []
    | level =>
        level :: layered n steps (placed ++ level)
                   (filter (λ k, k ∉ level) rem)
    end.
Proof. reflexivity. Qed.

Lemma levels_loop_layered steps :
  unique_ids steps → (∀ s, s ∈ steps → NoDup (deps s)) →
  ∀ fuel n placed rem (deg : gmap string nat) acc,
    NoDup rem →
    (∀ k, k ∈ rem → k ∈ instanceId <$> steps ∧ k ∉ placed) →
    (∀ k, k ∈ rem → deg !! k = Some (length (unplaced_deps steps placed k))) →
    length rem < fuel → length rem ≤ n →
    levels_loop fuel steps rem deg acc
    = Some (acc ++ layered n steps placed rem).
Proof.
  intros Hu Hnd fuel.
  induction fuel as [|fuel IH]; intros n placed rem deg acc Hrem Hids Hdeg Hf Hn;
    [lia|].
  rewrite levels_loop_S. destruct rem as [|k0 rem0] eqn:Erem.
  { by rewrite layered_nil, app_nil_r. }
  rewrite <- Erem in *.
  assert (0 < length rem) as Hpos by (rewrite Erem; simpl; lia).
  clear Erem k0 rem0.
  destruct n as [|n]; [lia|]. rewrite layered_S.
  rewrite (zero_inDegree_level steps placed rem deg Hdeg).
  destruct (level_of steps placed rem) as [|x level] eqn:Elevel.
  { by rewrite app_nil_r. }
  assert (∀ k, k ∈ x :: level → k ∈ rem) as Hsub.
  { intros k Hk. rewrite <- Elevel in Hk.
    by apply list_elem_of_filter in Hk as [_ ?]. }
  assert (NoDup (x :: level)) as Hlnd.
  { rewrite <- Elevel. by apply NoDup_filter. }
  pose proof (remove_steps_remaining steps (x :: level) (rem, deg)) as Hst1.
  pose proof (length_filter_lt (λ k, k ∉ x :: level) rem x) as Hlt.
  specialize (Hlt ltac:(apply Hsub; set_solver) ltac:(set_solver)).
  rewrite (IH n (placed ++ x :: level)).
  - rewrite Hst1, <- app_assoc. done.
  - rewrite Hst1. by apply NoDup_filter.
  - intros k Hk. rewrite Hst1 in Hk. apply list_elem_of_filter in Hk as [Hkl Hk].
    destruct (Hids k Hk). split; [done|]. set_solver.
  - intros k Hk. apply remove_level_inv; try done.
    + intros k' Hk'. by apply Hids.
    + intros k' Hk'. by apply Hids, Hsub.
  - rewrite Hst1. simpl in *. lia.
  - rewrite Hst1. simpl in *. lia.
Qed.

Lemma analyzeParallelism_layered steps :
  unique_ids steps → (∀ s, s ∈ steps → NoDup (deps s)) →
  analyzeParallelism steps
  = Some {| maxParallelism := math_max (length <$> layered_levels steps);
            levels := layered_levels steps;
            independentPaths := first_level_size (layered_levels steps) |}.
Proof.
  intros Hu Hnd. unfold analyzeParallelism.
  rewrite (levels_loop_layered steps Hu Hnd _ (length steps) []).
  - unfold layered_levels. by rewrite ordered_set_unique.
  - by rewrite ordered_set_unique.
  - intros k Hk. rewrite ordered_set_unique in Hk by done. set_solver.
  - intros k Hk. rewrite ordered_set_unique in Hk by done.
    apply list_elem_of_fmap in Hk as (s & -> & Hs).
    rewrite initial_inDegree_lookup by done.
    unfold unplaced_deps. rewrite filter_all by set_solver.
    by rewrite deps_of_unique.
  - rewrite ordered_set_unique, length_fmap by done. lia.
  - rewrite ordered_set_unique, length_fmap by done. lia.
Qed.

(** ** Levels of chains and of independent steps *)

Lemma foldl_max a l : foldl Nat.max a l = Nat.max a (max_list l).
Proof.
  revert a. induction l as [|x l IH]; intros a; simpl; [lia|].
  rewrite IH. lia.
Qed.

Lemma math_max_cons x xs : math_max (x :: xs) = Finite (max_list (x :: xs)).
Proof. unfold math_max. by rewrite foldl_max. Qed.

Lemma math_max_nonempty xs : xs ≠ [] → math_max xs = Finite (max_list xs).
Proof. destruct xs; [done|]. intros _. apply math_max_cons. Qed.

Lemma layered_nonempty n steps placed rem l :
  l ∈ layered n steps placed rem → l ≠ [].
Proof.
  revert placed rem. induction n as [|n IH]; intros placed rem; simpl.
  { by intros ?%elem_of_nil. }
  destruct (level_of steps placed rem) as [|x level]; [by intros ?%elem_of_nil|].
  intros [->|Hin]%elem_of_cons; [done|]. by eapply IH.
Qed.

Lemma layered_independent steps :
  unique_ids steps → steps ≠ [] → (∀ s, s ∈ steps → deps s = []) →
  layered_levels steps = [instanceId <$> steps].
Proof.
  intros Hu Hne Hdeps. unfold layered_levels.
  destruct steps as [|s0 steps0] eqn:E; [done|]. rewrite <- E in *.
  replace (length steps) with (S (length steps0)) by (rewrite E; done).
  rewrite layered_S.
  assert (level_of steps [] (instanceId <$> steps) = instanceId <$> steps) as ->.
  { apply filter_all. intros k (s & -> & Hs)%list_elem_of_fmap.
    by rewrite deps_of_unique, Hdeps. }
  destruct (instanceId <$> steps) as [|i ids0] eqn:Eids; [by rewrite E in Eids|].
  lazy beta iota zeta.
  rewrite (filter_none _ (i :: ids0)) by naive_solver.
  by rewrite layered_nil.
Qed.

Lemma chain_deps p l t :
  is_chain (Some p) l → t ∈ l →
  ∃ q, deps t = [q] ∧ q ∈ p :: (instanceId <$> l).
Proof.
  revert p. induction l as [|s l IH]; intros p Hc Ht; [by apply elem_of_nil in Ht|].
  destruct Hc as [Hs Hc]. simpl in Hs.
  apply elem_of_cons in Ht as [->|Ht].
  - exists p. split; [done|]. set_solver.
  - destruct (IH _ Hc Ht) as (q & Hq & Hin). exists q. split; [done|].
    rewrite fmap_cons. set_solver.
Qed.

Lemma layered_chain steps pre rest n :
  unique_ids steps → steps = pre ++ rest →
  is_chain (instanceId <$> last pre) rest →
  length rest ≤ n →
  layered n steps (instanceId <$> pre) (instanceId <$> rest)
  = (λ s, [instanceId s]) <$> rest.
Proof.
  intros Hu. revert pre n.
  induction rest as [|s rest IH]; intros pre n Hsteps Hc Hn.
  { apply layered_nil. }
  destruct n as [|n]; [simpl in Hn; lia|]. rewrite layered_S.
  destruct Hc as [Hs Hc].
  assert (s ∈ steps) as Hsin by (rewrite Hsteps; set_solver).
  pose proof Hu as Hnd. unfold unique_ids in Hnd.
  rewrite Hsteps, fmap_app, fmap_cons in Hnd.
  apply NoDup_app in Hnd as (_ & Hdisj & Hnd).
  apply NoDup_cons in Hnd as [Hsr _].
  assert (level_of steps (instanceId <$> pre) (instanceId <$> s :: rest)
          = [instanceId s]) as ->.
  { unfold level_of. rewrite fmap_cons, filter_cons_True.
    - f_equal. apply filter_none.
      intros k (t & -> & Ht)%list_elem_of_fmap.
      rewrite deps_of_unique by (rewrite ?Hsteps; set_solver).
      destruct (chain_deps _ _ _ Hc Ht) as (q & -> & Hq). simpl.
      rewrite andb_true_r, bool_decide_eq_true. intros Hqpre.
      by apply (Hdisj q Hqpre).
    - rewrite deps_of_unique, Hs by done.
      destruct (last pre) as [p|] eqn:Elast; simpl; [|done].
      rewrite andb_true_r, bool_decide_eq_true.
      apply list_elem_of_fmap_2. apply last_Some in Elast as [l' ->]. set_solver. }
  lazy beta iota zeta. rewrite (fmap_cons _ s rest). f_equal.
  replace ((instanceId <$> pre) ++ [instanceId s])
    with (instanceId <$> (pre ++ [s])) by by rewrite fmap_app.
  rewrite fmap_cons, filter_cons_False by set_solver.
  rewrite filter_all by (intros k Hk ->%list_elem_of_singleton; done).
  f_equal. apply IH.
  - by rewrite <- app_assoc.
  - by rewrite last_snoc.
  - simpl in Hn. lia.
Qed.

Lemma max_list_singletons (steps : list WorkflowStep) :
  steps ≠ [] →
  max_list (length <$> ((λ s, [instanceId s]) <$> steps)) = 1.
Proof.
  induction steps as [|s [|s' steps] IH]; intros Hne; [done|done|].
  rewrite !fmap_cons in *. simpl in *. rewrite IH by done. done.
Qed.

Lemma math_max_singletons (steps : list WorkflowStep) :
  steps ≠ [] →
  math_max (length <$> ((λ s, [instanceId s]) <$> steps)) = Finite 1.
Proof.
  intros Hne. rewrite math_max_nonempty, max_list_singletons; [done..|].
  by destruct steps.
Qed.

(** C5, as amended. For a step list with unique instance ids and
    duplicate-free [dependsOn] lists, [analyzeParallelism] returns the
    levels of the layered topological sort (each level collects the
    remaining steps all of whose dependencies are placed; the list stops
    when no level can be formed); when there is at least one level,
    [maxParallelism] is the size of the largest level and
    [independentPaths] the size of the first one, and with no level
    [independentPaths] is 1; a pure chain of N ≥ 1 steps yields N levels of
    size 1 with [maxParallelism] 1, and N ≥ 1 independent steps yield one
    level of size N with [maxParallelism] N. *)
Theorem analyzeParallelism_levels steps :
  unique_ids steps → (∀ s, s ∈ steps → NoDup (deps s)) →
  ∃ r, analyzeParallelism steps = Some r
       ∧ levels r = layered_levels steps
       ∧ (∀ l rest, levels r = l :: rest →
            maxParallelism r = Finite (max_list (length <$> levels r))
            ∧ independentPaths r = length l)
       ∧ (levels r = [] → independentPaths r = 1)
       ∧ (steps ≠ [] → is_chain None steps →
            levels r = (λ s, [instanceId s]) <$> steps
            ∧ maxParallelism r = Finite 1)
       ∧ (steps ≠ [] → (∀ s, s ∈ steps → deps s = []) →
            levels r = [instanceId <$> steps]
            ∧ maxParallelism r = Finite (length steps)).
Proof.
  intros Hu Hnd. eexists. split; [by apply analyzeParallelism_layered|].
  simpl. split_and!.
  - done.
  - intros l rest Hl. rewrite Hl. split; [by rewrite fmap_cons, math_max_cons|].
    simpl. rewrite decide_False; [done|].
    assert (l ≠ []) as Hne.
    { apply (layered_nonempty (length steps) steps [] (instanceId <$> steps)).
      unfold layered_levels in Hl. rewrite Hl. set_solver. }
    by destruct l.
  - by intros ->.
  - intros Hne Hc.
    assert (layered_levels steps = (λ s, [instanceId s]) <$> steps) as ->.
    { by apply (layered_chain steps [] steps). }
    split; [done|]. by apply math_max_singletons.
  - intros Hne Hdeps. rewrite layered_independent by done.
    split; [done|]. unfold math_max. simpl. by rewrite length_fmap.
Qed.

Lemma analyzeParallelism_levels_witness :
  (unique_ids Examples.chain3 ∧ ∀ s, s ∈ Examples.chain3 → NoDup (deps s))
  ∧ ∃ r, analyzeParallelism Examples.chain3 = Some r
         ∧ levels r = [["A"]; ["B"]; ["C"]]
         ∧ maxParallelism r = Finite 1.
Proof.
  assert (unique_ids Examples.chain3) as Hu.
  { unfold unique_ids. simpl.
    repeat (apply NoDup_cons; split; [set_solver|]). constructor. }
  assert (∀ s, s ∈ Examples.chain3 → NoDup (deps s)) as Hnd.
  { intros s Hs. repeat (apply elem_of_cons in Hs as [->|Hs]); simpl;
      [constructor|apply NoDup_singleton..|by apply elem_of_nil in Hs]. }
  split; [done|].
  destruct (analyzeParallelism_levels Examples.chain3 Hu Hnd)
    as (r & Hr & _ & _ & _ & Hchain & _).
  exists r. split; [done|]. apply Hchain; [done|]. simpl. done.
Defined.

(** C5, as stated, fails where no level is formed: for the empty list
    (zero independent steps, a chain of zero steps) and for two steps that
    wait for each other, [levels] is empty, [maxParallelism] is
    [-Infinity] and [independentPaths] is 1. *)
Lemma analyzeParallelism_without_levels :
  analyzeParallelism []
  = Some {| maxParallelism := NegInfinity; levels := []; independentPaths := 1 |}
  ∧ analyzeParallelism Examples.mutual
    = Some {| maxParallelism := NegInfinity; levels := [];
              independentPaths := 1 |}
  ∧ ¬ (∀ steps, unique_ids steps → (∀ s, s ∈ steps → deps s = []) →
         ∃ r, analyzeParallelism steps = Some r
              ∧ levels r = [instanceId <$> steps]
              ∧ maxParallelism r = Finite (length steps)
              ∧ independentPaths r = length (default [] (head (levels r)))).
Proof.
  split_and!; [by vm_compute..|].
  intros H. destruct (H []) as (r & Hr & Hl & _).
  - constructor.
  - intros s Hs. by apply elem_of_nil in Hs.
  - vm_compute in Hr. injection Hr as <-. done.
Qed.

(** The two conditions of the amended C5 are needed: a [dependsOn] that
    lists a step twice counts it twice in the in-degree and takes it off
    once, so the dependent step is never placed; and two steps with the same
    instance id are one entry of [remaining], so two independent steps give
    one level of size 1. *)
Lemma analyzeParallelism_needs_sets :
  levels <$> analyzeParallelism
               [Examples.plain "A" "echo" None;
                Examples.plain "B" "echo" (Some ["A"; "A"])]
  = Some [["A"]]
  ∧ levels <$> analyzeParallelism
                 [Examples.plain "A" "echo" None;
                  Examples.plain "A" "echo" None]
    = Some [["A"]].
Proof. split; by vm_compute. Qed.

(** * [gatherInputs] on fields that are null or change kind *)

(** C3 (the code departs from it). With several dependencies, a field
    whose first source holds [null] keeps [null] although a later source
    holds a value, where the comment in the source and the claim take the
    first value that is not null; and a field that holds a truthy scalar in
    an earlier source and an array in a later one makes [gatherInputs]
    throw instead of concatenating the arrays. *)
Theorem gatherInputs_null_and_mixed_fields :
  gatherInputs
    (Examples.settled [("A", Obj [("decision", Null)]);
                       ("B", Obj [("decision", Str "approved")])])
    Examples.join
  = Normal (Obj [ ("decision", Null);
                  ("_sources", Arr [Str "A"; Str "B"]);
                  ("_allResults", Arr [Obj [("decision", Null)];
                                       Obj [("decision", Str "approved")]]) ])
  ∧ gatherInputs
      (Examples.settled [("A", Obj [("items", Str "none")]);
                         ("B", Obj [("items", Arr [Num 1; Num 2])])])
      Examples.join
    = Throw push_not_a_function.
Proof. split; by vm_compute. Qed.


(** * When [execute] returns, and what it leaves behind *)

Section ExecutionMore.

Variable modules : list ModuleDef.
Variable moduleExecutors :
  string → option (value → value → option string → outcome).
Variable executedAt : WorkflowStep → string.
Variable beyond_model : WorkflowStep → outcome.

Local Abbreviation run :=
  (execute modules moduleExecutors executedAt beyond_model).
Local Abbreviation inv :=
  (graph_inv modules moduleExecutors executedAt beyond_model).

Lemma returns_or_deadlock steps :
  (∃ results g, run steps = Returns results g)
  ∨ run steps = Throws deadlock_message.
Proof.
  unfold execute.
  destruct (execute_ends modules moduleExecutors executedAt beyond_model steps)
    as [(g & -> & _)|(g & -> & _)]; eauto.
Qed.

Lemma returns_wellformed steps results g :
  run steps = Returns results g →
  unique_ids steps ∧ closed_deps steps ∧ ¬ has_cycle steps.
Proof.
  intros Hx.
  destruct (execute_returns_inv _ _ _ _ _ _ _ Hx) as (_ & Hinv & Hsize).
  destruct (finished_all _ _ _ _ steps g Hinv Hsize) as (Hu & _ & Hall).
  split_and!; [done| |by eapply cycle_never_finishes].
  intros s d Hs Hd. destruct (Hall s Hs) as (Hc & n & Hn & Hst).
  assert (d ∈ completed g) as Hdc.
  { eapply inv_deps; [done..|]. by rewrite Hst. }
  apply (completed_subset _ _ _ _ steps g Hinv) in Hdc.
  rewrite elem_of_list_to_set in Hdc. by apply new_graph_order.
Qed.

Lemma returns_iff steps :
  (∃ results g, run steps = Returns results g)
  ↔ unique_ids steps ∧ closed_deps steps ∧ ¬ has_cycle steps.
Proof.
  split.
  - intros (results & g & Hx). by eapply returns_wellformed.
  - intros (Hu & Hc & Ha).
    destruct (execute_wellformed modules moduleExecutors executedAt
                beyond_model steps Hu Hc Ha) as (g & Hx & _).
    eauto.
Qed.

Lemma deadlock_iff steps :
  run steps = Throws deadlock_message
  ↔ ¬ (unique_ids steps ∧ closed_deps steps ∧ ¬ has_cycle steps).
Proof.
  split.
  - intros Ht Hwf. apply returns_iff in Hwf as (results & g & Hx). congruence.
  - intros Hn. destruct (returns_or_deadlock steps) as [Hr|Ht]; [|done].
    by apply returns_iff in Hr.
Qed.

Lemma stats_when_returned steps results g :
  run steps = Returns results g →
  getStats steps g
  = (Z.of_nat (length steps), Z.of_nat (length steps), 0%Z, 0%Z).
Proof.
  intros Hx.
  destruct (execute_returns_inv _ _ _ _ _ _ _ Hx) as (_ & Hinv & Hsize).
  destruct (finished_all _ _ _ _ steps g Hinv Hsize) as (_ & Hsz & _).
  unfold getStats. rewrite Hsz, (inv_running _ _ _ _ _ _ Hinv), size_empty.
  repeat f_equal; lia.
Qed.

(** X1. [execute] returns exactly when the instance ids are unique, every
    [dependsOn] entry names a step of the list and the relation has no
    cycle; on every other step list it throws the deadlock error. *)
Theorem execute_returns_iff_wellformed steps :
  ((∃ results g, run steps = Returns results g)
   ↔ unique_ids steps ∧ closed_deps steps ∧ ¬ has_cycle steps)
  ∧ (run steps = Throws deadlock_message
     ↔ ¬ (unique_ids steps ∧ closed_deps steps ∧ ¬ has_cycle steps)).
Proof. split; [apply returns_iff|apply deadlock_iff]. Qed.

(** X2. Once [execute] has returned, [getStats] reports every step as
    completed: [completed] equals [total], and [running] and [pending] are
    zero. *)
Theorem getStats_after_execute steps results g :
  run steps = Returns results g →
  getStats steps g
  = (Z.of_nat (length steps), Z.of_nat (length steps), 0%Z, 0%Z).
Proof. apply stats_when_returned. Qed.

Lemma omap_keys_sublist {A} (f : string → option (string * A)) l :
  (∀ k p, f k = Some p → p.1 = k) → sublist (omap f l).*1 l.
Proof.
  intros Hf. induction l as [|k l IH]; simpl; [done|].
  destruct (f k) as [p|] eqn:Hk; simpl.
  - rewrite (Hf _ _ Hk). by apply sublist_skip.
  - by apply sublist_cons.
Qed.

Lemma collect_results_keys g : sublist (collect_results g).*1 (nodes_order g).
Proof.
  apply omap_keys_sublist. intros k p Hp.
  destruct (nodes g !! k) as [n|]; simpl in Hp; [|done].
  destruct (truthy (result n)); by simplify_eq.
Qed.

(** X3. The keys of the [results] map that [execute] returns are a
    subsequence of the steps' instance ids: they come in step order, and
    none occurs twice. *)
Theorem results_in_step_order steps results g :
  run steps = Returns results g →
  sublist results.*1 (instanceId <$> steps) ∧ NoDup results.*1.
Proof.
  intros Hx.
  destruct (execute_returns_inv _ _ _ _ _ _ _ Hx) as (-> & Hinv & Hsize).
  destruct (finished_all _ _ _ _ steps g Hinv Hsize) as (Hu & _ & _).
  assert (sublist (collect_results g).*1 (instanceId <$> steps)) as Hsub.
  { rewrite <- (unique_order moduleExecutors executedAt beyond_model steps Hu).
    rewrite <- (inv_order _ _ _ _ _ _ Hinv).
    apply collect_results_keys. }
  split; [done|]. by eapply sublist_NoDup.
Qed.

End ExecutionMore.

Lemma getStats_after_execute_witness :
  ∃ results g,
    Examples.run Examples.diamond = Returns results g
    ∧ getStats Examples.diamond g = (3, 3, 0, 0)%Z.
Proof.
  destruct (Examples.run Examples.diamond) as [results g| |] eqn:Hx;
    [|by vm_compute in Hx..].
  exists results, g. split; [done|].
  exact (getStats_after_execute Examples.store Examples.executors
           Examples.clock Examples.no_exotic Examples.diamond results g Hx).
Defined.

Lemma results_in_step_order_witness :
  ∃ results g,
    Examples.run Examples.diamond = Returns results g
    ∧ sublist results.*1 ["A"; "B"; "C"] ∧ NoDup results.*1.
Proof.
  destruct (Examples.run Examples.diamond) as [results g| |] eqn:Hx;
    [|by vm_compute in Hx..].
  exists results, g. split; [done|].
  exact (results_in_step_order Examples.store Examples.executors
           Examples.clock Examples.no_exotic Examples.diamond results g Hx).
Defined.

(** * [gatherInputs], field by field *)

Lemma ordered_set_elem l k : k ∈ ordered_set l ↔ k ∈ l.
Proof.
  induction l as [|x l IH] using rev_ind; [done|].
  rewrite ordered_set_snoc. case_decide; set_solver.
Qed.

Lemma ordered_set_NoDup l : NoDup (ordered_set l).
Proof.
  induction l as [|x l IH] using rev_ind; [constructor|].
  rewrite ordered_set_snoc. case_decide; [done|].
  apply NoDup_app. split_and!; [done| |apply NoDup_singleton].
  intros k Hk ->%list_elem_of_singleton. done.
Qed.

Lemma keys_of_NoDup props : NoDup (keys_of props).
Proof. apply (ordered_set_NoDup (props.*1)). Qed.

Lemma indexed_keys_NoDup items : NoDup (indexed items).*1.
Proof.
  apply NoDup_alt. intros i j k Hi Hj. unfold indexed in *.
  rewrite list_lookup_fmap, list_lookup_imap in Hi, Hj.
  destruct (items !! i); [|done]. destruct (items !! j); [|done].
  simpl in *. simplify_eq. by apply (inj pretty).
Qed.

Lemma own_entries_NoDup r : NoDup (own_entries r).*1.
Proof.
  destruct r; simpl; try constructor; try apply indexed_keys_NoDup.
  assert (((λ k, (k, get props k)) <$> keys_of props).*1 = keys_of props) as ->.
  { induction (keys_of props) as [|k ks IH]; [done|]. by rewrite !fmap_cons, IH. }
  apply keys_of_NoDup.
Qed.

Lemma merge_field_other m k v m' key :
  merge_field m (k, v) = Normal m' → k ≠ key → get m' key = get m key.
Proof.
  intros Hm Hne. unfold merge_field in Hm.
  repeat (case_match; simplify_eq; try done); by rewrite get_set_ne.
Qed.

Lemma merge_field_slot m key v m' :
  merge_field m (key, v) = Normal m' → key ∉ inherited_names →
  get m' key = slot_after (get m key) v.
Proof.
  intros Hm Hni. unfold merge_field in Hm.
  rewrite bool_decide_eq_false_2 in Hm by done. unfold slot_after.
  repeat (case_match; simplify_eq; try done); by rewrite get_set_eq.
Qed.

Lemma find_key_absent (es : list (string * value)) key :
  key ∉ es.*1 → List.find (λ kv, bool_decide (kv.1 = key)) es = None.
Proof.
  induction es as [|[k v] es IH]; simpl; [done|]. intros Hni.
  rewrite bool_decide_eq_false_2 by set_solver. apply IH. set_solver.
Qed.

Lemma for_each_cons {A B} (f : B → A → completion B) x xs acc :
  for_each f (x :: xs) acc = bind (f acc x) (for_each f xs).
Proof. done. Qed.

Lemma merge_entries_slot es m m' key :
  for_each merge_field es m = Normal m' →
  NoDup es.*1 → key ∉ inherited_names →
  get m' key
  = match snd <$> List.find (λ kv, bool_decide (kv.1 = key)) es with
    | Some v => slot_after (get m key) v
    | None => get m key
    end.
Proof.
  revert m. induction es as [|[k v] es IH]; intros m Hm Hnd Hni.
  - simpl in *. by simplify_eq.
  - rewrite for_each_cons in Hm. rewrite fmap_cons in Hnd.
    apply NoDup_cons in Hnd as [Hk Hnd].
    destruct (merge_field m (k, v)) as [m1| |] eqn:H1; simpl in Hm; [|done..].
    specialize (IH m1 Hm Hnd Hni). simpl.
    case_bool_decide as Hkey; simpl in *.
    + subst k. rewrite find_key_absent in IH by done. simpl in IH.
      rewrite IH. by apply merge_field_slot.
    + rewrite IH. by rewrite (merge_field_other _ _ _ _ key H1).
Qed.

Lemma merge_dependencies_slot g ds m0 a0 m a key :
  for_each (merge_dependency g) ds (m0, a0) = Normal (m, a) →
  key ∉ inherited_names →
  get m key = foldl slot_after (get m0 key) (field_values g ds key).
Proof.
  revert m0 a0. induction ds as [|d ds IH]; intros m0 a0 Hm Hni.
  - simpl in *. by simplify_eq.
  - rewrite for_each_cons in Hm. unfold merge_dependency at 1 in Hm.
    unfold field_values. simpl. fold (field_values g ds key).
    destruct (truthy (dep_result g d)) eqn:Ht; simpl in Hm.
    + destruct (for_each merge_field (own_entries (dep_result g d)) m0)
        as [m1| |] eqn:H1; simpl in Hm; [|done..].
      rewrite (IH _ _ Hm Hni).
      rewrite (merge_entries_slot _ _ _ key H1 (own_entries_NoDup _) Hni).
      unfold field_of. by destruct (List.find _ _).
    + by rewrite (IH _ _ Hm Hni).
Qed.

Lemma gatherInputs_several g s v :
  2 ≤ length (deps s) → gatherInputs g s = Normal v →
  ∃ m a, for_each (merge_dependency g) (deps s) ([], []) = Normal (m, a)
         ∧ v = Obj (set (set m "_sources" (Arr (Str <$> deps s)))
                        "_allResults" (Arr a)).
Proof.
  intros Hlen Hg. unfold gatherInputs in Hg.
  destruct (deps s) as [|d1 [|d2 ds]]; simpl in Hlen; [lia..|].
  destruct (for_each (merge_dependency g) (d1 :: d2 :: ds) ([], []))
    as [[m a]| |]; simpl in Hg; [|done..].
  exists m, a. split; [done|]. by simplify_eq.
Qed.

(** The value a merged input holds under a key is the left fold of
    [slot_after] over the values the dependencies hold under it. *)
Lemma gatherInputs_slot g s props key :
  2 ≤ length (deps s) → gatherInputs g s = Normal (Obj props) →
  key ∉ inherited_names → key ≠ "_sources" → key ≠ "_allResults" →
  get props key = foldl slot_after Undefined (field_values g (deps s) key).
Proof.
  intros Hlen Hg Hni Hs Ha.
  destruct (gatherInputs_several g s _ Hlen Hg) as (m & a & Hm & Hv).
  injection Hv as ->. rewrite !get_set_ne by done.
  by rewrite (merge_dependencies_slot _ _ _ _ _ _ key Hm Hni).
Qed.

(** X4. With two or more dependencies, whatever their results hold, a
    merged input is an object whose [_sources] is the full [dependsOn] list
    and whose [_allResults] lists the truthy results in dependency order:
    a dependency with a falsy result, or one that names no step, is still
    listed in [_sources] but adds nothing to [_allResults], and fields of
    these two names in the results are overwritten. *)
Theorem gatherInputs_reserved_fields g s v :
  2 ≤ length (deps s) → gatherInputs g s = Normal v →
  ∃ props,
    v = Obj props
    ∧ get props "_sources" = Arr (Str <$> deps s)
    ∧ get props "_allResults"
      = Arr (filter (λ r, truthy r = true) (dep_result g <$> deps s)).
Proof.
  intros Hlen Hg.
  destruct (gatherInputs_several g s _ Hlen Hg) as (m & a & Hm & ->).
  eexists. split; [done|]. rewrite get_set_eq, get_set_ne, get_set_eq by done.
  split; [done|]. by rewrite (merge_all_results _ _ _ _ _ _ Hm).
Qed.

Lemma gatherInputs_reserved_fields_witness :
  ∃ props,
    gatherInputs
      (Examples.settled [("A", Obj [("_sources", Str "mine")]); ("B", Null)])
      Examples.join
    = Normal (Obj props)
    ∧ get props "_sources" = Arr [Str "A"; Str "B"]
    ∧ get props "_allResults" = Arr [Obj [("_sources", Str "mine")]].
Proof.
  destruct (gatherInputs_reserved_fields
              (Examples.settled [("A", Obj [("_sources", Str "mine")]);
                                 ("B", Null)])
              Examples.join
              (Obj [("_sources", Arr [Str "A"; Str "B"]);
                    ("_allResults", Arr [Obj [("_sources", Str "mine")]])]))
    as (props & Hv & Hs & Ha).
  - simpl. lia.
  - vm_compute. reflexivity.
  - exists props. split; [by rewrite <- Hv; vm_compute|]. split; [exact Hs|].
    rewrite Ha. vm_compute. reflexivity.
Defined.

Lemma fold_arrays xs vals :
  Forall is_array vals →
  foldl slot_after (Arr xs) vals = Arr (xs ++ concat (items_of <$> vals)).
Proof.
  intros Hall. revert xs.
  induction Hall as [|v vals Hv _ IH]; intros xs; simpl.
  - by rewrite app_nil_r.
  - destruct v; try done. simpl. by rewrite IH, app_assoc.
Qed.

(** X5. Arrays are concatenated in dependency order.  For a field other
    than [_sources], [_allResults] and the names inherited from
    [Object.prototype]: when every value that the truthy results of the
    dependencies hold under the field is an array, a merged input holds
    under it the concatenation of these arrays, first dependency first
    (and nothing when no dependency has the field). *)
Theorem gatherInputs_concatenates_arrays g s props key :
  2 ≤ length (deps s) → gatherInputs g s = Normal (Obj props) →
  key ∉ inherited_names → key ≠ "_sources" → key ≠ "_allResults" →
  Forall is_array (field_values g (deps s) key) →
  get props key
  = match field_values g (deps s) key with
    | [] => Undefined
    | vals => Arr (concat (items_of <$> vals))
    end.
Proof.
  intros Hlen Hg Hni Hs Ha Hall.
  rewrite (gatherInputs_slot g s props key) by done.
  destruct (field_values g (deps s) key) as [|v vals]; [done|].
  apply Forall_cons in Hall as [Hv Hall]. destruct v; try done. simpl.
  by rewrite fold_arrays.
Qed.

Lemma gatherInputs_concatenates_arrays_witness :
  ∃ props,
    gatherInputs
      (Examples.settled [("A", Obj [("items", Arr [Num 1; Num 2])]);
                         ("B", Obj [("items", Arr [Num 3])])])
      Examples.join
    = Normal (Obj props)
    ∧ get props "items" = Arr [Num 1; Num 2; Num 3].
Proof.
  eexists. split; [vm_compute; reflexivity|].
  rewrite (gatherInputs_concatenates_arrays
             (Examples.settled [("A", Obj [("items", Arr [Num 1; Num 2])]);
                                ("B", Obj [("items", Arr [Num 3])])])
             Examples.join _ "items").
  - vm_compute. reflexivity.
  - simpl. lia.
  - vm_compute. reflexivity.
  - vm_compute. intros H. repeat (apply elem_of_cons in H as [H|H]; [discriminate|]).
    by apply elem_of_nil in H.
  - discriminate.
  - discriminate.
  - vm_compute. repeat constructor.
Defined.

Lemma get_assign_keys o p ks f :
  get (foldl (λ t k, set t k (get p k)) o ks) f
  = if decide (f ∈ ks) then get p f else get o f.
Proof.
  induction ks as [|k ks IH] using rev_ind.
  - done.
  - rewrite foldl_snoc. destruct (decide (k = f)) as [->|Hne].
    + rewrite get_set_eq. by rewrite decide_True by set_solver.
    + rewrite get_set_ne by done. rewrite IH.
      repeat case_decide; set_solver.
Qed.

Lemma get_assign o p f :
  get (assign o p) f = if decide (f ∈ keys_of p) then get p f else get o f.
Proof. apply get_assign_keys. Qed.

Lemma fold_objects o vals :
  Forall is_object vals →
  ∃ o', foldl slot_after (Obj o) vals = Obj o'
        ∧ ∀ f, get o' f
               = foldl (λ acc v, if decide (f ∈ keys_of (props_of v))
                                 then get (props_of v) f else acc)
                       (get o f) vals.
Proof.
  intros Hall. revert o.
  induction Hall as [|v vals Hv _ IH]; intros o; simpl.
  - by exists o.
  - destruct v; try done. simpl.
    destruct (IH (assign o props)) as (o' & -> & Hget).
    exists o'. split; [done|]. intros f. by rewrite Hget, get_assign.
Qed.

(** X6. Objects are merged shallowly, later sources overwriting earlier
    ones.  For a field other than [_sources], [_allResults] and the names
    inherited from [Object.prototype]: when every value that the truthy
    results of the dependencies hold under the field is a plain object, and
    there is one, a merged input holds under it an object in which each
    inner field has the value of the last dependency, in dependency order,
    that has this inner field. *)
Theorem gatherInputs_merges_objects g s props key :
  2 ≤ length (deps s) → gatherInputs g s = Normal (Obj props) →
  key ∉ inherited_names → key ≠ "_sources" → key ≠ "_allResults" →
  Forall is_object (field_values g (deps s) key) →
  field_values g (deps s) key ≠ [] →
  ∃ o, get props key = Obj o
       ∧ ∀ f, get o f = last_field (field_values g (deps s) key) f.
Proof.
  intros Hlen Hg Hni Hs Ha Hall Hne.
  rewrite (gatherInputs_slot g s props key) by done.
  destruct (field_values g (deps s) key) as [|v vals]; [done|].
  apply Forall_cons in Hall as [Hv Hall]. destruct v; try done. simpl.
  destruct (fold_objects (assign [] props0) vals Hall) as (o & -> & Hget).
  exists o. split; [done|]. intros f. rewrite Hget, get_assign. simpl.
  unfold last_field. simpl. done.
Qed.

Lemma gatherInputs_merges_objects_witness :
  ∃ props o,
    gatherInputs
      (Examples.settled
         [("A", Obj [("customer", Obj [("name", Str "Ann"); ("tier", Num 1)])]);
          ("B", Obj [("customer", Obj [("tier", Num 2)])])])
      Examples.join
    = Normal (Obj props)
    ∧ get props "customer" = Obj o
    ∧ get o "name" = Str "Ann" ∧ get o "tier" = Num 2.
Proof.
  set (g := Examples.settled
         [("A", Obj [("customer", Obj [("name", Str "Ann"); ("tier", Num 1)])]);
          ("B", Obj [("customer", Obj [("tier", Num 2)])])]).
  destruct (gatherInputs g Examples.join) as [[| | | | | |props]| |] eqn:Hg;
    try (vm_compute in Hg; discriminate).
  destruct (gatherInputs_merges_objects g Examples.join props "customer")
    as (o & Ho & Hf).
  - simpl. lia.
  - exact Hg.
  - vm_compute. intros H. repeat (apply elem_of_cons in H as [H|H]; [discriminate|]).
    by apply elem_of_nil in H.
  - discriminate.
  - discriminate.
  - vm_compute. repeat constructor.
  - vm_compute. discriminate.
  - exists props, o. split; [reflexivity|]. split; [exact Ho|].
    rewrite !Hf. split; vm_compute; reflexivity.
Defined.

Lemma fold_scalars_defined cur vals :
  Forall is_scalar vals → is_undefined cur = false → is_scalar cur →
  foldl slot_after cur vals = cur.
Proof.
  intros Hall. revert cur.
  induction Hall as [|v vals Hv _ IH]; intros cur Hc Hs; simpl; [done|].
  assert (slot_after cur v = cur) as ->; [|by apply IH].
  destruct v; try done; by destruct cur.
Qed.

Lemma fold_scalars vals :
  Forall is_scalar vals →
  foldl slot_after Undefined vals
  = default Undefined (head (filter (λ v, is_undefined v = false) vals)).
Proof.
  induction 1 as [|v vals Hv Hall IH]; simpl; [done|].
  destruct (is_undefined v) eqn:Hu.
  - rewrite filter_cons_False by by rewrite Hu.
    destruct v; try done; exact IH.
  - rewrite filter_cons_True by done. simpl.
    assert (slot_after Undefined v = v) as -> by by destruct v.
    by apply fold_scalars_defined.
Qed.

(** X7. Among scalars the first value that is not [undefined] wins, and
    [null] counts as a value.  For a field other than [_sources],
    [_allResults] and the names inherited from [Object.prototype]: when
    every value that the truthy results of the dependencies hold under the
    field is a scalar, a merged input holds under it the first of them, in
    dependency order, that is not [undefined], so that a [null], [0],
    [false] or empty string of an earlier dependency hides the value of a
    later one. *)
Theorem gatherInputs_first_scalar g s props key :
  2 ≤ length (deps s) → gatherInputs g s = Normal (Obj props) →
  key ∉ inherited_names → key ≠ "_sources" → key ≠ "_allResults" →
  Forall is_scalar (field_values g (deps s) key) →
  get props key
  = default Undefined
      (head (filter (λ v, is_undefined v = false)
               (field_values g (deps s) key))).
Proof.
  intros Hlen Hg Hni Hs Ha Hall.
  rewrite (gatherInputs_slot g s props key) by done.
  by apply fold_scalars.
Qed.

Lemma gatherInputs_first_scalar_witness :
  ∃ props,
    gatherInputs
      (Examples.settled [("A", Obj [("count", Num 0)]);
                         ("B", Obj [("count", Num 7)])])
      Examples.join
    = Normal (Obj props)
    ∧ get props "count" = Num 0.
Proof.
  eexists. split; [vm_compute; reflexivity|].
  rewrite (gatherInputs_first_scalar
             (Examples.settled [("A", Obj [("count", Num 0)]);
                                ("B", Obj [("count", Num 7)])])
             Examples.join _ "count").
  - vm_compute. reflexivity.
  - simpl. lia.
  - vm_compute. reflexivity.
  - vm_compute. intros H. repeat (apply elem_of_cons in H as [H|H]; [discriminate|]).
    by apply elem_of_nil in H.
  - discriminate.
  - discriminate.
  - vm_compute. repeat constructor.
Defined.

(** * The batches of [execute] and the levels of [analyzeParallelism] *)

Lemma forallb_ext_elem {A} (f f' : A → bool) l :
  (∀ x, x ∈ l → f x = f' x) → forallb f l = forallb f' l.
Proof.
  induction l as [|x l IH]; intros Hf; simpl; [done|].
  rewrite Hf, IH; [done| |]; set_solver.
Qed.

Lemma filter_filter_not_in (placed level l : list string) :
  filter (λ k, k ∉ placed ++ level) l
  = filter (λ k, k ∉ level) (filter (λ k, k ∉ placed) l).
Proof.
  induction l as [|x l IH]; [done|].
  rewrite !filter_cons. repeat (case_decide; rewrite ?filter_cons);
    try (exfalso; set_solver); by rewrite ?IH.
Qed.

Section Batches.

Variable modules : list ModuleDef.
Variable moduleExecutors :
  string → option (value → value → option string → outcome).
Variable executedAt : WorkflowStep → string.
Variable beyond_model : WorkflowStep → outcome.

Local Abbreviation inv :=
  (graph_inv modules moduleExecutors executedAt beyond_model).
Local Abbreviation batch :=
  (run_batch modules moduleExecutors executedAt beyond_model).
Local Abbreviation loop :=
  (execute_loop modules moduleExecutors executedAt beyond_model).
Local Abbreviation batches :=
  (execute_batches modules moduleExecutors executedAt beyond_model).

Lemma node_of_step steps g s :
  inv steps g → unique_ids steps → s ∈ steps →
  ∃ n, nodes g !! instanceId s = Some n ∧ step n = s.
Proof.
  intros Hinv Hu Hs.
  pose proof (inv_steps _ _ _ _ _ _ Hinv (instanceId s)) as Hst.
  rewrite (new_graph_lookup_unique steps s Hu Hs) in Hst.
  destruct (nodes g !! instanceId s) as [n|]; [|done].
  exists n. split; [done|]. simpl in Hst. by simplify_eq.
Qed.

Lemma is_ready_placed steps g placed s n :
  inv steps g → completed g = list_to_set placed →
  nodes g !! instanceId s = Some n → step n = s →
  is_ready g n
  = bool_decide (instanceId s ∉ placed)
    && forallb (λ d, bool_decide (d ∈ placed)) (deps s).
Proof.
  intros Hinv Hc Hn Hst. unfold is_ready, dependencies_satisfied.
  rewrite Hst. f_equal.
  - apply bool_decide_ext. split.
    + intros Hp Hin.
      assert (instanceId s ∈ completed g) as Hin'
        by (rewrite Hc; by apply elem_of_list_to_set).
      pose proof (inv_settled _ _ _ _ _ _ Hinv _ _ Hn Hin') as Ho.
      apply (holds_outcome_terminal moduleExecutors) in Ho as [Ho|Ho];
        congruence.
    + intros Hni.
      assert (instanceId s ∉ completed g) as Hni'
        by (rewrite Hc; by rewrite elem_of_list_to_set).
      by rewrite (inv_pending _ _ _ _ _ _ Hinv _ _ Hn Hni').
  - apply forallb_ext_elem. intros d _. apply bool_decide_ext.
    rewrite Hc. apply elem_of_list_to_set.
Qed.

Lemma ready_level_of steps g placed l :
  inv steps g → unique_ids steps → completed g = list_to_set placed →
  (∀ s, s ∈ l → s ∈ steps) →
  ids (filter (λ n, is_ready g n = true)
         (omap (λ k, nodes g !! k) (instanceId <$> l)))
  = level_of steps placed (filter (λ k, k ∉ placed) (instanceId <$> l)).
Proof.
  intros Hinv Hu Hc. unfold level_of.
  induction l as [|s l IH]; intros Hl; [done|].
  destruct (node_of_step steps g s Hinv Hu) as (n & Hn & Hst); [set_solver|].
  rewrite fmap_cons. simpl. rewrite Hn. simpl.
  rewrite !filter_cons.
  rewrite (is_ready_placed steps g placed s n Hinv Hc Hn Hst).
  assert (s ∈ steps) as Hs by set_solver.
  specialize (IH ltac:(set_solver)).
  destruct (decide (instanceId s ∉ placed)) as [Hp|Hp].
  - rewrite bool_decide_eq_true_2 by done. simpl.
    rewrite filter_cons, (deps_of_unique steps s Hu Hs).
    case_decide as Hd.
    + unfold ids in *. rewrite fmap_cons.
      unfold node_id at 1. rewrite Hst. f_equal. exact IH.
    + exact IH.
  - rewrite bool_decide_eq_false_2 by done. simpl. exact IH.
Qed.

Lemma ready_is_level steps g placed :
  inv steps g → unique_ids steps → completed g = list_to_set placed →
  ids (getReadySteps g)
  = level_of steps placed (filter (λ k, k ∉ placed) (instanceId <$> steps)).
Proof.
  intros Hinv Hu Hc. unfold getReadySteps, node_list.
  rewrite (inv_order _ _ _ _ _ _ Hinv).
  rewrite (unique_order moduleExecutors executedAt beyond_model steps Hu).
  by apply ready_level_of.
Qed.

Lemma execute_batches_S fuel total g :
  batches (S fuel) total g
  = if decide (size (completed g) < total) then
      match getReadySteps g with
      | [] => if decide (size (running g) = 0) then []
              else batches fuel total g
      | readySteps => ids readySteps :: batches fuel total (batch g readySteps)
      end
    else [].
Proof. done. Qed.

Lemma level_of_sub steps placed rem k :
  k ∈ level_of steps placed rem → k ∈ rem.
Proof. unfold level_of. by intros [_ ?]%list_elem_of_filter. Qed.

Lemma filter_level_shorter (rem level : list string) k :
  k ∈ level → k ∈ rem →
  length (filter (λ x, x ∉ level) rem) < length rem.
Proof.
  intros Hl Hr. induction rem as [|x rem IH]; [by apply elem_of_nil in Hr|].
  rewrite filter_cons. apply elem_of_cons in Hr as [->|Hr].
  - rewrite decide_False by (intros H; by apply H). simpl.
    pose proof (length_filter (λ x, x ∉ level) rem). lia.
  - specialize (IH Hr). case_decide; simpl; lia.
Qed.

Lemma batches_layered steps :
  unique_ids steps →
  ∀ fuel n g placed,
    inv steps g → completed g = list_to_set placed →
    length (filter (λ k, k ∉ placed) (instanceId <$> steps)) < fuel →
    length (filter (λ k, k ∉ placed) (instanceId <$> steps)) ≤ n →
    batches fuel (length steps) g
    = layered n steps placed (filter (λ k, k ∉ placed) (instanceId <$> steps)).
Proof.
  intros Hu fuel.
  induction fuel as [|fuel IH]; intros n g placed Hinv Hc Hfuel Hn; [lia|].
  rewrite execute_batches_S.
  pose proof (ready_is_level steps g placed Hinv Hu Hc) as Hready.
  case_decide as Hsize.
  - destruct (getReadySteps g) as [|r ready] eqn:Hr.
    + rewrite (inv_running _ _ _ _ _ _ Hinv), size_empty.
      rewrite decide_True by done. simpl in Hready.
      destruct n as [|n]; [done|]. rewrite layered_S. by rewrite <- Hready.
    + set (rem := filter (λ k, k ∉ placed) (instanceId <$> steps)) in *.
      assert (node_id r ∈ rem) as Hin.
      { apply (level_of_sub steps placed). rewrite <- Hready.
        apply list_elem_of_here. }
      destruct n as [|n].
      { destruct rem; [by apply elem_of_nil in Hin|simpl in Hn; lia]. }
      rewrite layered_S. rewrite <- Hready.
      change (ids (r :: ready)) with (node_id r :: ids ready).
      cbv beta iota. f_equal.
      change (node_id r :: ids ready) with (ids (r :: ready)).
      rewrite <- Hr. unfold rem. rewrite <- filter_filter_not_in.
      pose proof (batch_spec modules moduleExecutors executedAt beyond_model
                    steps g Hinv) as (_ & Hc' & _).
      assert (length (filter (λ k, k ∉ placed ++ ids (getReadySteps g))
                        (instanceId <$> steps)) < length rem) as Hlt.
      { rewrite filter_filter_not_in. apply (filter_level_shorter _ _ (node_id r)).
        - rewrite Hr. apply list_elem_of_here.
        - exact Hin. }
      apply IH.
      * by apply inv_batch.
      * rewrite Hc', Hc. rewrite list_to_set_app_L. set_solver.
      * lia.
      * lia.
  - destruct (finished_all modules moduleExecutors executedAt beyond_model
                steps g Hinv ltac:(lia)) as (_ & _ & Hall).
    rewrite (filter_none (λ k, k ∉ placed)).
    + by rewrite layered_nil.
    + intros k (s & -> & Hs)%list_elem_of_fmap Hni. apply Hni.
      destruct (Hall s Hs) as (Hin & _). rewrite Hc in Hin.
      by apply elem_of_list_to_set in Hin.
Qed.

Lemma logged_batches_layered steps :
  unique_ids steps →
  logged_batches modules moduleExecutors executedAt beyond_model steps
  = layered_levels steps.
Proof.
  intros Hu. unfold logged_batches, layered_levels.
  assert (filter (λ k, k ∉ []) (instanceId <$> steps) = instanceId <$> steps)
    as Hf.
  { apply filter_all. intros k _ Hk. by apply elem_of_nil in Hk. }
  rewrite <- Hf at 1.
  apply (batches_layered steps Hu).
  - apply inv_init.
  - by destruct (new_graph_sets steps) as [-> _].
  - rewrite Hf, length_fmap. lia.
  - rewrite Hf, length_fmap. lia.
Qed.

(** What [completed] holds when the loop ends: what it held before and the
    ids of every batch. *)
Lemma loop_completed steps total fuel g :
  inv steps g →
  match loop fuel total g with
  | Finished g' | Deadlock g' =>
      completed g' = completed g ∪ list_to_set (concat (batches fuel total g))
  | Exhausted => True
  end.
Proof.
  revert g. induction fuel as [|fuel IH]; intros g Hinv; [done|].
  rewrite execute_batches_S. simpl.
  case_decide; [|simpl; set_solver].
  destruct (getReadySteps g) as [|r ready] eqn:Hr.
  - case_decide; [simpl; set_solver|]. by apply IH.
  - pose proof (batch_spec modules moduleExecutors executedAt beyond_model
                  steps g Hinv) as (_ & Hc' & _).
    pose proof (inv_batch modules moduleExecutors executedAt beyond_model
                  steps g Hinv) as Hinv'.
    rewrite Hr in Hc', Hinv'. specialize (IH _ Hinv').
    destruct (loop fuel total (batch g (r :: ready))); [| |done].
    + rewrite IH, Hc'. simpl. rewrite list_to_set_app_L. set_solver.
    + rewrite IH, Hc'. simpl. rewrite list_to_set_app_L. set_solver.
Qed.

Lemma batches_cover_iff steps :
  unique_ids steps →
  (∀ s, s ∈ steps →
        instanceId s
        ∈ concat (logged_batches modules moduleExecutors executedAt
                    beyond_model steps))
  ↔ closed_deps steps ∧ ¬ has_cycle steps.
Proof.
  intros Hu.
  pose proof (loop_completed steps (length steps) (S (length steps))
                (new_graph steps) (inv_init _ _ _ _ steps)) as Hc.
  fold (logged_batches modules moduleExecutors executedAt beyond_model steps)
    in Hc.
  destruct (new_graph_sets steps) as [He _]. rewrite He in Hc.
  destruct (execute_ends modules moduleExecutors executedAt beyond_model steps)
    as [(g & Hx & Hinv & Hsize)|(g & Hx & Hinv & Hsize & Hready)];
    rewrite Hx in Hc.
  - split.
    + intros _.
      destruct (returns_wellformed modules moduleExecutors executedAt
                  beyond_model steps (collect_results g) g) as (_ & ? & ?);
        [|done]. unfold execute. by rewrite Hx.
    + intros _ s Hs.
      destruct (finished_all modules moduleExecutors executedAt beyond_model
                  steps g Hinv Hsize) as (_ & _ & Hall).
      destruct (Hall s Hs) as (Hin & _). rewrite Hc in Hin. set_solver.
  - split.
    + intros Hall. exfalso.
      assert (list_to_set (instanceId <$> steps) ⊆ completed g) as Hsub.
      { intros k (s & -> & Hs)%elem_of_list_to_set%list_elem_of_fmap.
        rewrite Hc. specialize (Hall s Hs). set_solver. }
      apply subseteq_size in Hsub.
      rewrite size_list_to_set in Hsub by done.
      rewrite length_fmap in Hsub. lia.
    + intros (Hcl & Hac). exfalso.
      destruct (execute_wellformed modules moduleExecutors executedAt
                  beyond_model steps Hu Hcl Hac) as (g' & Hx' & _).
      unfold execute in Hx'. by rewrite Hx in Hx'.
Qed.

End Batches.

(** ** The shape of the levels *)

Lemma layered_struct steps n :
  ∀ placed rem,
    NoDup rem → (∀ k, k ∈ rem → k ∉ placed) →
    NoDup (concat (layered n steps placed rem))
    ∧ (∀ k, k ∈ concat (layered n steps placed rem) → k ∈ rem)
    ∧ (∀ i level k d,
         layered n steps placed rem !! i = Some level →
         k ∈ level → d ∈ deps_of steps k →
         d ∈ placed
         ∨ ∃ j lj, j < i ∧ layered n steps placed rem !! j = Some lj ∧ d ∈ lj).
Proof.
  induction n as [|n IH]; intros placed rem Hnd Hdisj.
  { simpl. split_and!; [constructor|by intros k ?%elem_of_nil|done]. }
  rewrite layered_S.
  destruct (level_of steps placed rem) as [|x level] eqn:Hlevel.
  { simpl. split_and!; [constructor|by intros k ?%elem_of_nil|done]. }
  rewrite <- Hlevel. clear Hlevel x level.
  set (level := level_of steps placed rem).
  set (rem' := filter (λ k, k ∉ level) rem).
  assert (NoDup level) as Hndl by by apply NoDup_filter.
  assert (∀ k, k ∈ level → k ∈ rem) as Hsub by apply level_of_sub.
  destruct (IH (placed ++ level) rem') as (Hnd' & Hsub' & Hdeps').
  { by apply NoDup_filter. }
  { intros k [Hk Hin]%list_elem_of_filter [?|?]%elem_of_app; [|done].
    by apply (Hdisj k). }
  simpl. split_and!.
  - apply NoDup_app. split_and!; [done| |done].
    intros k Hk Hk'. apply Hsub' in Hk'.
    by apply list_elem_of_filter in Hk' as [? _].
  - intros k [Hk|Hk]%elem_of_app; [by apply Hsub|].
    apply Hsub' in Hk. by apply list_elem_of_filter in Hk as [_ ?].
  - intros i lv k d Hi Hk Hd. destruct i as [|i]; simpl in Hi.
    + injection Hi as <-. left.
      apply list_elem_of_filter in Hk as [Hall _].
      rewrite forallb_forall in Hall.
      apply list_elem_of_In, Hall in Hd. by apply bool_decide_eq_true in Hd.
    + destruct (Hdeps' i lv k d Hi Hk Hd) as [[?|?]%elem_of_app|(j & lj & ? & ? & ?)].
      * by left.
      * right. exists 0, level. split_and!; [lia|done..].
      * right. exists (S j), lj. split_and!; [lia|done..].
Qed.

(** X8. For a step list with unique instance ids and duplicate-free
    [dependsOn] lists, the levels of [analyzeParallelism] are a schedule:
    no level is empty, no id occurs twice, every id is the id of a step, and
    every dependency of a step placed in a level lies in an earlier
    level. *)
Theorem analyzeParallelism_topological steps :
  unique_ids steps → (∀ s, s ∈ steps → NoDup (deps s)) →
  ∃ r, analyzeParallelism steps = Some r
       ∧ (∀ level, level ∈ levels r → level ≠ [])
       ∧ NoDup (concat (levels r))
       ∧ (∀ k, k ∈ concat (levels r) → k ∈ instanceId <$> steps)
       ∧ (∀ i level s d,
            levels r !! i = Some level → s ∈ steps →
            instanceId s ∈ level → d ∈ deps s →
            ∃ j lj, j < i ∧ levels r !! j = Some lj ∧ d ∈ lj).
Proof.
  intros Hu Hnd. eexists. split; [by apply analyzeParallelism_layered|].
  simpl. unfold layered_levels.
  destruct (layered_struct steps (length steps) [] (instanceId <$> steps))
    as (H1 & H2 & H3); [done|by intros k _ ?%elem_of_nil|].
  split_and!; [|done..|].
  - intros level Hl. by eapply layered_nonempty.
  - intros i level s d Hi Hs Hk Hd.
    destruct (H3 i level (instanceId s) d Hi Hk) as [?%elem_of_nil|?];
      [|done..]. by rewrite deps_of_unique.
Qed.

Lemma diamond_deps_NoDup s : s ∈ Examples.diamond → NoDup (deps s).
Proof.
  intros Hs. repeat (apply elem_of_cons in Hs as [->|Hs]); simpl;
    [constructor|constructor| |by apply elem_of_nil in Hs].
  apply NoDup_cons. split; [|apply NoDup_singleton].
  by intros ?%list_elem_of_singleton.
Qed.

Lemma analyzeParallelism_topological_witness :
  ∃ r, analyzeParallelism Examples.diamond = Some r
       ∧ levels r = [["A"; "B"]; ["C"]]
       ∧ NoDup (concat (levels r)).
Proof.
  destruct (analyzeParallelism_topological Examples.diamond
              (proj1 diamond_wellformed) diamond_deps_NoDup)
    as (r & Hr & _ & Hnd & _).
  exists r. split; [exact Hr|]. split; [|exact Hnd].
  vm_compute in Hr. injection Hr as <-. reflexivity.
Defined.

(** X9. For such a list, [analyzeParallelism] places every step in some
    level exactly when every [dependsOn] entry names a step of the list and
    there is no cycle; otherwise the level list it returns leaves steps
    out. *)
Theorem analyzeParallelism_places_all_iff steps :
  unique_ids steps → (∀ s, s ∈ steps → NoDup (deps s)) →
  ∃ r, analyzeParallelism steps = Some r
       ∧ ((∀ s, s ∈ steps → instanceId s ∈ concat (levels r))
          ↔ closed_deps steps ∧ ¬ has_cycle steps).
Proof.
  intros Hu Hnd. eexists. split; [by apply analyzeParallelism_layered|].
  simpl.
  rewrite <- (logged_batches_layered [] (λ _, None) (λ _, EmptyString)
                (λ _, Rejected EmptyString) steps Hu).
  by apply batches_cover_iff.
Qed.

Lemma analyzeParallelism_places_all_iff_witness :
  ∃ r, analyzeParallelism Examples.diamond = Some r
       ∧ ∀ s, s ∈ Examples.diamond → instanceId s ∈ concat (levels r).
Proof.
  destruct (analyzeParallelism_places_all_iff Examples.diamond
              (proj1 diamond_wellformed) diamond_deps_NoDup)
    as (r & Hr & Hiff).
  exists r. split; [exact Hr|]. apply Hiff. apply diamond_wellformed.
Defined.

(** X10. For such a list, the batches that [execute] runs, one per
    iteration of its loop, are the levels that [analyzeParallelism]
    reports, in the same order and with the same ids in each, whatever the
    steps' executors do. *)
Theorem execute_batches_are_levels modules moduleExecutors executedAt
    beyond_model steps :
  unique_ids steps → (∀ s, s ∈ steps → NoDup (deps s)) →
  ∃ r, analyzeParallelism steps = Some r
       ∧ logged_batches modules moduleExecutors executedAt beyond_model steps
         = levels r.
Proof.
  intros Hu Hnd. eexists. split; [by apply analyzeParallelism_layered|].
  simpl. by apply logged_batches_layered.
Qed.

Lemma execute_batches_are_levels_witness :
  ∃ r, analyzeParallelism Examples.diamond = Some r
       ∧ logged_batches Examples.store Examples.executors Examples.clock
           Examples.no_exotic Examples.diamond
         = levels r
       ∧ levels r = [["A"; "B"]; ["C"]].
Proof.
  destruct (execute_batches_are_levels Examples.store Examples.executors
              Examples.clock Examples.no_exotic Examples.diamond
              (proj1 diamond_wellformed) diamond_deps_NoDup)
    as (r & Hr & Hb).
  exists r. split; [exact Hr|]. split; [exact Hb|].
  vm_compute in Hr. injection Hr as <-. reflexivity.
Defined.

(** * [suggestOptimalOrder] *)

Lemma bucket_push_lookup c c' i b :
  bucket c (bucket_push c' i b)
  = if decide (c = c') then bucket c b ++ [i] else bucket c b.
Proof. by destruct c, c'. Qed.

Lemma buckets_spec (moduleMap : gmap string ModuleDef) moduleIds c :
  bucket c
    (foldl (λ b i, match moduleMap !! i with
                   | Some module => bucket_push (category module) i b
                   | None => b
                   end)
           empty_buckets moduleIds)
  = of_category moduleMap c moduleIds.
Proof.
  unfold of_category.
  induction moduleIds as [|i l IH] using rev_ind; [by destruct c|].
  rewrite foldl_snoc, filter_app, filter_cons, filter_nil.
  destruct (moduleMap !! i) as [m|] eqn:Hm; simpl;
    rewrite ?bucket_push_lookup, IH;
    repeat case_decide; simplify_eq; by rewrite ?app_nil_r.
Qed.

Lemma suggestOptimalOrder_spec moduleIds modules :
  (suggestOptimalOrder moduleIds modules).1
  = flat_map (λ c, of_category (build_moduleMap modules) c moduleIds) stages.
Proof.
  unfold suggestOptimalOrder. simpl.
  rewrite <- !(buckets_spec (build_moduleMap modules) moduleIds).
  by rewrite app_nil_r.
Qed.

Lemma of_category_snoc moduleMap c l i :
  of_category moduleMap c (l ++ [i])
  = of_category moduleMap c l
    ++ (if decide (category <$> moduleMap !! i = Some c) then [i] else []).
Proof.
  unfold of_category. rewrite filter_app, filter_cons, filter_nil.
  by case_decide.
Qed.

Lemma order_snoc moduleMap l i :
  flat_map (λ c, of_category moduleMap c (l ++ [i])) stages
  ≡ₚ flat_map (λ c, of_category moduleMap c l) stages
     ++ (if decide (is_Some (moduleMap !! i)) then [i] else []).
Proof.
  simpl. rewrite !of_category_snoc, !app_nil_r.
  destruct (moduleMap !! i) as [m|] eqn:Hm; simpl.
  - destruct (category m) eqn:Hc; repeat case_decide; simplify_eq;
      try done; try (exfalso; by eauto);
      rewrite ?app_nil_r; solve_Permutation.
  - repeat case_decide; simplify_eq; try done;
      try (exfalso; by eapply is_Some_None); by rewrite !app_nil_r.
Qed.

Lemma order_Permutation moduleMap l :
  flat_map (λ c, of_category moduleMap c l) stages ≡ₚ known_ids moduleMap l.
Proof.
  induction l as [|i l IH] using rev_ind; [done|].
  rewrite order_snoc, IH. unfold known_ids.
  rewrite filter_app, filter_cons, filter_nil. by case_decide.
Qed.

(** X11. The order that [suggestOptimalOrder] returns is a rearrangement
    of the module ids that the catalog knows: ids without a module are
    dropped without notice, every other id is kept as often as it was
    given, and nothing is added. *)
Theorem suggestOptimalOrder_permutation moduleIds modules :
  (suggestOptimalOrder moduleIds modules).1
  ≡ₚ known_ids (build_moduleMap modules) moduleIds.
Proof. rewrite suggestOptimalOrder_spec. apply order_Permutation. Qed.

Lemma of_category_stage moduleMap c l i :
  i ∈ of_category moduleMap c l → stage_of moduleMap i = Some (stage c).
Proof.
  intros [Hc _]%list_elem_of_filter. unfold stage_of.
  destruct (moduleMap !! i); simpl in *; by simplify_eq.
Qed.

Lemma sorted_app {A} (R : A → A → Prop) l1 l2 :
  StronglySorted R l1 → StronglySorted R l2 →
  (∀ a b, a ∈ l1 → b ∈ l2 → R a b) →
  StronglySorted R (l1 ++ l2).
Proof.
  intros H1 H2 H12. induction H1 as [|a l1 Hs IH Hall]; simpl; [done|].
  constructor.
  - apply IH. intros ? ? ? ?. apply H12; [by right|done].
  - apply Forall_app. split; [done|].
    apply Forall_forall. intros b Hb. apply H12; [by left|done].
Qed.

Lemma of_category_sorted moduleMap c l :
  StronglySorted (stage_le moduleMap) (of_category moduleMap c l).
Proof.
  assert (∀ l', (∀ i, i ∈ l' → stage_of moduleMap i = Some (stage c)) →
                StronglySorted (stage_le moduleMap) l') as Hgen.
  { induction l' as [|a l' IH]; intros Hst; constructor.
    - apply IH. intros i Hi. apply Hst. by right.
    - apply Forall_forall. intros b Hb. unfold stage_le.
      rewrite (Hst a), (Hst b); [done|by right|by left]. }
  apply Hgen. intros i. apply of_category_stage.
Qed.

Lemma order_sorted moduleMap l :
  StronglySorted (stage_le moduleMap)
    (flat_map (λ c, of_category moduleMap c l) stages).
Proof.
  simpl. rewrite app_nil_r.
  repeat (apply sorted_app; [apply of_category_sorted| |]);
    try apply of_category_sorted;
    intros a b Ha Hb; unfold stage_le;
    rewrite (of_category_stage _ _ _ _ Ha);
    repeat (apply elem_of_app in Hb as [Hb|Hb]);
    rewrite (of_category_stage _ _ _ _ Hb); simpl; lia.
Qed.

Lemma of_category_of_category moduleMap c c' l :
  of_category moduleMap c (of_category moduleMap c' l)
  = if decide (c = c') then of_category moduleMap c l else [].
Proof.
  unfold of_category. induction l as [|i l IH]; [by case_decide|].
  rewrite !filter_cons.
  destruct (decide (category <$> moduleMap !! i = Some c')) as [Hc'|Hc'].
  - rewrite filter_cons, IH. destruct (decide (c = c')) as [->|Hne].
    + by rewrite decide_True.
    + rewrite decide_False by congruence. done.
  - rewrite IH. destruct (decide (c = c')) as [->|Hne]; [|done].
    by rewrite decide_False.
Qed.

Lemma of_category_app moduleMap c l1 l2 :
  of_category moduleMap c (l1 ++ l2)
  = of_category moduleMap c l1 ++ of_category moduleMap c l2.
Proof. apply filter_app. Qed.

Lemma of_category_order moduleMap c l :
  of_category moduleMap c (flat_map (λ c', of_category moduleMap c' l) stages)
  = of_category moduleMap c l.
Proof.
  simpl. rewrite app_nil_r.
  rewrite !of_category_app, !of_category_of_category.
  destruct c; simpl; by rewrite ?app_nil_r.
Qed.

(** X12. The suggested order is sorted by stage (data collection,
    processing, communication, decision, analysis, integration); ids of the
    same category keep the relative order in which they were given; and
    asking for the order of an order already suggested returns it
    unchanged. *)
Theorem suggestOptimalOrder_sorted_stable moduleIds modules :
  StronglySorted (stage_le (build_moduleMap modules))
    (suggestOptimalOrder moduleIds modules).1
  ∧ (∀ c, of_category (build_moduleMap modules) c
            (suggestOptimalOrder moduleIds modules).1
          = of_category (build_moduleMap modules) c moduleIds)
  ∧ (suggestOptimalOrder (suggestOptimalOrder moduleIds modules).1 modules).1
    = (suggestOptimalOrder moduleIds modules).1.
Proof.
  rewrite !suggestOptimalOrder_spec. split_and!.
  - apply order_sorted.
  - intros c. apply of_category_order.
  - apply flat_map_ext. intros c. apply of_category_order.
Qed.

(** * Suggested connections *)

Lemma insert_outputs_lookup {V} (m : gmap string V) outs (v : V) ty :
  foldl (λ a output, <[type output := v]> a) m outs !! ty
  = if existsb (λ o, bool_decide (type o = ty)) outs then Some v else m !! ty.
Proof.
  revert m. induction outs as [|o outs IH]; intros m; simpl; [done|].
  rewrite IH. case_bool_decide as Ho; simpl.
  - destruct (existsb _ outs); [done|]. subst ty. by rewrite lookup_insert_eq.
  - destruct (existsb _ outs); [done|]. by rewrite lookup_insert_ne.
Qed.

Lemma latest_provider_lt moduleMap pre ty j :
  latest_provider moduleMap pre ty = Some j → j < length pre.
Proof.
  intros (( p & Hp & _) & _)%latest_provider_spec.
  by apply lookup_lt_Some in Hp.
Qed.

Lemma source_of_snoc moduleMap pre s ty :
  source_of moduleMap (pre ++ [s]) ty
  = match moduleMap !! moduleId s with
    | Some module =>
        if existsb (λ o, bool_decide (type o = ty)) (outputs (io module))
        then Some (id module) else source_of moduleMap pre ty
    | None => source_of moduleMap pre ty
    end.
Proof.
  unfold source_of. rewrite latest_provider_snoc. unfold provides.
  destruct (moduleMap !! moduleId s) as [module|] eqn:Hm.
  - destruct (existsb _ _); simpl.
    + rewrite lookup_app_r, Nat.sub_diag by done. simpl. by rewrite Hm.
    + destruct (latest_provider moduleMap pre ty) as [j|] eqn:Hj; [|done].
      simpl. by rewrite lookup_app_l by by eapply latest_provider_lt.
  - destruct (latest_provider moduleMap pre ty) as [j|] eqn:Hj; [|done].
    simpl. by rewrite lookup_app_l by by eapply latest_provider_lt.
Qed.

Lemma suggest_inputs_spec (availableOutputs : gmap string string) choose
    module ins acc :
  (∀ ty, availableOutputs !! ty = choose ty) →
  foldl (λ suggestions input,
           match availableOutputs !! type input with
           | Some sourceModule =>
               suggestions ++
                 [ {| fromModule := sourceModule; toModule := id module;
                      dataType := type input;
                      confidence :=
                        if is_required input then 9 # 10 else 6 # 10 |} ]
           | None => suggestions
           end)
        acc ins
  = acc ++ flat_map (λ input,
                       match choose (type input) with
                       | Some sourceModule =>
                           [ {| fromModule := sourceModule;
                                toModule := id module;
                                dataType := type input;
                                confidence :=
                                  if is_required input then 9 # 10
                                  else 6 # 10 |} ]
                       | None => []
                       end) ins.
Proof.
  intros Hc. revert acc. induction ins as [|input ins IH]; intros acc; simpl.
  - by rewrite app_nil_r.
  - rewrite IH, Hc. destruct (choose (type input)); simpl; [|done].
    by rewrite <- app_assoc.
Qed.

Lemma generateSuggestedConnections_spec steps moduleMap :
  generateSuggestedConnections steps moduleMap
  = per_step (step_connections moduleMap) steps.
Proof.
  unfold generateSuggestedConnections.
  apply (forEach_inv (generateSuggestedConnections_step moduleMap)
           (λ pre st, st.1 = per_step (step_connections moduleMap) pre
                      ∧ ∀ ty, st.2 !! ty = source_of moduleMap pre ty)).
  - split; [done|]. intros ty. simpl. by rewrite lookup_empty.
  - intros pre s [sugg avail] [Hs Ha]. simpl in *.
    rewrite per_step_snoc. unfold generateSuggestedConnections_step,
      step_connections. simpl.
    destruct (moduleMap !! moduleId s) as [module|] eqn:Hm; simpl.
    + split.
      * rewrite (suggest_inputs_spec avail (source_of moduleMap pre)) by done.
        by rewrite Hs.
      * intros ty. rewrite insert_outputs_lookup, source_of_snoc, Hm.
        by rewrite Ha.
    + split; [by rewrite app_nil_r|].
      intros ty. by rewrite source_of_snoc, Hm.
Qed.

Lemma source_of_spec moduleMap pre ty sourceModule :
  source_of moduleMap pre ty = Some sourceModule →
  ∃ j p module,
    pre !! j = Some p ∧ moduleMap !! moduleId p = Some module
    ∧ id module = sourceModule
    ∧ provides moduleMap ty p = true
    ∧ ∀ j' p', j < j' → pre !! j' = Some p' →
               provides moduleMap ty p' = false.
Proof.
  unfold source_of. intros Hs.
  destruct (latest_provider moduleMap pre ty) as [j|] eqn:Hj; [|done].
  simpl in Hs. destruct (pre !! j) as [p|] eqn:Hp; [|done]. simpl in Hs.
  destruct (moduleMap !! moduleId p) as [module|] eqn:Hm; [|done].
  simpl in Hs. injection Hs as <-.
  apply latest_provider_spec in Hj as ((p' & Hp' & Hprov) & Hlater).
  rewrite Hp in Hp'. injection Hp' as <-.
  exists j, p, module. by split_and!.
Qed.

(** X13. [generateSuggestedConnections] suggests a connection for an
    input of a step exactly when some earlier step with a known module
    outputs its type; the connection then leads from the module of the
    latest such step to the module of the consuming step, with confidence
    0.9 for a required input and 0.6 for an optional one.  Connections
    never lead backwards or from a step to itself. *)
Theorem suggestedConnections_latest_source steps moduleMap c :
  c ∈ generateSuggestedConnections steps moduleMap
  ↔ ∃ i s module input j p source,
      steps !! i = Some s ∧ moduleMap !! moduleId s = Some module
      ∧ input ∈ inputs (io module)
      ∧ j < i ∧ steps !! j = Some p
      ∧ moduleMap !! moduleId p = Some source
      ∧ provides moduleMap (type input) p = true
      ∧ (∀ j' p', j < j' < i → steps !! j' = Some p' →
                  provides moduleMap (type input) p' = false)
      ∧ c = {| fromModule := id source; toModule := id module;
               dataType := type input;
               confidence := if is_required input then 9 # 10 else 6 # 10 |}.
Proof.
  rewrite generateSuggestedConnections_spec, per_step_elem. split.
  - intros (i & s & Hi & Hc). unfold step_connections in Hc.
    destruct (moduleMap !! moduleId s) as [module|] eqn:Hm;
      [|by apply elem_of_nil in Hc].
    apply list_elem_of_In, in_flat_map in Hc as (input & Hin & Hc).
    apply list_elem_of_In in Hin, Hc.
    destruct (source_of moduleMap (take i steps) (type input))
      as [sourceModule|] eqn:Hsrc; [|by apply elem_of_nil in Hc].
    apply list_elem_of_singleton in Hc.
    apply source_of_spec in Hsrc as (j & p & source & Hj & Hp & <- & Hprov & Hl).
    assert (j < i) as Hlt.
    { apply lookup_lt_Some in Hj. rewrite length_take in Hj. lia. }
    rewrite lookup_take_lt in Hj by done.
    exists i, s, module, input, j, p, source. split_and!; try done.
    intros j' p' [? ?] Hj'. apply (Hl j'); [done|].
    by rewrite lookup_take_lt.
  - intros (i & s & module & input & j & p & source & Hi & Hm & Hin & Hlt & Hj
            & Hp & Hprov & Hl & ->).
    exists i, s. split; [done|]. unfold step_connections. rewrite Hm.
    apply list_elem_of_In, in_flat_map. exists input.
    split; [by apply list_elem_of_In|]. apply list_elem_of_In.
    assert (latest_provider moduleMap (take i steps) (type input) = Some j)
      as Hlatest.
    { destruct (latest_provider moduleMap (take i steps) (type input))
        as [j0|] eqn:Hl0.
      - apply latest_provider_spec in Hl0 as ((p0 & Hp0 & Hprov0) & Hlater0).
        assert (j0 < i) as Hlt0.
        { apply lookup_lt_Some in Hp0. rewrite length_take in Hp0. lia. }
        rewrite lookup_take_lt in Hp0 by done.
        destruct (lt_eq_lt_dec j j0) as [[Hc|Hc]|Hc]; [|by subst|].
        + rewrite (Hl j0 p0) in Hprov0; [done|lia|done].
        + rewrite (Hlater0 j p) in Hprov; [done|done|].
          by rewrite lookup_take_lt.
      - exfalso. unfold latest_provider in Hl0. apply last_None in Hl0.
        assert (j ∈ providers moduleMap (take i steps) (type input)) as Hjin.
        { unfold providers. apply list_elem_of_filter. split.
          - rewrite lookup_take_lt by done. by rewrite Hj.
          - apply elem_of_seq. rewrite length_take.
            apply lookup_lt_Some in Hi. lia. }
        rewrite Hl0 in Hjin. by apply elem_of_nil in Hjin. }
    unfold source_of. rewrite Hlatest. simpl.
    rewrite lookup_take_lt by done. rewrite Hj. simpl. rewrite Hp. simpl.
    by apply list_elem_of_singleton.
Qed.

Lemma source_of_available moduleMap pre ty :
  is_Some (source_of moduleMap pre ty) ↔ available moduleMap pre ty = true.
Proof.
  induction pre as [|s pre IH] using rev_ind.
  - split; [by intros [? ?]|done].
  - rewrite source_of_snoc, available_snoc. unfold provides.
    destruct (moduleMap !! moduleId s) as [module|].
    + destruct (existsb _ _).
      * rewrite orb_true_r. split; [done|by eexists].
      * by rewrite orb_false_r.
    + by rewrite orb_false_r.
Qed.

Lemma sum_per_step {B} (f : list WorkflowStep → nat → WorkflowStep → list B)
    steps :
  length (per_step f steps)
  = sum_list (imap (λ i s, length (f (take i steps) i s)) steps).
Proof.
  induction steps as [|s steps IH] using rev_ind; [done|].
  rewrite per_step_snoc, length_app, IH, imap_app, sum_list_with_app. simpl.
  rewrite !Nat.add_0_r, take_app_length. f_equal. f_equal.
  apply imap_ext. intros i x Hi. simpl.
  rewrite take_app_le; [done|]. apply lookup_lt_Some in Hi. lia.
Qed.

Lemma inputs_accounted moduleMap pre index s :
  length (step_connections moduleMap pre index s)
  + length (step_errors moduleMap pre index s)
  + length (step_warnings moduleMap pre index s)
  = entries_due moduleMap s.
Proof.
  unfold step_connections, step_errors, step_warnings, entries_due.
  destruct (moduleMap !! moduleId s) as [module|]; [|done].
  induction (inputs (io module)) as [|input ins IH]; [done|]. simpl.
  rewrite !length_app.
  pose proof (source_of_available moduleMap pre (type input)) as Hav.
  destruct (source_of moduleMap pre (type input)) as [src|].
  - rewrite (proj1 Hav) by by eexists. simpl.
    rewrite !andb_false_r. simpl. lia.
  - destruct (available moduleMap pre (type input)).
    + by destruct (proj2 Hav eq_refl).
    + simpl. rewrite !andb_true_r. destruct (is_required input); simpl; lia.
Qed.

Lemma sum_list_imap_add {A} (f g h : nat → A → nat) (w : A → nat) l :
  (∀ i x, f i x + g i x + h i x = w x) →
  sum_list (imap f l) + sum_list (imap g l) + sum_list (imap h l)
  = sum_list (w <$> l).
Proof.
  intros Hw. revert f g h Hw.
  induction l as [|x l IH]; intros f g h Hw; simpl; [done|].
  pose proof (IH (f ∘ S) (g ∘ S) (h ∘ S) (λ i y, Hw (S i) y)) as IH'.
  pose proof (Hw 0 x).
  change (list_fmap A nat w l) with (w <$> l). lia.
Qed.

(** X14. Every declared input is accounted for exactly once: the number
    of suggested connections plus the numbers of errors and warnings of
    [validateDataFlow] is the number of inputs the known modules of the
    steps declare, plus one for each step with an unknown module. *)
Theorem inputs_accounted_once steps moduleMap :
  length (generateSuggestedConnections steps moduleMap)
  + length (validateDataFlow steps moduleMap).1
  + length (validateDataFlow steps moduleMap).2
  = sum_list (entries_due moduleMap <$> steps).
Proof.
  unfold validateDataFlow. rewrite validateDataFlow_spec. simpl.
  rewrite !length_fmap, generateSuggestedConnections_spec, !sum_per_step.
  apply sum_list_imap_add. intros i s. apply inputs_accounted.
Qed.

(** * Human intervention: suggestions and the automatic fix *)

Lemma when_elem c message w : w ∈ when c message → c = true ∧ w = message.
Proof.
  destruct c; simpl; [|by intros ?%elem_of_nil].
  by intros ->%list_elem_of_singleton.
Qed.

Lemma flat_map_when_elem {A} (c : A → bool) message (l : list A) w :
  w ∈ flat_map (λ p, when (c p) message) l →
  (∃ p, p ∈ l ∧ c p = true) ∧ w = message.
Proof.
  intros (p & Hp & Hw)%list_elem_of_In%in_flat_map.
  apply list_elem_of_In in Hp, Hw. apply when_elem in Hw as [Hc ->]. eauto.
Qed.

(** X15. [suggestHumanInterventionModules] never proposes a module that
    the workflow already holds: with a [human-manual-input] step in the
    workflow no suggestion mentions Human Manual Input, and with a
    [human-decision] step none mentions Human Decision, whatever the errors
    are; with both, there is no suggestion at all. *)
Theorem suggestions_skip_present_modules steps moduleMap errs :
  (has_module "human-manual-input" steps = true →
   ∀ w, w ∈ suggestHumanInterventionModules steps moduleMap errs →
        includes w (quoted "Human Manual Input") = false)
  ∧ (has_module "human-decision" steps = true →
     ∀ w, w ∈ suggestHumanInterventionModules steps moduleMap errs →
          includes w (quoted "Human Decision") = false)
  ∧ (has_module "human-manual-input" steps = true →
     has_module "human-decision" steps = true →
     suggestHumanInterventionModules steps moduleMap errs = []).
Proof.
  unfold suggestHumanInterventionModules. split_and!.
  - intros -> w Hw.
    repeat (apply elem_of_app in Hw as [Hw|Hw]);
      try (apply when_elem in Hw as [Hc ->]);
      try (apply flat_map_when_elem in Hw as [(p & _ & Hc) ->]);
      rewrite ?andb_false_r in Hc; try done; by vm_compute.
  - intros -> w Hw.
    repeat (apply elem_of_app in Hw as [Hw|Hw]);
      try (apply when_elem in Hw as [Hc ->]);
      try (apply flat_map_when_elem in Hw as [(p & _ & Hc) ->]);
      rewrite ?andb_false_r in Hc; try done; by vm_compute.
  - intros -> ->. simpl. rewrite !andb_false_r. simpl.
    induction (adjacent _) as [|p l IH]; [done|]. simpl.
    by rewrite !andb_false_r.
Qed.

Lemma approval_loop_cons now moduleMap done_ cur rest changes ticks :
  approval_loop now moduleMap done_ (cur :: rest) changes ticks
  = if bool_decide (moduleId cur ∈ highRiskModules)
       && negb (match last done_ with
                | Some prev => bool_decide (moduleId prev = "human-decision")
                | None => false
                end)
    then approval_loop now moduleMap
           (done_ ++ [decisionStep (now ticks) (length done_)
                        (name_or_this_operation moduleMap (moduleId cur));
                      cur])
           rest
           (changes ++ ["Added " +:+ quoted "Human Decision"
                          +:+ " approval checkpoint before "
                          +:+ name_or_this_operation moduleMap (moduleId cur)])
           (S ticks)
    else approval_loop now moduleMap (done_ ++ [cur]) rest changes ticks.
Proof.
  simpl. destruct (bool_decide (moduleId cur ∈ highRiskModules)); [|done].
  simpl. by destruct (match last done_ with Some _ => _ | None => _ end).
Qed.

Lemma guarded_snoc l x :
  guarded l →
  (moduleId x ∈ highRiskModules →
   ∃ p, last l = Some p ∧ moduleId p = "human-decision") →
  guarded (l ++ [x]).
Proof.
  intros Hg Hx i s Hi Hrisk.
  destruct (decide (i < length l)) as [Hlt|Hge].
  - rewrite lookup_app_l in Hi by done.
    destruct (Hg i s Hi Hrisk) as (j & p & -> & Hj & Hp).
    exists j, p. split_and!; [done| |done]. rewrite lookup_app_l; [done|lia].
  - assert (i = length l) as ->.
    { pose proof (lookup_lt_Some _ _ _ Hi) as Hlt.
      rewrite length_app in Hlt. simpl in Hlt. lia. }
    rewrite lookup_app_r, Nat.sub_diag in Hi by done. injection Hi as <-.
    destruct (Hx Hrisk) as (p & Hlast & Hp). rewrite last_lookup in Hlast.
    destruct l as [|y l]; [done|].
    exists (length l), p. split_and!; [done| |done].
    rewrite lookup_app_l by (simpl; lia). exact Hlast.
Qed.

Lemma decision_not_risky t i n :
  moduleId (decisionStep t i n) ∉ highRiskModules.
Proof.
  simpl. intros H. repeat (apply elem_of_cons in H as [H|H]; [done|]).
  by apply elem_of_nil in H.
Qed.

Lemma padded_refl P l : padded P l l.
Proof. induction l; by constructor. Qed.

Lemma padded_sublist P l1 l2 : padded P l1 l2 → sublist l1 l2.
Proof. induction 1; by constructor. Qed.

Lemma padded_snoc P l1 l2 x : padded P l1 l2 → P x → padded P l1 (l2 ++ [x]).
Proof.
  induction 1 as [|y l1 l2 _ IH|y l1 l2 Hy _ IH]; intros Hx; simpl.
  - apply padded_insert; [done|constructor].
  - apply padded_keep. by apply IH.
  - apply padded_insert; [done|]. by apply IH.
Qed.

Lemma approval_loop_facts now moduleMap todo :
  ∀ done_ changes ticks,
    let r := approval_loop now moduleMap done_ todo changes ticks in
    (∃ extra, r.1.1 = done_ ++ extra ∧ padded is_human todo extra)
    ∧ length r.1.1 + length changes = length (done_ ++ todo) + length r.1.2
    ∧ (guarded done_ → guarded r.1.1).
Proof.
  induction todo as [|cur rest IH]; intros done_ changes ticks.
  - simpl. rewrite app_nil_r. split_and!; [|lia|done].
    exists []. rewrite app_nil_r. split; [done|constructor].
  - rewrite approval_loop_cons.
    destruct (bool_decide (moduleId cur ∈ highRiskModules)
              && negb _) eqn:Hins.
    + destruct (IH (done_ ++ [decisionStep (now ticks) (length done_)
                                (name_or_this_operation moduleMap (moduleId cur));
                              cur])
                   (changes ++ ["Added " +:+ quoted "Human Decision"
                                  +:+ " approval checkpoint before "
                                  +:+ name_or_this_operation moduleMap
                                        (moduleId cur)])
                   (S ticks)) as ((extra & Hr & Hp) & Hlen & Hg).
      split_and!.
      * eexists. rewrite Hr, <- app_assoc. split; [done|]. simpl.
        apply padded_insert; [by right|]. by apply padded_keep.
      * rewrite !length_app in *. simpl in *. lia.
      * intros Hgd. apply Hg.
        change [?a; ?b] with ([a] ++ [b]). rewrite app_assoc.
        apply guarded_snoc.
        -- apply guarded_snoc; [done|]. intros Hr'.
           by apply decision_not_risky in Hr'.
        -- intros _. rewrite last_snoc. by eexists.
    + destruct (IH (done_ ++ [cur]) changes ticks)
        as ((extra & Hr & Hp) & Hlen & Hg).
      split_and!.
      * eexists. rewrite Hr, <- app_assoc. split; [done|]. simpl.
        by apply padded_keep.
      * rewrite !length_app in *. simpl in *. lia.
      * intros Hgd. apply Hg. apply guarded_snoc; [done|]. intros Hr'.
        rewrite bool_decide_eq_true_2 in Hins by done. simpl in Hins.
        apply negb_false_iff in Hins.
        destruct (last done_) as [prev|]; [|done].
        apply bool_decide_eq_true in Hins. by exists prev.
Qed.

Lemma validateWorkflow_nil modules :
  isValid (validateWorkflow [] modules) = true.
Proof. apply isValid_iff. by rewrite validateWorkflow_errors. Qed.

Lemma guarded_manual t : guarded [manualInputStep t].
Proof.
  intros i s Hi Hrisk. destruct i; [|done]. injection Hi as <-.
  simpl in Hrisk. repeat (apply elem_of_cons in Hrisk as [Hrisk|Hrisk]; [done|]).
  by apply elem_of_nil in Hrisk.
Qed.

Lemma guarded_nil : guarded [].
Proof. by intros i s Hi. Qed.

Lemma autoFix_facts now steps modules :
  isValid (validateWorkflow steps modules) = false →
  ∃ fixedSteps changes lastStep,
    autoFixWorkflowWithHumanModules now steps modules
    = Normal (fixedSteps, changes)
    ∧ padded is_human steps fixedSteps
    ∧ length fixedSteps = length steps + length changes
    ∧ guarded fixedSteps
    ∧ last fixedSteps = Some lastStep
    ∧ (category <$> build_moduleMap modules !! moduleId lastStep
         = Some analysis →
       moduleId lastStep = "human-decision").
Proof.
  intros Hinv. unfold autoFixWorkflowWithHumanModules. rewrite Hinv.
  assert (steps ≠ []) as Hne.
  { intros ->. by rewrite validateWorkflow_nil in Hinv. }
  set (missing := filter _ _).
  set (st1 := if nonempty missing then _ else _).
  assert (length st1.1.1 = length steps + length st1.1.2
          ∧ (∃ d t, (d = [] ∨ d = [manualInputStep t])
                    ∧ d ++ steps = st1.1.1)) as (Hl1 & d & t & Hd & Hst1).
  { unfold st1. destruct (nonempty missing); simpl.
    - split; [lia|].
      exists [manualInputStep (now 0)], (now 0). split; [by right|done].
    - split; [lia|]. exists [], 0%N. split; [by left|done]. }
  assert (approval_loop now (build_moduleMap modules) [] st1.1.1 st1.1.2 st1.2
          = approval_loop now (build_moduleMap modules) d steps st1.1.2 st1.2)
    as Hloop.
  { rewrite <- Hst1. destruct Hd as [->| ->]; [done|]. apply approval_loop_manual. }
  rewrite Hloop. clear Hloop.
  destruct (approval_loop_facts now (build_moduleMap modules) steps d st1.1.2
              st1.2) as ((extra & Hr & Hp) & Hlen & Hg).
  set (st2 := approval_loop _ _ _ _ _ _) in *.
  assert (guarded st2.1.1) as Hg2.
  { apply Hg. destruct Hd as [->| ->]; [apply guarded_nil|apply guarded_manual]. }
  assert (padded is_human steps st2.1.1) as Hp2.
  { rewrite Hr. destruct Hd as [->| ->]; [done|].
    simpl. apply padded_insert; [by left|done]. }
  assert (length st2.1.1 = length steps + length st2.1.2) as Hlen2.
  { rewrite length_app in Hlen. rewrite <- Hst1, length_app in Hl1. lia. }
  destruct (last st2.1.1) as [lastStep|] eqn:Hlast.
  - destruct (bool_decide _ && negb _) eqn:Hfinal.
    + eexists _, _, _. split; [done|]. split_and!.
      * apply padded_snoc; [done|]. by right.
      * rewrite !length_app. simpl. lia.
      * apply guarded_snoc; [done|]. intros Hr'. simpl in Hr'.
        repeat (apply elem_of_cons in Hr' as [Hr'|Hr']; [done|]).
        by apply elem_of_nil in Hr'.
      * apply last_snoc.
      * done.
    + exists st2.1.1, st2.1.2, lastStep. split; [done|].
      split_and!; [done..|]. intros Hcat.
      rewrite bool_decide_eq_true_2 in Hfinal by done. simpl in Hfinal.
      apply negb_false_iff in Hfinal. by apply bool_decide_eq_true in Hfinal.
  - apply last_None in Hlast. apply padded_sublist in Hp2.
    rewrite Hlast in Hp2. apply sublist_nil_r in Hp2. done.
Qed.

Lemma autoFix_keeps_steps_padded now steps modules :
  ∃ fixedSteps changes,
    autoFixWorkflowWithHumanModules now steps modules
    = Normal (fixedSteps, changes)
    ∧ padded is_human steps fixedSteps.
Proof.
  destruct (isValid (validateWorkflow steps modules)) eqn:Hv.
  - exists steps, []. unfold autoFixWorkflowWithHumanModules. rewrite Hv.
    split; [done|apply padded_refl].
  - destruct (autoFix_facts now steps modules Hv)
      as (fixedSteps & changes & _ & Hx & Hp & _).
    by exists fixedSteps, changes.
Qed.

(** X16. [autoFixWorkflowWithHumanModules] always returns, and what it
    returns is the given list with steps of the two human intervention
    modules inserted: no step is dropped, changed or reordered, and
    [changes] holds one note per inserted step. *)
Theorem autoFix_keeps_steps now steps modules :
  ∃ fixedSteps changes,
    autoFixWorkflowWithHumanModules now steps modules
    = Normal (fixedSteps, changes)
    ∧ padded is_human steps fixedSteps
    ∧ sublist steps fixedSteps
    ∧ length fixedSteps = length steps + length changes.
Proof.
  destruct (isValid (validateWorkflow steps modules)) eqn:Hv.
  - exists steps, []. unfold autoFixWorkflowWithHumanModules. rewrite Hv.
    split_and!; [done|apply padded_refl|done|]. simpl. lia.
  - destruct (autoFix_facts now steps modules Hv)
      as (fixedSteps & changes & _ & Hx & Hp & Hl & _).
    exists fixedSteps, changes. split_and!; [done..| |done].
    by eapply padded_sublist.
Qed.

(** X17. After the automatic fix of a workflow that failed validation,
    every step that runs a high-risk module (quotation, discount-pricing,
    email-interact) comes right after a [human-decision] step, and the
    workflow does not end with a step of an analysis module, unless that
    step is [human-decision] itself. *)
Theorem autoFix_approval_checkpoints now steps modules :
  isValid (validateWorkflow steps modules) = false →
  ∃ fixedSteps changes lastStep,
    autoFixWorkflowWithHumanModules now steps modules
    = Normal (fixedSteps, changes)
    ∧ guarded fixedSteps
    ∧ last fixedSteps = Some lastStep
    ∧ (category <$> build_moduleMap modules !! moduleId lastStep
         = Some analysis →
       moduleId lastStep = "human-decision").
Proof.
  intros Hv.
  destruct (autoFix_facts now steps modules Hv)
    as (fixedSteps & changes & lastStep & Hx & _ & _ & Hg & Hlast & Hcat).
  by exists fixedSteps, changes, lastStep.
Qed.

Lemma autoFix_approval_checkpoints_witness :
  ∃ fixedSteps changes,
    autoFixWorkflowWithHumanModules Examples.frozen Examples.quote_only
      Examples.catalog
    = Normal (fixedSteps, changes)
    ∧ guarded fixedSteps
    ∧ moduleId <$> fixedSteps
      = ["human-manual-input"; "human-decision"; "quotation"].
Proof.
  destruct (autoFix_approval_checkpoints Examples.frozen Examples.quote_only
              Examples.catalog)
    as (fixedSteps & changes & lastStep & Hx & Hg & _).
  - vm_compute. reflexivity.
  - exists fixedSteps, changes. split; [exact Hx|]. split; [exact Hg|].
    vm_compute in Hx. injection Hx as <- _. reflexivity.
Defined.

(** * Diagnostics: what each step adds *)

Lemma per_step_app_prefix {B}
    (f : list WorkflowStep → nat → WorkflowStep → list B) steps more :
  per_step f steps `prefix_of` per_step f (steps ++ more).
Proof.
  induction more as [|s more IH] using rev_ind.
  - by rewrite app_nil_r.
  - rewrite app_assoc, per_step_snoc. by apply prefix_app_r.
Qed.

Lemma prefix_fmap_render {A B} (f : A → B) (l1 l2 : list A) :
  l1 `prefix_of` l2 → f <$> l1 `prefix_of` f <$> l2.
Proof. intros [k ->]. exists (f <$> k). by rewrite fmap_app. Qed.

(** X18. The diagnostics of a step depend only on the steps before it:
    when steps are appended to a workflow, the errors and warnings of
    [validateDataFlow], the errors of [checkMissingDependencies], the
    dependency graph and the suggested connections of the longer workflow
    start with those of the shorter one. *)
Theorem diagnostics_extend steps more moduleMap :
  (validateDataFlow steps moduleMap).1
    `prefix_of` (validateDataFlow (steps ++ more) moduleMap).1
  ∧ (validateDataFlow steps moduleMap).2
      `prefix_of` (validateDataFlow (steps ++ more) moduleMap).2
  ∧ checkMissingDependencies steps moduleMap
      `prefix_of` checkMissingDependencies (steps ++ more) moduleMap
  ∧ buildDependencyGraph steps moduleMap
      `prefix_of` buildDependencyGraph (steps ++ more) moduleMap
  ∧ generateSuggestedConnections steps moduleMap
      `prefix_of` generateSuggestedConnections (steps ++ more) moduleMap.
Proof.
  unfold validateDataFlow, checkMissingDependencies.
  rewrite !validateDataFlow_spec, !checkMissingDependencies_spec,
    !buildDependencyGraph_spec, !generateSuggestedConnections_spec. simpl.
  split_and!; try apply prefix_fmap_render; apply per_step_app_prefix.
Qed.

Lemma step_errors_count moduleMap pre index s :
  length (step_errors moduleMap pre index s)
  = match moduleMap !! moduleId s with Some _ => 0 | None => 1 end
    + length (flagged (step_errors moduleMap pre index s)).
Proof.
  unfold step_errors. destruct (moduleMap !! moduleId s) as [module|]; [|done].
  induction (inputs (io module)) as [|input ins IH]; [done|]. simpl.
  rewrite flagged_app, !length_app, IH.
  destruct (is_required input && negb _); simpl; lia.
Qed.

Lemma step_missing_count moduleMap pre index s :
  length (step_missing moduleMap pre index s)
  = length (flagged (step_missing moduleMap pre index s)).
Proof.
  unfold step_missing. destruct (moduleMap !! moduleId s) as [module|]; [|done].
  induction (inputs (io module)) as [|input ins IH]; [done|]. simpl.
  rewrite flagged_app, !length_app, IH.
  destruct (is_required input && negb _); simpl; lia.
Qed.

Lemma errors_count moduleMap steps :
  length (per_step (step_errors moduleMap) steps)
  = length (unknown_steps moduleMap steps)
    + length (flagged (per_step (step_errors moduleMap) steps)).
Proof.
  induction steps as [|s steps IH] using rev_ind; [done|].
  rewrite per_step_snoc, flagged_app, !length_app, IH, step_errors_count.
  unfold unknown_steps. rewrite filter_app, length_app, filter_cons, filter_nil.
  destruct (moduleMap !! moduleId s); simpl;
    try case_decide; try done; simpl; lia.
Qed.

Lemma missing_count moduleMap steps :
  length (per_step (step_missing moduleMap) steps)
  = length (flagged (per_step (step_missing moduleMap) steps)).
Proof.
  induction steps as [|s steps IH] using rev_ind; [done|].
  by rewrite per_step_snoc, flagged_app, !length_app, IH, step_missing_count.
Qed.

(** X19. [validateWorkflow] reports every unmet required input twice,
    once as a missing required input and once as an input that no previous
    step provides, and every step with an unknown module once: the number
    of its errors is the number of such steps plus twice the number of
    unmet required inputs. *)
Theorem validateWorkflow_counts_errors_twice steps modules :
  length (errors (validateWorkflow steps modules))
  = length (unknown_steps (build_moduleMap modules) steps)
    + 2 * length (flagged
                    (validateDataFlow_log steps (build_moduleMap modules)).1).
Proof.
  rewrite validateWorkflow_errors, validateDataFlow_spec. simpl.
  rewrite length_app, !length_fmap, errors_count, missing_count.
  pose proof (flagged_agree steps (build_moduleMap modules)) as Hf.
  rewrite validateDataFlow_spec, checkMissingDependencies_spec in Hf.
  simpl in Hf. rewrite <- Hf. lia.
Qed.

(** ** What the automatic fix cannot repair *)

Lemma padded_split P l1 l2 :
  padded P l1 l2 →
  ∀ pre s post, l1 = pre ++ s :: post →
  ∃ pre' post', l2 = pre' ++ s :: post'
                ∧ padded P pre pre' ∧ padded P post post'.
Proof.
  induction 1 as [|x l1 l2 Hp IH|x l1 l2 Hx Hp IH]; intros pre s post Heq.
  - by destruct pre.
  - destruct pre as [|y pre]; simpl in Heq; simplify_eq.
    + exists [], l2. split_and!; [done|constructor|done].
    + destruct (IH pre s post eq_refl) as (pre' & post' & -> & Hpre & Hpost).
      exists (y :: pre'), post'. split_and!; [done| |done].
      by apply padded_keep.
  - destruct (IH pre s post Heq) as (pre' & post' & -> & Hpre & Hpost).
    exists (x :: pre'), post'. split_and!; [done| |done].
    by apply padded_insert.
Qed.

Lemma padded_available P moduleMap ty l1 l2 :
  padded P l1 l2 → (∀ x, P x → provides moduleMap ty x = false) →
  available moduleMap l2 ty = available moduleMap l1 ty.
Proof.
  intros Hp HP. unfold available.
  induction Hp as [|x l1 l2 _ IH|x l1 l2 Hx _ IH]; simpl; [done|by rewrite IH|].
  by rewrite (HP x Hx).
Qed.

Lemma human_provides_nothing moduleMap ty x :
  declares_output moduleMap "human-manual-input" ty = false →
  declares_output moduleMap "human-decision" ty = false →
  is_human x → provides moduleMap ty x = false.
Proof.
  unfold declares_output, provides. by intros Hm Hd [-> | ->].
Qed.

Lemma available_false moduleMap pre ty j p :
  available moduleMap pre ty = false → pre !! j = Some p →
  provides moduleMap ty p = false.
Proof.
  unfold available. intros Ha Hj.
  destruct (provides moduleMap ty p) eqn:Hp; [|done].
  assert (existsb (provides moduleMap ty) pre = true) as Hex; [|congruence].
  apply existsb_exists. exists p. split; [|done].
  by eapply list_elem_of_In, list_elem_of_lookup_2.
Qed.

Lemma still_invalid steps fixedSteps modules i s module input :
  padded is_human steps fixedSteps →
  steps !! i = Some s →
  build_moduleMap modules !! moduleId s = Some module →
  input ∈ inputs (io module) → is_required input = true →
  available (build_moduleMap modules) (take i steps) (type input) = false →
  declares_output (build_moduleMap modules) "human-manual-input" (type input)
  = false →
  declares_output (build_moduleMap modules) "human-decision" (type input)
  = false →
  isValid (validateWorkflow fixedSteps modules) = false.
Proof.
  intros Hp Hi Hm Hin Hreq Hav Hmi Hdec.
  destruct (padded_split _ _ _ Hp (take i steps) s (drop (S i) steps))
    as (pre' & post' & -> & Hpre & _).
  { by rewrite <- (take_drop_middle steps i s Hi) at 1. }
  assert (available (build_moduleMap modules) pre' (type input) = false)
    as Hav'.
  { rewrite (padded_available is_human _ _ _ _ Hpre); [done|].
    intros x. by apply human_provides_nothing. }
  destruct (isValid _) eqn:Hv; [|done]. apply isValid_iff in Hv.
  rewrite validateWorkflow_errors in Hv. apply app_eq_nil in Hv as [Hv _].
  apply fmap_nil_inv in Hv.
  pose proof (unmet_required_input_error (pre' ++ s :: post')
                (build_moduleMap modules) (length pre') s module input) as He.
  rewrite Hv in He. exfalso. eapply not_elem_of_nil. apply He; try done.
  - by rewrite list_lookup_middle.
  - intros j p Hj Hjp. rewrite lookup_app_l in Hjp by done.
    by eapply available_false.
Qed.

(** X20. The automatic fix does not supply data by itself: when a step
    has a required input of a type that no earlier step provides, and the
    catalog does not declare this type as an output of [human-manual-input]
    or of [human-decision], the workflow that
    [autoFixWorkflowWithHumanModules] returns still fails
    [validateWorkflow]. *)
Theorem autoFix_cannot_supply now steps modules i s module input :
  steps !! i = Some s →
  build_moduleMap modules !! moduleId s = Some module →
  input ∈ inputs (io module) → is_required input = true →
  available (build_moduleMap modules) (take i steps) (type input) = false →
  declares_output (build_moduleMap modules) "human-manual-input" (type input)
  = false →
  declares_output (build_moduleMap modules) "human-decision" (type input)
  = false →
  ∃ fixedSteps changes,
    autoFixWorkflowWithHumanModules now steps modules
    = Normal (fixedSteps, changes)
    ∧ isValid (validateWorkflow fixedSteps modules) = false.
Proof.
  intros Hi Hm Hin Hreq Hav Hmi Hdec.
  destruct (autoFix_keeps_steps_padded now steps modules)
    as (fixedSteps & changes & Hx & Hp).
  exists fixedSteps, changes. split; [done|].
  by eapply still_invalid.
Qed.

Lemma autoFix_cannot_supply_witness :
  ∃ fixedSteps changes,
    autoFixWorkflowWithHumanModules Examples.frozen Examples.quote_only
      Examples.catalog
    = Normal (fixedSteps, changes)
    ∧ isValid (validateWorkflow fixedSteps Examples.catalog) = false.
Proof.
  apply (autoFix_cannot_supply Examples.frozen Examples.quote_only
           Examples.catalog 0 (Examples.plain "q" "quotation" None)
           {| id := "quotation"; name := "New and Revised Quotation";
              io := {| inputs := [Examples.dt "products" (Some true);
                                  Examples.dt "customers" None];
                       outputs := [Examples.dt "quotes" None] |};
              category := communication |}
           (Examples.dt "products" (Some true))).
  - reflexivity.
  - vm_compute. reflexivity.
  - apply list_elem_of_here.
  - reflexivity.
  - reflexivity.
  - vm_compute. reflexivity.
  - vm_compute. reflexivity.
Defined.

(** * The workflow store *)

Lemma getAll_eq w :
  WorkflowStorage.getAll w = (stored_workflows w, w).
Proof. done. Qed.

Lemma getById_eq id w :
  WorkflowStorage.getById id w
  = (snd <$> first_with_id id (stored_workflows w), w).
Proof. done. Qed.

Lemma stored_after_write data w :
  stored_workflows (WorkflowStorage.write data w).2 = data.
Proof. done. Qed.

Lemma create_eq env fields w :
  WorkflowStorage.create env fields w
  = (let created :=
       {| wf_id := pretty (clock env (clock_reads w));
          wf_name := f_name fields;
          wf_description := f_description fields;
          wf_steps := f_steps fields;
          wf_createdAt := toISOString env (clock env (S (clock_reads w)));
          wf_updatedAt := toISOString env (clock env (S (S (clock_reads w)))) |}
     in
     (created,
      {| files := {| workflows_json := Some (stored_workflows w ++ [created]);
                     executions_json := executions_json (files w);
                     modules_json := modules_json (files w) |};
         clock_reads := S (S (S (clock_reads w)));
         uuids_drawn := uuids_drawn w |})).
Proof. done. Qed.

Lemma create_spec env fields w created w' :
  WorkflowStorage.create env fields w = (created, w') →
  wf_id created = pretty (clock env (clock_reads w))
  ∧ stored_workflows w' = stored_workflows w ++ [created]
  ∧ (first_with_id (wf_id created) (stored_workflows w) = None →
     WorkflowStorage.getById (wf_id created) w' = (Some created, w'))
  ∧ (∀ i o, first_with_id (wf_id created) (stored_workflows w) = Some (i, o) →
            WorkflowStorage.getById (wf_id created) w' = (Some o, w')).
Proof.
  rewrite create_eq. cbv zeta. intros Heq.
  pose proof (f_equal fst Heq) as H1. pose proof (f_equal snd Heq) as H2.
  simpl in H1, H2.
  assert (wf_id created = pretty (clock env (clock_reads w))) as Hid
    by by subst created.
  assert (stored_workflows w' = stored_workflows w ++ [created]) as Hst
    by by subst created w'.
  clear Heq H1 H2. split; [done|]. split; [done|].
  rewrite !getById_eq, Hst. unfold first_with_id. split.
  - intros Hnone. rewrite (list_find_app_r _ _ _ Hnone). simpl.
    by rewrite decide_True.
  - intros i o Hsome. by rewrite (list_find_app_l _ _ _ _ _ Hsome).
Qed.

(** X21. [WorkflowStorage.create] appends the new workflow to the stored
    ones and names it by the decimal reading of the clock.  Looking this id
    up afterwards returns the new workflow when no stored workflow had the
    id, and otherwise the oldest stored workflow with it: of two workflows
    created within the same millisecond, the later one cannot be reached
    by its id. *)
Theorem create_then_getById env fields w created w' :
  WorkflowStorage.create env fields w = (created, w') →
  wf_id created = pretty (clock env (clock_reads w))
  ∧ stored_workflows w' = stored_workflows w ++ [created]
  ∧ (first_with_id (wf_id created) (stored_workflows w) = None →
     WorkflowStorage.getById (wf_id created) w' = (Some created, w'))
  ∧ (∀ i o, first_with_id (wf_id created) (stored_workflows w) = Some (i, o) →
            WorkflowStorage.getById (wf_id created) w' = (Some o, w')).
Proof. apply create_spec. Qed.

Lemma create_then_getById_witness :
  ∃ first second,
    stored_workflows Scenario.twice = [first; second]
    ∧ wf_id second = wf_id first
    ∧ wf_name second = Some "second"
    ∧ WorkflowStorage.getById (wf_id second) Scenario.twice
      = (Some first, Scenario.twice).
Proof.
  destruct (WorkflowStorage.create Scenario.env (Scenario.fields "first")
              fresh_world) as [first w1] eqn:H1.
  destruct (WorkflowStorage.create Scenario.env (Scenario.fields "second") w1)
    as [second w2] eqn:H2.
  destruct (create_then_getById _ _ _ _ _ H2) as (Hid & Hst & _ & Hold).
  exists first, second.
  assert (Scenario.twice = w2) as ->.
  { unfold Scenario.twice. rewrite H1. change ((first, w1).2) with w1.
    by rewrite H2. }
  rewrite create_eq in H1. injection H1 as <- <-.
  rewrite create_eq in H2. injection H2 as <- <-.
  split; [reflexivity|]. split; [reflexivity|]. split; [reflexivity|].
  apply (Hold 0). reflexivity.
Defined.

Lemma delete_eq id w :
  WorkflowStorage.delete id w
  = match first_with_id id (stored_workflows w) with
    | None => (false, w)
    | Some (index, _) =>
        (true, (WorkflowStorage.write (delete index (stored_workflows w)) w).2)
    end.
Proof.
  unfold WorkflowStorage.delete, and_then. rewrite getAll_eq.
  unfold first_with_id. by destruct (list_find _ _) as [[index o]|].
Qed.

Lemma list_find_delete_unique (l : list Workflow) id i o :
  NoDup (wf_id <$> l) →
  list_find (λ x, wf_id x = id) l = Some (i, o) →
  list_find (λ x, wf_id x = id) (delete i l) = None.
Proof.
  intros Hnd (Hi & Hid & _)%list_find_Some.
  apply list_find_None, Forall_forall. intros x Hx Hxid.
  apply list_elem_of_lookup in Hx as [j Hj].
  assert (∃ j', j' ≠ i ∧ l !! j' = Some x) as (j' & Hne & Hj').
  { destruct (decide (j < i)).
    - exists j. split; [lia|]. by rewrite list_lookup_delete_lt in Hj.
    - exists (S j). split; [lia|]. rewrite list_lookup_delete_ge in Hj by lia. done. }
  apply Hne. eapply (NoDup_lookup _ _ _ _ Hnd).
  - rewrite list_lookup_fmap, Hj'. simpl. by rewrite Hxid.
  - rewrite list_lookup_fmap, Hi. simpl. by rewrite Hid.
Qed.

Lemma delete_spec id w deleted w' :
  WorkflowStorage.delete id w = (deleted, w') →
  match first_with_id id (stored_workflows w) with
  | None => deleted = false ∧ w' = w
  | Some (index, _) =>
      deleted = true
      ∧ stored_workflows w' = delete index (stored_workflows w)
      ∧ (NoDup (wf_id <$> stored_workflows w) →
         WorkflowStorage.getById id w' = (None, w'))
  end.
Proof.
  rewrite delete_eq.
  destruct (first_with_id id (stored_workflows w)) as [[index o]|] eqn:Hf;
    intros Heq;
    pose proof (f_equal fst Heq) as H1; pose proof (f_equal snd Heq) as H2;
    cbn [fst snd] in H1, H2; subst deleted w'; [|done].
  split; [done|]. split; [done|]. intros Hnd.
  rewrite getById_eq, stored_after_write. unfold first_with_id in *.
  by rewrite (list_find_delete_unique _ _ _ _ Hnd Hf).
Qed.

(** X22. [WorkflowStorage.delete] removes the oldest stored workflow with
    the given id and nothing else; when no stored workflow has the id, it
    answers [false] and writes nothing.  When the stored ids are unique, no
    workflow with the id is left afterwards. *)
Theorem delete_removes_first id w deleted w' :
  WorkflowStorage.delete id w = (deleted, w') →
  match first_with_id id (stored_workflows w) with
  | None => deleted = false ∧ w' = w
  | Some (index, _) =>
      deleted = true
      ∧ stored_workflows w' = delete index (stored_workflows w)
      ∧ (NoDup (wf_id <$> stored_workflows w) →
         WorkflowStorage.getById id w' = (None, w'))
  end.
Proof. apply delete_spec. Qed.

Lemma delete_removes_first_witness :
  ∃ w', WorkflowStorage.delete "1700000000000" Scenario.twice = (true, w')
        ∧ length (stored_workflows w') = 1
        ∧ (WorkflowStorage.getById "1700000000000" w').1 ≠ None.
Proof.
  destruct (WorkflowStorage.delete "1700000000000" Scenario.twice)
    as [deleted w'] eqn:Hd.
  pose proof (delete_removes_first _ _ _ _ Hd) as H.
  vm_compute first_with_id in H. destruct H as (-> & Hst & _).
  exists w'. split; [reflexivity|]. rewrite getById_eq, Hst.
  split; [reflexivity|]. vm_compute. discriminate.
Defined.

Lemma update_eq env id updates w :
  WorkflowStorage.update env id updates w
  = match first_with_id id (stored_workflows w) with
    | None => (None, w)
    | Some (index, o) =>
        let u := WorkflowStorage.merge o updates
                   (toISOString env (clock env (clock_reads w))) in
        (Some u,
         {| files := {| workflows_json :=
                          Some (<[index := u]> (stored_workflows w));
                        executions_json := executions_json (files w);
                        modules_json := modules_json (files w) |};
            clock_reads := S (clock_reads w);
            uuids_drawn := uuids_drawn w |})
    end.
Proof.
  unfold WorkflowStorage.update, and_then. rewrite getAll_eq.
  unfold first_with_id. by destruct (list_find _ _) as [[index o]|].
Qed.

Lemma update_spec env id updates w r w' :
  WorkflowStorage.update env id updates w = (r, w') →
  match first_with_id id (stored_workflows w) with
  | None => r = None ∧ w' = w
  | Some (index, o) =>
      ∃ u, r = Some u
           ∧ wf_id u = id ∧ wf_createdAt u = wf_createdAt o
           ∧ wf_updatedAt u = toISOString env (clock env (clock_reads w))
           ∧ wf_name u = default (wf_name o) (u_name updates)
           ∧ wf_description u = default (wf_description o) (u_description updates)
           ∧ wf_steps u = default (wf_steps o) (u_steps updates)
           ∧ stored_workflows w' = <[index := u]> (stored_workflows w)
           ∧ WorkflowStorage.getById id w' = (Some u, w')
  end.
Proof.
  rewrite update_eq.
  destruct (first_with_id id (stored_workflows w)) as [[index o]|] eqn:Hf;
    intros Heq; cbv zeta in Heq;
    pose proof (f_equal fst Heq) as H1; pose proof (f_equal snd Heq) as H2;
    simpl in H1, H2; [|by subst r w'].
  set (u := WorkflowStorage.merge o updates
              (toISOString env (clock env (clock_reads w)))) in *.
  assert (stored_workflows w' = <[index := u]> (stored_workflows w)) as Hst
    by by subst w'.
  subst r. clear Heq H2. exists u. split; [done|]. unfold first_with_id in Hf.
  pose proof Hf as (Hi & Hid & Hleast)%list_find_Some.
  split_and!; try done.
  rewrite getById_eq, Hst. unfold first_with_id.
  rewrite (proj2 (list_find_insert_Some (λ x, wf_id x = id)
                    (stored_workflows w) index index u u)); [done|].
  right. left. split_and!; [done..| |done|].
  - by eapply lookup_lt_Some.
  - intros i' z Hz Hlt. by eapply Hleast.
Qed.

(** X23. [WorkflowStorage.update] changes the oldest stored workflow with
    the given id, in place: its id and creation time stay, [updatedAt] is
    the clock reading, every key of [updates] replaces the stored value
    (erasing it when the value is [undefined]) and every other field stays;
    the other workflows and their order are untouched, and the id then
    finds the updated workflow.  When no stored workflow has the id, it
    answers [null], writes nothing and does not read the clock. *)
Theorem update_changes_first env id updates w r w' :
  WorkflowStorage.update env id updates w = (r, w') →
  match first_with_id id (stored_workflows w) with
  | None => r = None ∧ w' = w
  | Some (index, o) =>
      ∃ u, r = Some u
           ∧ wf_id u = id ∧ wf_createdAt u = wf_createdAt o
           ∧ wf_updatedAt u = toISOString env (clock env (clock_reads w))
           ∧ wf_name u = default (wf_name o) (u_name updates)
           ∧ wf_description u = default (wf_description o) (u_description updates)
           ∧ wf_steps u = default (wf_steps o) (u_steps updates)
           ∧ stored_workflows w' = <[index := u]> (stored_workflows w)
           ∧ WorkflowStorage.getById id w' = (Some u, w')
  end.
Proof. apply update_spec. Qed.

Lemma update_changes_first_witness :
  ∃ u w',
    WorkflowStorage.update Scenario.env "1700000000000"
      {| u_name := Some None; u_description := None; u_steps := None |}
      Scenario.twice
    = (Some u, w')
    ∧ wf_name u = None ∧ wf_steps u = Some []
    ∧ WorkflowStorage.getById "1700000000000" w' = (Some u, w').
Proof.
  destruct (WorkflowStorage.update Scenario.env "1700000000000"
              {| u_name := Some None; u_description := None; u_steps := None |}
              Scenario.twice) as [r w'] eqn:Hu.
  pose proof (update_changes_first _ _ _ _ _ _ Hu) as H.
  vm_compute first_with_id in H.
  destruct H as (u & -> & _ & _ & _ & Hn & _ & Hs & _ & Hg).
  exists u, w'. split; [reflexivity|]. split; [exact Hn|]. split; [exact Hs|].
  exact Hg.
Defined.

(** * The workflow routes *)

Lemma process_step_spec env step w :
  ∃ s w', process_step env step w = (s, w')
          ∧ processed_from step s
          ∧ files w' = files w ∧ clock_reads w' = clock_reads w.
Proof.
  unfold process_step, and_then, processed_from.
  destruct (i_instanceId step) as [i|] eqn:Hi; simpl.
  - destruct (String.eqb i EmptyString) eqn:He; simpl.
    + eexists _, _. split; [done|]. split_and!; try done.
      intros i' [= <-] Hne. by apply String.eqb_eq in He.
    + eexists _, _. split; [done|]. split_and!; try done.
      by intros i' [= <-] _.
  - eexists _, _. split; [done|]. split_and!; done.
Qed.

Lemma process_steps_spec env steps :
  ∀ w, ∃ ps w', process_steps env steps w = (ps, w')
                ∧ Forall2 processed_from steps ps
                ∧ files w' = files w ∧ clock_reads w' = clock_reads w.
Proof.
  induction steps as [|step rest IH]; intros w; simpl.
  - exists [], w. by split_and!.
  - unfold and_then.
    destruct (process_step_spec env step w) as (s & w1 & -> & Hs & Hf1 & Hc1).
    destruct (IH w1) as (ps & w2 & -> & Hps & Hf2 & Hc2).
    exists (s :: ps), w2. split_and!; [done|by constructor|congruence..].
Qed.

Lemma stored_same_files w w' :
  files w' = files w → stored_workflows w' = stored_workflows w.
Proof. unfold stored_workflows. by intros ->. Qed.

Lemma put_workflow_eq env id body w :
  put_workflow env id body w
  = (let pw := match b_steps body with
               | Some steps =>
                   (Some (process_steps env steps w).1,
                    (process_steps env steps w).2)
               | None => (None, w)
               end in
     let rw := WorkflowStorage.update env id
                 {| u_name := Some (b_name body);
                    u_description := Some (b_description body);
                    u_steps := Some pw.1 |} pw.2 in
     (match rw.1 with
      | None => Reply 404 (ErrorBody "Workflow not found")
      | Some u => Reply 200 (WorkflowJson u)
      end, rw.2)).
Proof.
  unfold put_workflow, and_then. cbv zeta.
  destruct (b_steps body) as [steps|]; simpl.
  - destruct (process_steps env steps w) as [ps w1]. simpl.
    destruct (WorkflowStorage.update env id _ w1) as [[u|] w2]; done.
  - destruct (WorkflowStorage.update env id _ w) as [[u|] w2]; done.
Qed.

Lemma routes_store_steps_facts env body w :
  (∀ workflow w',
     post_workflow env body w = (Reply 201 (WorkflowJson workflow), w') →
     ∃ steps ps,
       b_steps body = Some steps ∧ wf_steps workflow = Some ps
       ∧ Forall2 processed_from steps ps
       ∧ stored_workflows w' = stored_workflows w ++ [workflow])
  ∧ (b_name body = None ∨ b_name body = Some EmptyString
     ∨ b_steps body = None →
     post_workflow env body w
     = (Reply 400 (ErrorBody "Name and steps are required"), w))
  ∧ (∀ id workflow w',
       put_workflow env id body w = (Reply 200 (WorkflowJson workflow), w') →
       match b_steps body with
       | Some steps =>
           ∃ ps, wf_steps workflow = Some ps ∧ Forall2 processed_from steps ps
       | None => wf_steps workflow = None
       end
       ∧ wf_name workflow = b_name body).
Proof.
  split_and!.
  - intros workflow w'. unfold post_workflow.
    destruct (b_name body) as [name|]; [|done].
    destruct (b_steps body) as [steps|]; [|done].
    destruct (String.eqb name EmptyString); [done|]. unfold and_then.
    destruct (process_steps_spec env steps w) as (ps & w1 & -> & Hps & Hf & _).
    destruct (WorkflowStorage.create env _ w1) as [created w2] eqn:Hc.
    intros [= <- <-].
    destruct (create_spec _ _ _ _ _ Hc) as (_ & Hst & _).
    exists steps, ps. split_and!; [done| |done|].
    + rewrite create_eq in Hc. by injection Hc as <- _.
    + by rewrite Hst, (stored_same_files _ _ Hf).
  - unfold post_workflow. intros [-> | [-> | ->]]; [done|by destruct (b_steps body)|].
    by destruct (b_name body).
  - intros id workflow w'. rewrite put_workflow_eq. cbv zeta.
    set (pw := match b_steps body with Some _ => _ | None => _ end).
    destruct (WorkflowStorage.update env id _ pw.2) as [r w2] eqn:Hu.
    pose proof (update_spec _ _ _ _ _ _ Hu) as Hup. simpl.
    destruct (first_with_id id (stored_workflows pw.2)) as [[index o]|];
      [|by destruct Hup as [-> _]].
    destruct Hup as (u & -> & _ & _ & _ & Hn & _ & Hs & _).
    intros [= <- <-]. simpl in Hn, Hs. split; [|done].
    subst pw. destruct (b_steps body) as [steps|]; [|done].
    destruct (process_steps_spec env steps w) as (ps & w1 & Hp & Hps & _).
    rewrite Hp in Hs. by exists ps.
Qed.

(** X24. Every step of a workflow stored by [POST /] or [PUT /:id] has
    the module id and the model of the step of the request, its instance id
    when that is a non-empty string, and no [dependsOn], whatever the
    request gave.  [POST /] answers 400 and writes nothing when the name is
    missing or empty or the steps are missing, and otherwise appends the
    workflow it answers with to the stored ones. *)
Theorem routes_store_steps_without_dependsOn env body w :
  (∀ workflow w',
     post_workflow env body w = (Reply 201 (WorkflowJson workflow), w') →
     ∃ steps ps,
       b_steps body = Some steps ∧ wf_steps workflow = Some ps
       ∧ Forall2 processed_from steps ps
       ∧ stored_workflows w' = stored_workflows w ++ [workflow])
  ∧ (b_name body = None ∨ b_name body = Some EmptyString
     ∨ b_steps body = None →
     post_workflow env body w
     = (Reply 400 (ErrorBody "Name and steps are required"), w))
  ∧ (∀ id workflow w',
       put_workflow env id body w = (Reply 200 (WorkflowJson workflow), w') →
       match b_steps body with
       | Some steps =>
           ∃ ps, wf_steps workflow = Some ps ∧ Forall2 processed_from steps ps
       | None => wf_steps workflow = None
       end
       ∧ wf_name workflow = b_name body).
Proof. apply routes_store_steps_facts. Qed.

Section ParallelRouteFacts.

Variable env : Env.
Variable moduleExecutors :
  string → option (value → value → option string → outcome).
Variable executedAt : WorkflowStep → string.
Variable beyond_model : WorkflowStep → outcome.

Local Abbreviation route :=
  (execute_parallel env moduleExecutors executedAt beyond_model).

Lemma route_eq id w :
  route id w
  = match first_with_id id (stored_workflows w) with
    | None => (Reply 404 (ErrorBody "Workflow not found"), w)
    | Some (_, workflow) =>
        match wf_steps workflow with
        | None =>
            (Reply 500 (ErrorMessageBody
                          "Failed to execute workflow in parallel"
                          forEach_of_undefined), w)
        | Some steps =>
            match analyzeParallelism steps with
            | None => (NoReply, w)
            | Some parallelism =>
                let w1 := (date_now env w).2 in
                match execute (default [] (modules_json (files w)))
                        moduleExecutors executedAt beyond_model steps with
                | OutOfFuel => (NoReply, w1)
                | Throws message =>
                    (Reply 500 (ErrorMessageBody
                                  "Failed to execute workflow in parallel"
                                  message), w1)
                | Returns results g =>
                    (Reply 200
                       (ParallelJson (wf_id workflow)
                          (pretty (Z.of_N (clock env (S (clock_reads w)))
                                   - Z.of_N (clock env (clock_reads w)))%Z
                             +:+ "ms")
                          parallelism (to_object results) (getStats steps g)
                          (toISOString env (clock env (S (S (clock_reads w)))))),
                     {| files := files w;
                        clock_reads := S (S (S (clock_reads w)));
                        uuids_drawn := uuids_drawn w |})
                end
            end
        end
    end.
Proof.
  unfold execute_parallel, and_then. rewrite getById_eq.
  destruct (first_with_id id (stored_workflows w)) as [[i workflow]|]; [|done].
  simpl. destruct (wf_steps workflow) as [steps|]; [|done].
  destruct (analyzeParallelism steps) as [parallelism|]; [|done].
  simpl. unfold readJsonFile. simpl.
  by destruct (execute _ _ _ _ steps).
Qed.

(** X25. [POST /:id/execute-parallel] answers 404 when no stored workflow
    has the id, and 500 with a [TypeError] message when the workflow has no
    steps.  Otherwise it answers 200 exactly when the steps have unique
    instance ids, every [dependsOn] entry names a step and there is no
    cycle, with statistics that count every step as completed and the
    levels of [analyzeParallelism]; in every other case it answers 500 with
    the deadlock message, after the steps that could run have run. *)
Theorem execute_parallel_replies id w :
  (first_with_id id (stored_workflows w) = None →
   route id w = (Reply 404 (ErrorBody "Workflow not found"), w))
  ∧ (∀ i workflow,
       first_with_id id (stored_workflows w) = Some (i, workflow) →
       wf_steps workflow = None →
       route id w
       = (Reply 500 (ErrorMessageBody "Failed to execute workflow in parallel"
                       forEach_of_undefined), w))
  ∧ (∀ i workflow steps,
       first_with_id id (stored_workflows w) = Some (i, workflow) →
       wf_steps workflow = Some steps →
       (wellformed steps →
        ∃ duration parallelism results completedAt w',
          route id w
          = (Reply 200 (ParallelJson id duration parallelism results
                          (all_completed (length steps)) completedAt), w')
          ∧ analyzeParallelism steps = Some parallelism
          ∧ files w' = files w)
       ∧ (¬ wellformed steps →
          (route id w).1
          = Reply 500 (ErrorMessageBody "Failed to execute workflow in parallel"
                         deadlock_message))).
Proof.
  rewrite route_eq. split_and!.
  - by intros ->.
  - by intros i workflow -> ->.
  - intros i workflow steps Hf Hs. rewrite Hf, Hs.
    destruct (analyzeParallelism_total steps) as [parallelism Hp]. rewrite Hp.
    apply list_find_Some in Hf as (_ & Hid & _).
    split.
    + intros Hwf.
      apply (returns_iff (default [] (modules_json (files w))) moduleExecutors
               executedAt beyond_model) in Hwf as (results & g & Hx).
      rewrite Hx. eexists _, _, _, _, _. split.
      * rewrite (stats_when_returned _ _ _ _ _ _ _ Hx), Hid. reflexivity.
      * done.
    + intros Hn.
      apply (deadlock_iff (default [] (modules_json (files w))) moduleExecutors
               executedAt beyond_model) in Hn.
      by rewrite Hn.
Qed.

End ParallelRouteFacts.

(** ** Stored workflows in the parallel routes *)

Lemma no_deps_wellformed steps :
  (∀ s, s ∈ steps → deps s = []) → unique_ids steps → wellformed steps.
Proof.
  intros Hd Hu. split_and!; [done| |].
  - intros s d Hs Hin. rewrite (Hd s Hs) in Hin. by apply elem_of_nil in Hin.
  - intros [a Hc].
    assert (∃ b, depends_on steps a b) as (b & s & Hs & _ & Hb).
    { inversion Hc; subst; eauto. }
    rewrite (Hd s Hs) in Hb. by apply elem_of_nil in Hb.
Qed.

Lemma processed_no_deps steps ps :
  Forall2 processed_from steps ps → ∀ s, s ∈ ps → deps s = [].
Proof.
  intros Hall s Hs. apply list_elem_of_lookup in Hs as [i Hi].
  destruct (Forall2_lookup_r _ _ _ _ _ Hall Hi) as (step & _ & _ & _ & Hd & _).
  unfold deps. by rewrite Hd.
Qed.

Lemma first_with_id_found id w u w' :
  WorkflowStorage.getById id w = (Some u, w') →
  ∃ i, first_with_id id (stored_workflows w) = Some (i, u).
Proof.
  rewrite getById_eq. intros [= Hf _].
  destruct (first_with_id id (stored_workflows w)) as [[i o]|]; [|done].
  simpl in Hf. injection Hf as ->. by exists i.
Qed.

Section StoredWorkflowFacts.

Variable env : Env.
Variable moduleExecutors :
  string → option (value → value → option string → outcome).
Variable executedAt : WorkflowStep → string.
Variable beyond_model : WorkflowStep → outcome.

Local Abbreviation route :=
  (execute_parallel env moduleExecutors executedAt beyond_model).

Lemma route_independent id w i workflow steps :
  first_with_id id (stored_workflows w) = Some (i, workflow) →
  wf_steps workflow = Some steps →
  (∀ s, s ∈ steps → deps s = []) →
  (unique_ids steps → steps ≠ [] →
   ∃ duration parallelism results completedAt w',
     route id w
     = (Reply 200 (ParallelJson id duration parallelism results
                     (all_completed (length steps)) completedAt), w')
     ∧ levels parallelism = [instanceId <$> steps])
  ∧ (¬ unique_ids steps →
     (route id w).1
     = Reply 500 (ErrorMessageBody "Failed to execute workflow in parallel"
                    deadlock_message)).
Proof.
  intros Hf Hs Hd. rewrite route_eq, Hf, Hs.
  apply list_find_Some in Hf as (_ & Hid & _). split.
  - intros Hu Hne.
    rewrite analyzeParallelism_layered; [|done|].
    2:{ intros s Hin. rewrite (Hd s Hin). constructor. }
    destruct (proj2 (returns_iff (default [] (modules_json (files w)))
                       moduleExecutors executedAt beyond_model steps)
                (no_deps_wellformed steps Hd Hu)) as (results & g & Hx).
    rewrite Hx. eexists _, _, _, _, _. split.
    + rewrite (stats_when_returned _ _ _ _ _ _ _ Hx), Hid. reflexivity.
    + simpl. by apply layered_independent.
  - intros Hn. destruct (analyzeParallelism_total steps) as [p ->].
    rewrite (proj2 (deadlock_iff (default [] (modules_json (files w)))
                      moduleExecutors executedAt beyond_model steps)); [done|].
    by intros [? _].
Qed.

(** X26. Dependencies do not survive storage: a workflow stored by
    [POST /] under an id that no stored workflow had is run by
    [POST /:id/execute-parallel] as one single level that holds all its
    steps, whatever [dependsOn] the request gave, provided the instance ids
    are unique and there is a step; with a repeated instance id the route
    answers 500 with the deadlock message. *)
Theorem posted_workflow_runs_as_one_level body w workflow w1 :
  post_workflow env body w = (Reply 201 (WorkflowJson workflow), w1) →
  first_with_id (wf_id workflow) (stored_workflows w) = None →
  ∃ ps,
    wf_steps workflow = Some ps
    ∧ (∀ s, s ∈ ps → dependsOn s = None)
    ∧ (unique_ids ps → ps ≠ [] →
       ∃ duration parallelism results completedAt w2,
         route (wf_id workflow) w1
         = (Reply 200 (ParallelJson (wf_id workflow) duration parallelism results
                         (all_completed (length ps)) completedAt), w2)
         ∧ levels parallelism = [instanceId <$> ps])
    ∧ (¬ unique_ids ps →
       (route (wf_id workflow) w1).1
       = Reply 500 (ErrorMessageBody "Failed to execute workflow in parallel"
                      deadlock_message)).
Proof.
  intros Hpost Hfresh.
  destruct (proj1 (routes_store_steps_facts env body w) workflow w1 Hpost)
    as (steps & ps & _ & Hps & Hall & Hst).
  exists ps. split; [done|].
  pose proof (processed_no_deps steps ps Hall) as Hd.
  split.
  { intros s Hs. apply list_elem_of_lookup in Hs as [i Hi].
    by destruct (Forall2_lookup_r _ _ _ _ _ Hall Hi) as (? & _ & _ & _ & ? & _). }
  assert (first_with_id (wf_id workflow) (stored_workflows w1)
          = Some (length (stored_workflows w) + 0, workflow)) as Hf.
  { rewrite Hst. unfold first_with_id in *.
    rewrite (list_find_app_r _ _ _ Hfresh). simpl.
    rewrite decide_True by done. simpl. f_equal. f_equal. lia. }
  by apply (route_independent _ _ _ _ _ Hf Hps).
Qed.

(** X27. [PUT /:id] with a body that has no [steps] erases the steps of
    the stored workflow (and its name, when the body has none): the routes
    that run or analyze the workflow then answer 500. *)
Theorem put_without_steps_erases_them id body w workflow w1 :
  put_workflow env id body w = (Reply 200 (WorkflowJson workflow), w1) →
  b_steps body = None →
  wf_steps workflow = None
  ∧ wf_name workflow = b_name body
  ∧ route id w1
    = (Reply 500 (ErrorMessageBody "Failed to execute workflow in parallel"
                    forEach_of_undefined), w1)
  ∧ analyze_workflow id w1
    = (Reply 500 (ErrorBody "Failed to analyze workflow"), w1).
Proof.
  intros Hput Hnone.
  pose proof (proj2 (proj2 (routes_store_steps_facts env body w))
                id workflow w1 Hput) as [Hs Hn].
  rewrite Hnone in Hs. split; [done|]. split; [done|].
  assert (∃ i, first_with_id id (stored_workflows w1) = Some (i, workflow))
    as [i Hf].
  { rewrite put_workflow_eq in Hput. cbv zeta in Hput. rewrite Hnone in Hput.
    simpl in Hput.
    destruct (WorkflowStorage.update env id _ w) as [r w2] eqn:Hu.
    pose proof (update_spec _ _ _ _ _ _ Hu) as Hup. simpl in Hput.
    destruct (first_with_id id (stored_workflows w)) as [[index o]|].
    - destruct Hup as (u & -> & _ & _ & _ & _ & _ & _ & _ & Hg).
      injection Hput as <- <-. by eapply first_with_id_found.
    - destruct Hup as [-> _]. done. }
  split.
  - by rewrite route_eq, Hf, Hs.
  - unfold analyze_workflow, and_then. rewrite getById_eq, Hf. simpl.
    by rewrite Hs.
Qed.

End StoredWorkflowFacts.

Lemma analyzeParallelism_max steps r :
  analyzeParallelism steps = Some r →
  maxParallelism r = math_max (length <$> levels r).
Proof.
  unfold analyzeParallelism. destruct (levels_loop _ _ _ _ _); [|done].
  simpl. by intros [= <-].
Qed.

Lemma max_list_gt (ls : list (list string)) n :
  n < max_list (length <$> ls) → ∃ level, level ∈ ls ∧ n < length level.
Proof.
  induction ls as [|x ls IH]; [simpl; lia|]. intros Hm.
  change (n < length x `max` max_list (length <$> ls)) in Hm.
  destruct (decide (n < length x)).
  - exists x. split; [by left|done].
  - destruct IH as (level & Hin & Hlen); [lia|].
    exists level. split; [by right|done].
Qed.

Lemma max_list_ge (ls : list (list string)) level :
  level ∈ ls → length level ≤ max_list (length <$> ls).
Proof.
  induction 1 as [level ls|level x ls _ IH].
  - change (length level ≤ length level `max` max_list (length <$> ls)). lia.
  - change (length level ≤ length x `max` max_list (length <$> ls)). lia.
Qed.

(** X28. [GET /:id/analyze] answers with the result of
    [analyzeParallelism] on the stored steps; [canParallelize] is set
    exactly when some level holds more than one step, and when no level is
    formed (a workflow without steps, or one whose steps all wait) it
    reports that parallel execution is not possible with the estimated
    speedup [-Infinityx (theoretical maximum)]. *)
Theorem analyze_workflow_reports id w i workflow steps :
  first_with_id id (stored_workflows w) = Some (i, workflow) →
  wf_steps workflow = Some steps →
  ∃ parallelism canParallelize estimatedSpeedup,
    analyzeParallelism steps = Some parallelism
    ∧ analyze_workflow id w
      = (Reply 200 (AnalysisJson id parallelism canParallelize
                      estimatedSpeedup), w)
    ∧ (canParallelize = true ↔ ∃ level, level ∈ levels parallelism
                                        ∧ 1 < length level)
    ∧ (levels parallelism = [] →
       estimatedSpeedup = "-Infinityx (theoretical maximum)")
    ∧ (steps = [] → levels parallelism = []).
Proof.
  intros Hf Hs. destruct (analyzeParallelism_total steps) as [p Hp].
  exists p, (more_than_one (maxParallelism p)),
    (speedup_text (maxParallelism p)).
  split; [done|]. split_and!.
  - unfold analyze_workflow, and_then. rewrite getById_eq, Hf. simpl.
    rewrite Hs, Hp. apply list_find_Some in Hf as (_ & -> & _). done.
  - rewrite (analyzeParallelism_max steps p Hp).
    destruct (levels p) as [|l ls] eqn:Hl.
    + simpl. split; [done|]. by intros (level & ?%elem_of_nil & _).
    + rewrite fmap_cons, math_max_cons. unfold more_than_one.
      rewrite bool_decide_eq_true, <- fmap_cons. split.
      * apply max_list_gt.
      * intros (level & Hin & Hlen). apply max_list_ge in Hin. lia.
  - intros Hl. rewrite (analyzeParallelism_max steps p Hp), Hl. done.
  - intros ->. vm_compute in Hp. by injection Hp as <-.
Qed.

Lemma posted_workflow_runs_as_one_level_witness :
  ∃ workflow w1 parallelism,
    post_workflow Scenario.env Scenario.chained fresh_world
    = (Reply 201 (WorkflowJson workflow), w1)
    ∧ (∃ duration results completedAt w2,
         execute_parallel Scenario.env Examples.executors Examples.clock
           Examples.no_exotic (wf_id workflow) w1
         = (Reply 200 (ParallelJson (wf_id workflow) duration parallelism
                         results (all_completed 2) completedAt), w2))
    ∧ levels parallelism = [["A"; "B"]].
Proof.
  eassert (post_workflow Scenario.env Scenario.chained fresh_world
           = (Reply 201 (WorkflowJson _), _)) as Hpost
    by (vm_compute; reflexivity).
  destruct (posted_workflow_runs_as_one_level Scenario.env Examples.executors
              Examples.clock Examples.no_exotic Scenario.chained fresh_world
              _ _ Hpost eq_refl) as (ps & Hps & _ & Hrun & _).
  injection Hps as <-.
  destruct Hrun as (duration & parallelism & results & completedAt & w2
                    & Hroute & Hlevels).
  - unfold unique_ids. simpl.
    apply NoDup_cons. split; [|apply NoDup_singleton].
    intros H%list_elem_of_singleton. discriminate.
  - discriminate.
  - eexists _, _, parallelism. split; [exact Hpost|]. split.
    + exists duration, results, completedAt, w2. exact Hroute.
    + exact Hlevels.
Defined.

Lemma put_without_steps_erases_them_witness :
  ∃ workflow w1 w2,
    (post_workflow Scenario.env Scenario.chained fresh_world).2 = w1
    ∧ put_workflow Scenario.env "1700000000000" Scenario.rename w1
      = (Reply 200 (WorkflowJson workflow), w2)
    ∧ wf_steps workflow = None
    ∧ execute_parallel Scenario.env Examples.executors Examples.clock
        Examples.no_exotic "1700000000000" w2
      = (Reply 500 (ErrorMessageBody "Failed to execute workflow in parallel"
                      forEach_of_undefined), w2).
Proof.
  eassert (put_workflow Scenario.env "1700000000000" Scenario.rename
             (post_workflow Scenario.env Scenario.chained fresh_world).2
           = (Reply 200 (WorkflowJson _), _)) as Hput
    by (vm_compute; reflexivity).
  destruct (put_without_steps_erases_them Scenario.env Examples.executors
              Examples.clock Examples.no_exotic "1700000000000" Scenario.rename
              _ _ _ Hput eq_refl) as (Hs & _ & Hroute & _).
  eexists _, _, _. split; [reflexivity|]. split; [exact Hput|].
  split; [exact Hs|exact Hroute].
Defined.

Lemma analyze_workflow_reports_witness :
  ∃ parallelism,
    analyze_workflow "1700000000000" Scenario.twice
    = (Reply 200 (AnalysisJson "1700000000000" parallelism false
                    "-Infinityx (theoretical maximum)"), Scenario.twice)
    ∧ levels parallelism = [].
Proof.
  destruct (analyze_workflow_reports "1700000000000" Scenario.twice 0
              {| wf_id := "1700000000000"; wf_name := Some "first";
                 wf_description := None; wf_steps := Some [];
                 wf_createdAt := "2023-11-14T22:13:20.000Z";
                 wf_updatedAt := "2023-11-14T22:13:20.000Z" |} [])
    as (parallelism & can & speedup & Hp & Hroute & Hcan & Hspeed & Hnil).
  - vm_compute. reflexivity.
  - reflexivity.
  - exists parallelism. specialize (Hnil eq_refl). split; [|exact Hnil].
    rewrite Hroute, (Hspeed Hnil).
    destruct can; [|reflexivity].
    destruct (proj1 Hcan eq_refl) as (level & Hin & _).
    rewrite Hnil in Hin. by apply elem_of_nil in Hin.
Defined.

(** * The data-flow route and the validation *)

Lemma named_by_snoc bs b :
  named_by (bs ++ [b])
  = named_by bs ++ ((λ ty, (bn_index b, ty)) <$> bn_missing b).
Proof. unfold named_by. rewrite flat_map_app. simpl. by rewrite app_nil_r. Qed.

Lemma missing_required_flagged moduleMap pre (a : gset string) index s module :
  (∀ ty, ty ∈ a ↔ available moduleMap pre ty = true) →
  moduleMap !! moduleId s = Some module →
  (λ ty, (index, ty)) <$> missing_required a module
  = flagged (step_errors moduleMap pre index s).
Proof.
  intros Ha Hm. unfold missing_required, step_errors. rewrite Hm.
  induction (inputs (io module)) as [|input ins IH]; [done|]. simpl.
  assert (bool_decide (type input ∉ a)
          = negb (available moduleMap pre (type input))) as ->.
  { destruct (available moduleMap pre (type input)) eqn:E; simpl.
    - apply bool_decide_eq_false. intros Hn. by apply Hn, Ha.
    - apply bool_decide_eq_true. intros Hin%Ha. congruence. }
  rewrite flagged_app, <- IH.
  by destruct (is_required input && negb _).
Qed.

Lemma data_flow_log_spec steps moduleMap :
  named_by (df_bottlenecks (data_flow_log steps moduleMap))
  = flagged (per_step (step_errors moduleMap) steps)
  ∧ Forall (λ b, bn_missing b ≠ []) (df_bottlenecks (data_flow_log steps moduleMap))
  ∧ length (df_flow (data_flow_log steps moduleMap))
    + length (unknown_steps moduleMap steps)
    = length steps.
Proof.
  unfold data_flow_log.
  pose (P := λ (pre : list WorkflowStep) (st : DataFlow),
             named_by (df_bottlenecks st)
             = flagged (per_step (step_errors moduleMap) pre)
             ∧ Forall (λ b, bn_missing b ≠ []) (df_bottlenecks st)
             ∧ length (df_flow st) + length (unknown_steps moduleMap pre)
               = length pre
             ∧ ∀ ty, ty ∈ df_available st ↔ available moduleMap pre ty = true).
  match goal with |- context [forEach ?f steps ?st] =>
    assert (P steps (forEach f steps st)) as (H1 & H2 & H3 & _); [|done] end.
  apply forEach_inv.
  - split_and!; [done|constructor|done|]. intros ty. simpl. set_solver.
  - intros pre s st (Hn & Hne & Hlen & Ha). unfold P, data_flow_step.
    rewrite per_step_snoc, flagged_app, length_app. unfold unknown_steps.
    rewrite filter_app, length_app, filter_cons, filter_nil.
    fold (unknown_steps moduleMap pre).
    destruct (moduleMap !! moduleId s) as [module|] eqn:Hm; simpl.
    + rewrite <- (missing_required_flagged moduleMap pre (df_available st)
                    (length pre) s module Ha Hm).
      split_and!.
      * case_bool_decide as Hlt.
        -- by rewrite named_by_snoc, Hn.
        -- destruct (missing_required (df_available st) module); simpl in *;
             [by rewrite app_nil_r|lia].
      * case_bool_decide as Hlt; [|done].
        apply Forall_app. split; [done|]. constructor; [|constructor]. simpl.
        intros Heq. rewrite Heq in Hlt. simpl in Hlt. lia.
      * rewrite length_app. simpl. lia.
      * intros ty. rewrite add_outputs_elem, available_snoc, orb_true_iff, Ha.
        unfold provides. by rewrite Hm.
    + unfold step_errors. rewrite Hm. simpl. rewrite app_nil_r.
      split_and!; [done|done|lia|].
      intros ty. rewrite available_snoc, Ha. unfold provides. rewrite Hm.
      by rewrite orb_false_r.
Qed.

Lemma valid_iff_nothing_flagged steps modules :
  isValid (validateWorkflow steps modules) = true
  ↔ unknown_steps (build_moduleMap modules) steps = []
    ∧ flagged (per_step (step_errors (build_moduleMap modules)) steps) = [].
Proof.
  rewrite isValid_iff, validateWorkflow_errors.
  pose proof (errors_count (build_moduleMap modules) steps) as He.
  pose proof (missing_count (build_moduleMap modules) steps) as Hm.
  pose proof (flagged_agree steps (build_moduleMap modules)) as Hf.
  rewrite validateDataFlow_spec, checkMissingDependencies_spec in Hf.
  simpl in Hf. rewrite <- Hf in Hm.
  rewrite <- !length_zero_iff_nil, length_app, !length_fmap. lia.
Qed.

Lemma named_by_nil bs :
  Forall (λ b, bn_missing b ≠ []) bs → named_by bs = [] ↔ bs = [].
Proof.
  intros Hne. split; [|by intros ->].
  destruct Hne as [|b bs Hb _]; [done|]. unfold named_by. simpl.
  destruct (bn_missing b); [done|]. simpl. discriminate.
Qed.

Section DataFlowRoute.

Variable w : World.

Local Abbreviation moduleMap := (build_moduleMap (stored_modules w)).

(** X29. [POST /data-flow] answers 400 without an array of steps, and
    otherwise 200 with an analysis that agrees with the validation: its
    bottlenecks name, step by step, exactly the required inputs that
    [validateDataFlow] reports as missing, every bottleneck names at least
    one input, and [flow] has one entry per step with a known module.  A
    step with an unknown module is passed over without notice, so that the
    workflow is valid exactly when there is no bottleneck and no such
    step. *)
Theorem data_flow_agrees_with_validation steps :
  data_flow None w = (Reply 400 (ErrorBody "Steps array is required"), w)
  ∧ data_flow (Some steps) w
    = (Reply 200 (DataFlowJson (dataFlowAnalysis steps moduleMap)), w)
  ∧ named_by (df_bottlenecks (data_flow_log steps moduleMap))
    = flagged (validateDataFlow_log steps moduleMap).1
  ∧ Forall (λ b, bn_missing b ≠ [])
      (df_bottlenecks (data_flow_log steps moduleMap))
  ∧ length (flow (dataFlowAnalysis steps moduleMap))
    + length (unknown_steps moduleMap steps)
    = length steps
  ∧ (isValid (validateWorkflow steps (stored_modules w)) = true
     ↔ bottlenecks (dataFlowAnalysis steps moduleMap) = []
       ∧ unknown_steps moduleMap steps = []).
Proof.
  destruct (data_flow_log_spec steps moduleMap) as (Hn & Hne & Hlen).
  split_and!; [done|done| |done|done|].
  - by rewrite validateDataFlow_spec.
  - rewrite valid_iff_nothing_flagged, <- Hn, (named_by_nil _ Hne).
    unfold dataFlowAnalysis. simpl.
    assert (render_bottleneck <$> df_bottlenecks (data_flow_log steps moduleMap)
            = [] ↔ df_bottlenecks (data_flow_log steps moduleMap) = []) as ->.
    { split; [apply fmap_nil_inv|by intros ->]. }
    tauto.
Qed.

End DataFlowRoute.
